(** * translate_doc.py: paragraph merging and translation insertion

    A shallow embedding of [src/translate_doc.py].

    - Python strings are lists of Unicode code points.
    - The document is a forest of XML elements carrying an identity; the
      python-docx / lxml operations the script uses ([Paragraph.text],
      [getparent().remove], [copy.deepcopy], [parent.insert], [iter]) are
      functions on that forest.
    - The translator is a function from the number of the call and the text
      sent to [Some] translated text, or [None] when the call (or reading its
      result) raises.
    - Console output, translator calls and sleeps are recorded in an event log
      carried by the state. *)

From Stdlib Require Import List NArith String Ascii Bool Arith Lia Permutation.
Import ListNotations.

Local Open Scope string_scope.
Local Open Scope list_scope.

(** ** Python strings *)

Module Py.

Definition char := N.
Definition str := list char.

(** Code points of a UTF-8 encoded literal, so that the literals of the
    source can be written as they are. *)
Fixpoint of_utf8 (s : string) : str :=
  match s with
  | EmptyString => []
  | String a s1 =>
    let b0 := N_of_ascii a in
    if (b0 <? 128)%N then b0 :: of_utf8 s1 else
    match s1 with
    | EmptyString => []
    | String b s2 =>
      let b1 := (N_of_ascii b mod 64)%N in
      if (b0 <? 224)%N then ((b0 mod 32) * 64 + b1)%N :: of_utf8 s2 else
      match s2 with
      | EmptyString => []
      | String c s3 =>
        let b2 := (N_of_ascii c mod 64)%N in
        if (b0 <? 240)%N then ((b0 mod 16) * 4096 + b1 * 64 + b2)%N :: of_utf8 s3 else
        match s3 with
        | EmptyString => []
        | String d s4 =>
          let b3 := (N_of_ascii d mod 64)%N in
          ((b0 mod 8) * 262144 + b1 * 4096 + b2 * 64 + b3)%N :: of_utf8 s4
        end
      end
    end
  end.

Bind Scope N_scope with char.

Definition in_range (lo hi c : char) : bool := ((lo <=? c) && (c <=? hi))%N.

(** [str.isspace] on one character, which is also what [\s] matches in a
    [str] pattern: the characters CPython lists as whitespace. *)
Definition isspace (c : char) : bool :=
  in_range 0x09 0x0D c || in_range 0x1C 0x20 c || (c =? 0x85)%N || (c =? 0xA0)%N
  || (c =? 0x1680)%N || in_range 0x2000 0x200A c || (c =? 0x2028)%N
  || (c =? 0x2029)%N || (c =? 0x202F)%N || (c =? 0x205F)%N || (c =? 0x3000)%N.

(** The code points of Unicode category Nd, in ranges (first, last): what
    [\d] matches in a [str] pattern.  The ASCII digits come first. *)
Definition decimal_ranges : list (N * N) :=
  [ (0x30, 0x39); (0x660, 0x669); (0x6F0, 0x6F9); (0x7C0, 0x7C9);
    (0x966, 0x96F); (0x9E6, 0x9EF); (0xA66, 0xA6F); (0xAE6, 0xAEF);
    (0xB66, 0xB6F); (0xBE6, 0xBEF); (0xC66, 0xC6F); (0xCE6, 0xCEF);
    (0xD66, 0xD6F); (0xDE6, 0xDEF); (0xE50, 0xE59); (0xED0, 0xED9);
    (0xF20, 0xF29); (0x1040, 0x1049); (0x1090, 0x1099); (0x17E0, 0x17E9);
    (0x1810, 0x1819); (0x1946, 0x194F); (0x19D0, 0x19D9); (0x1A80, 0x1A89);
    (0x1A90, 0x1A99); (0x1B50, 0x1B59); (0x1BB0, 0x1BB9); (0x1C40, 0x1C49);
    (0x1C50, 0x1C59); (0xA620, 0xA629); (0xA8D0, 0xA8D9); (0xA900, 0xA909);
    (0xA9D0, 0xA9D9); (0xA9F0, 0xA9F9); (0xAA50, 0xAA59); (0xABF0, 0xABF9);
    (0xFF10, 0xFF19); (0x104A0, 0x104A9); (0x10D30, 0x10D39);
    (0x11066, 0x1106F); (0x110F0, 0x110F9); (0x11136, 0x1113F);
    (0x111D0, 0x111D9); (0x112F0, 0x112F9); (0x11450, 0x11459);
    (0x114D0, 0x114D9); (0x11650, 0x11659); (0x116C0, 0x116C9);
    (0x11730, 0x11739); (0x118E0, 0x118E9); (0x11950, 0x11959);
    (0x11C50, 0x11C59); (0x11D50, 0x11D59); (0x11DA0, 0x11DA9);
    (0x11F50, 0x11F59); (0x16A60, 0x16A69); (0x16AC0, 0x16AC9);
    (0x16B50, 0x16B59); (0x1D7CE, 0x1D7FF); (0x1E140, 0x1E149);
    (0x1E2F0, 0x1E2F9); (0x1E4F0, 0x1E4F9); (0x1E950, 0x1E959);
    (0x1FBF0, 0x1FBF9) ]%N.

Definition isdecimal (c : char) : bool :=
  existsb (fun r => in_range (fst r) (snd r) c) decimal_ranges.

(** [c.isascii()] *)
Definition isascii (c : char) : bool := (c <? 128)%N.

Fixpoint drop_while (f : char -> bool) (s : str) : str :=
  match s with
  | [] => []
  | c :: s' => if f c then drop_while f s' else s
  end.

(** [s.lstrip()], [s.rstrip()], [s.strip()] *)
Definition lstrip (s : str) : str := drop_while isspace s.
Definition rstrip (s : str) : str := rev (drop_while isspace (rev s)).
Definition strip (s : str) : str := rstrip (lstrip s).

Definition mem (c : char) (chars : str) : bool := existsb (N.eqb c) chars.

(** [s.rstrip(chars)] *)
Definition rstrip_chars (chars : str) (s : str) : str :=
  rev (drop_while (fun c => mem c chars) (rev s)).

Fixpoint startswith (s prefix : str) : bool :=
  match prefix, s with
  | [], _ => true
  | p :: prefix', c :: s' => (c =? p)%N && startswith s' prefix'
  | _ :: _, [] => false
  end.

(** [s.endswith(suffix)], and [s.endswith(t)] for a tuple [t] *)
Definition endswith (s suffix : str) : bool := startswith (rev s) (rev suffix).
Definition endswith_any (s : str) (suffixes : list str) : bool :=
  existsb (endswith s) suffixes.

(** [not s] *)
Definition is_empty (s : str) : bool :=
  match s with [] => true | _ => false end.

(** [s[0]] and [s[-1]]; [None] is the IndexError of the empty string. *)
Definition first (s : str) : option char := hd_error s.
Definition last (s : str) : option char := hd_error (rev s).

End Py.

Notation "'u' s" := (Py.of_utf8 s) (at level 9, s at level 0, only parsing).

(** ** The two patterns of the script *)

Module Re.

(** Where [$] matches without [re.MULTILINE]: at the end of the string and
    just before a newline that ends the string. *)
Definition at_end (s : Py.str) : bool :=
  match s with
  | [] => true
  | [c] => (c =? 10)%N
  | _ => false
  end.

Definition is_dot (c : Py.char) : bool := (c =? 46)%N.

(** [bool(re.match(r'^\s*\d+(\.|$)', s))].  Whitespace, decimal digits and
    the dot are pairwise disjoint and a digit is no newline, so the greedy
    reading of [\s*] and [\d+] is the only one that can succeed. *)
Definition match_number (s : Py.str) : bool :=
  let s1 := Py.drop_while Py.isspace s in
  let s2 := Py.drop_while Py.isdecimal s1 in
  match s1 with
  | [] => false
  | c :: _ =>
    Py.isdecimal c &&
    match s2 with
    | [] => true
    | d :: _ => is_dot d || at_end s2
    end
  end.

Definition digit_or_dot (c : Py.char) : bool := Py.isdecimal c || is_dot c.

(** [re.sub(r'^[\d\.]+\s*', '', s)]: [^] matches at the start of the string
    only, so at most one match is replaced, the one at position 0. *)
Definition sub_numbering (s : Py.str) : Py.str :=
  match s with
  | [] => []
  | c :: _ =>
    if digit_or_dot c
    then Py.drop_while Py.isspace (Py.drop_while digit_or_dot s)
    else s
  end.

End Re.


(** ** XML elements (lxml) *)

Module Xml.

Local Unset Elimination Schemes.

(** An element: its identity (the Python object), its tag written with the
    prefix that [qn] takes (["w:p"], ["w:r"], ...), its [.text] and its
    children in document order. *)
Inductive elem : Type :=
  Elem { nid : nat; tag : string; text : Py.str; kids : list elem }.

Section Induction.
Variable P : elem -> Prop.
Hypothesis step : forall i t x ks, Forall P ks -> P (Elem i t x ks).

Fixpoint elem_ind (e : elem) : P e :=
  match e with
  | Elem i t x ks =>
    step i t x ks
      ((fix all (l : list elem) : Forall P l :=
          match l with
          | [] => Forall_nil P
          | k :: l' => Forall_cons k (elem_ind k) (all l')
          end) ks)
  end.
End Induction.

Section FirstSome.
Context {A B : Type}.
Variable f : A -> option B.

Fixpoint first_some (l : list A) : option B :=
  match l with
  | [] => None
  | a :: l' => match f a with Some b => Some b | None => first_some l' end
  end.
End FirstSome.

(** Every identity in a subtree, in document order. *)
Fixpoint ids (e : elem) : list nat := nid e :: flat_map ids (kids e).
Definition ids_of (l : list elem) : list nat := flat_map ids l.

(** Every element of a subtree, in document order: [e.iter()]. *)
Fixpoint iter (e : elem) : list elem := e :: flat_map iter (kids e).

Definition has_id (i : nat) (e : elem) : bool := Nat.eqb (nid e) i.

(** The element with identity [i]. *)
Fixpoint find (i : nat) (e : elem) : option elem :=
  if has_id i e then Some e else first_some (find i) (kids e).
Definition find_in (i : nat) (l : list elem) : option elem :=
  first_some (find i) l.

(** [e.getparent()] for the element with identity [i]. *)
Fixpoint parent (i : nat) (e : elem) : option elem :=
  if existsb (has_id i) (kids e) then Some e
  else first_some (parent i) (kids e).
Definition parent_in (i : nat) (l : list elem) : option elem :=
  first_some (parent i) l.

(** Replace the element with identity [i] by [f] of it. *)
Fixpoint update (i : nat) (f : elem -> elem) (e : elem) : elem :=
  if has_id i e then f e
  else Elem (nid e) (tag e) (text e) (map (update i f) (kids e)).

(** [parent.remove(child)] seen from the tree: the child with identity [i]
    leaves the list of children it is in. *)
Fixpoint prune (i : nat) (e : elem) : elem :=
  Elem (nid e) (tag e) (text e)
       (filter (fun k => negb (has_id i k)) (map (prune i) (kids e))).

Definition insert_after (i : nat) (new : elem) (l : list elem) : list elem :=
  flat_map (fun k => if has_id i k then [k; new] else [k]) l.

(** [parent.insert(parent.index(child) + 1, new)] seen from the tree. *)
Fixpoint graft (i : nat) (new : elem) (e : elem) : elem :=
  Elem (nid e) (tag e) (text e) (insert_after i new (map (graft i new) (kids e))).

(** [copy.deepcopy(e)]: the same tree under new identities, each moved up
    by [k]. *)
Fixpoint shift (k : nat) (e : elem) : elem :=
  Elem (k + nid e) (tag e) (text e) (map (shift k) (kids e)).

(** The tree without its identities. *)
Fixpoint shape (e : elem) : elem :=
  Elem 0 (tag e) (text e) (map shape (kids e)).

Definition has_tag (t : string) (e : elem) : bool := String.eqb (tag e) t.

Fixpoint last_ascii (s : string) : option ascii :=
  match s with
  | EmptyString => None
  | String a EmptyString => Some a
  | String _ s' => last_ascii s'
  end.

(** [child.tag.endswith('r')].  lxml spells a tag [{namespace}name]; that and
    [prefix:name] end with the same character. *)
Definition tag_endswith_r (e : elem) : bool :=
  match last_ascii (tag e) with
  | Some a => Ascii.eqb a "r"%char
  | None => false
  end.

End Xml.

Import Xml.

(** ** The document (python-docx) *)

(** What the script prints. *)
Inductive message : Type :=
| MergingSplitParagraphs
| ErrorRemovingParagraph
| Merged (merged_count : nat)
| ErrorTranslating (preview : Py.str)
| TranslatingBody
| TranslatingHeadersFooters
| TranslatingTables
| TranslatingTextBoxes
| ProcessedTextBoxes (count_txbx : nat).

Inductive event : Type :=
| Print (m : message)
| Translate (text : Py.str)
| Sleep.

(** The state of a run: the live trees (the document part, the header and
    footer parts) followed by the subtrees that were taken out of their parent
    and are still referenced; the next unused identity; the number of
    translator calls made; the events so far, oldest first. *)
Record state : Type :=
  State { trees : list elem; fresh : nat; calls : nat; out : list event }.

Definition set_trees (l : list elem) (st : state) : state :=
  State l (fresh st) (calls st) (out st).
Definition alloc (n : nat) (st : state) : state :=
  State (trees st) (n + fresh st) (calls st) (out st).
Definition emit (e : event) (st : state) : state :=
  State (trees st) (fresh st) (calls st) (out st ++ [e]).
Definition print (m : message) (st : state) : state := emit (Print m) st.
Definition sleep (st : state) : state := emit Sleep st.
Definition called (text : Py.str) (st : state) : state :=
  State (trees st) (fresh st) (S (calls st)) (out st ++ [Translate text]).

(** A loaded document: the identity of its [w:body] and, for each section,
    the identities of the header and footer roots it resolves to (a section
    linked to the previous one resolves to the same roots). *)
Record document : Type :=
  Document { body : nat; sections : list (nat * nat) }.

Module Docx.

(** The text of a run: its [w:t] children, a tab for [w:tab], a newline for
    [w:br] and [w:cr].  (From version 1.0 on python-docx reads a [w:br]
    that is a page or column break as nothing, [w:noBreakHyphen] as a hyphen
    and [w:ptab] as a tab; runs with these are outside the model.) *)
Definition piece (c : elem) : Py.str :=
  if has_tag "w:t" c then text c
  else if has_tag "w:tab" c then [9%N]
  else if has_tag "w:br" c || has_tag "w:cr" c then [10%N]
  else [].
Definition run_text (r : elem) : Py.str := flat_map piece (kids r).

(** [Paragraph.text]: the texts of the runs that are children of the
    paragraph (the text inside hyperlinks, which python-docx adds from
    version 1.0 on, is not part of it). *)
Definition Paragraph_text (p : elem) : Py.str :=
  flat_map run_text (filter (has_tag "w:r") (kids p)).

Definition text_of (p : nat) (st : state) : Py.str :=
  match find_in p (trees st) with
  | Some e => Paragraph_text e
  | None => []
  end.

Definition new_run (n : nat) (s : Py.str) : elem :=
  Elem n "w:r" [] [Elem (S n) "w:t" s []].

Definition with_kids (ks : list elem) (e : elem) : elem :=
  Elem (nid e) (tag e) (text e) ks.

Definition is_pPr (e : elem) : bool := has_tag "w:pPr" e.

(** [Paragraph.text = s]: every child but [w:pPr] is taken out, then one
    run holding [s] is added.  (python-docx stores a tab or a line break of
    [s] as an element of its own in that run; both read back as the same
    character, and the run is kept here as one [w:t].  A carriage return,
    which reads back as a newline, and text that XML cannot hold are outside
    the model.) *)
Definition rewritten (n : nat) (s : Py.str) (e : elem) : elem :=
  with_kids (filter is_pPr (kids e) ++ [new_run n s]) e.

Definition set_text (p : nat) (s : Py.str) (st : state) : state :=
  match find_in p (trees st) with
  | None => st
  | Some e =>
    alloc 2 (set_trees (map (update p (rewritten (fresh st) s)) (trees st)
                        ++ filter (fun k => negb (is_pPr k)) (kids e)) st)
  end.

(** The identities of the children with tag [t] of element [i]:
    [doc.paragraphs], [doc.tables], [table.rows], [row.cells],
    [cell.paragraphs], [header.paragraphs].  (For [row.cells] this is the
    table without merged cells: python-docx lists a cell that spans several
    grid columns once for each of them.) *)
Definition children (t : string) (i : nat) (st : state) : list nat :=
  match find_in i (trees st) with
  | Some e => map nid (filter (has_tag t) (kids e))
  | None => []
  end.

(** [e.getparent().remove(e)].  [None] is the exception raised when [e] has
    no parent. *)
Definition remove (i : nat) (st : state) : option state :=
  match parent_in i (trees st), find_in i (trees st) with
  | Some _, Some e => Some (set_trees (map (prune i) (trees st) ++ [e]) st)
  | _, _ => None
  end.

(** [parent = e.getparent(); parent.insert(parent.index(e) + 1, new)].
    [None] is the exception raised when [e] has no parent. *)
Definition insert_next (i : nat) (new : elem) (st : state) : option state :=
  match parent_in i (trees st) with
  | Some _ => Some (set_trees (map (graft i new) (trees st)) st)
  | None => None
  end.

End Docx.

(** ** The script *)

Definition for_each {A : Type} (l : list A) (body : A -> state -> state)
  (st : state) : state :=
  fold_left (fun s a => body a s) l st.

(** *** [merge_paragraphs] *)

Definition terminators : list Py.str :=
  [u"。"; u"？"; u"！"; u"："; u":"; u";"; u"；"; u")"; u"）"; u"”"; [34%N]].

(** The same set by code point: the ideographic full stop, the fullwidth
    question mark, exclamation mark and colon, the colon, the semicolon, the
    fullwidth semicolon, the right parenthesis, the fullwidth right
    parenthesis, the right double quotation mark and the quotation mark. *)
Definition terminator_chars : list Py.char :=
  [0x3002; 0xFF1F; 0xFF01; 0xFF1A; 0x3A; 0x3B; 0xFF1B; 0x29; 0xFF09; 0x201D; 0x22]%N.

Definition is_terminated (last_text : Py.str) : bool :=
  Py.endswith_any last_text terminators.

Definition starts_with_number (text : Py.str) : bool := Re.match_number text.

Definition last_is_header (last_text : Py.str) : bool :=
  Re.match_number last_text && (List.length last_text <? 40)%nat.

(** [last_text[-1].isascii() and text[0].isascii()] *)
Definition ascii_join (last_text text : Py.str) : bool :=
  match Py.last last_text, Py.first text with
  | Some a, Some b => Py.isascii a && Py.isascii b
  | _, _ => false
  end.

Definition separator (last_text text : Py.str) : Py.str :=
  if ascii_join last_text text then u" " else [].

(** The variables of the loop: [last_p], [merged_count] and the document. *)
Record merging : Type :=
  Merging { last_p : nat; merged_count : nat; doc : state }.

(** One turn of the loop, for [curr_p = paragraphs[i]]. *)
Definition merge_step (curr_p : nat) (m : merging) : merging :=
  let st := doc m in
  let text := Py.strip (Docx.text_of curr_p st) in
  let last_text := Py.strip (Docx.text_of (last_p m) st) in
  if Py.is_empty text then Merging curr_p (merged_count m) st
  else if Py.is_empty last_text then Merging curr_p (merged_count m) st
  else if negb (is_terminated last_text) && negb (starts_with_number text)
          && negb (last_is_header last_text)
  then
    let sep := separator last_text text in
    let st1 := Docx.set_text (last_p m)
                 (Py.rstrip (Docx.text_of (last_p m) st) ++ sep ++ Py.lstrip text) st in
    match Docx.remove curr_p st1 with
    | Some st2 => Merging (last_p m) (S (merged_count m)) st2
    | None => Merging (last_p m) (merged_count m) (print ErrorRemovingParagraph st1)
    end
  else Merging curr_p (merged_count m) st.

Definition merge_loop (paragraphs : list nat) (m : merging) : merging :=
  fold_left (fun m curr_p => merge_step curr_p m) paragraphs m.

Definition merge_paragraphs (d : document) (st : state) : state :=
  let st := print MergingSplitParagraphs st in
  match Docx.children "w:p" (body d) st with
  | [] => st
  | first :: rest =>
    let m := merge_loop rest (Merging first 0 st) in
    print (Merged (merged_count m)) (doc m)
  end.

(** [text.endswith('\uff1a') or text.endswith(':')] *)
Definition is_header_colon (text : Py.str) : bool :=
  Py.endswith text [0xFF1A%N] || Py.endswith text u":".

(** [text.rstrip('\uff1a:')] *)
Definition text_to_translate (text : Py.str) : Py.str :=
  Py.rstrip_chars (0xFF1A%N :: u":") text.

(** [new_p_elem]: the copy of the paragraph, the children whose tag ends in
    [r] taken out, and a run holding the translation added.  The
    identities of the copy start at [n]. *)
Definition translation_paragraph (n : nat) (p_elem : elem)
  (cleaned_translation : Py.str) : elem :=
  let new_p_elem := shift n p_elem in
  let new_p_elem :=
    Docx.with_kids (filter (fun child => negb (tag_endswith_r child)) (kids new_p_elem))
                   new_p_elem in
  let run := Elem (n + n) "w:r" [] [Elem (S (n + n)) "w:t" cleaned_translation []] in
  Docx.with_kids (kids new_p_elem ++ [run]) new_p_elem.

(** [body.iter(qn('w:txbxContent'))] walks the live tree: from [cur] it goes
    on to the elements that follow [cur] in document order, inside [body]
    (or, were [cur] no longer under [body], inside the tree [cur] is in). *)
Fixpoint after (cur : nat) (l : list elem) : list elem :=
  match l with
  | [] => []
  | e :: l' => if has_id cur e then l' else after cur l'
  end.

Definition holds (i : nat) (e : elem) : bool := existsb (Nat.eqb i) (ids e).

Definition walk (d : document) (cur : option nat) (st : state) : list elem :=
  match find_in (body d) (trees st) with
  | None => []
  | Some b =>
    match cur with
    | None => iter b
    | Some c =>
      if holds c b then after c (iter b)
      else match List.find (holds c) (trees st) with
           | Some t => after c (iter t)
           | None => []
           end
    end
  end.

Definition next_txbx (d : document) (cur : option nat) (st : state) : option nat :=
  option_map nid (List.find (has_tag "w:txbxContent") (walk d cur st)).

(** [list(txbx.iter(qn('w:p')))] *)
Definition txbx_paragraphs (txbx : nat) (st : state) : list nat :=
  match find_in txbx (trees st) with
  | Some e => map nid (filter (has_tag "w:p") (iter e))
  | None => []
  end.

Section Translation.

(** [translator.translate(text, src='zh-cn', dest='en').text], for the call
    number given; [None] when that raises. *)
Variable translator : nat -> Py.str -> option Py.str.

(** *** [translate_paragraph_element] *)

Definition translate_paragraph_element (p : nat) (st : state) : state :=
  match find_in p (trees st) with
  | None => st
  | Some p_elem =>
    let text := Py.strip (Docx.Paragraph_text p_elem) in
    if Py.is_empty text then st
    else
      match translator (calls st) (text_to_translate text) with
      | None =>
        print (ErrorTranslating (firstn 20 text)) (called (text_to_translate text) st)
      | Some result_text =>
        let st := called (text_to_translate text) st in
        let translated_text := Py.strip result_text in
        if is_header_colon text then
          Docx.set_text p (text_to_translate text ++ u"(" ++ translated_text ++ u"):") st
        else
          let cleaned_translation := Re.sub_numbering translated_text in
          let new_p_elem :=
            translation_paragraph (fresh st) p_elem cleaned_translation in
          match Docx.insert_next p new_p_elem st with
          | Some st' => alloc (2 + fresh st) st'
          | None => print (ErrorTranslating (firstn 20 text)) st
          end
      end
  end.

(** *** [translate_and_format], after the document is loaded and before it
    is saved *)

(** One turn of [process_paragraph_list], and of the loop over the
    paragraphs of a text box. *)
Definition process_paragraph (p : nat) (st : state) : state :=
  if Py.is_empty (Py.strip (Docx.text_of p st)) then st
  else sleep (translate_paragraph_element p st).

Definition process_paragraph_list (paragraph_list : list nat) (st : state) : state :=
  for_each paragraph_list process_paragraph st.

Definition translate_body (d : document) (st : state) : state :=
  process_paragraph_list (Docx.children "w:p" (body d) st) st.

(** [section.header.paragraphs], then [section.footer.paragraphs], for a
    section whose header and footer exist: reading them changes nothing.
    (For a document that has no header or no footer python-docx adds one
    when its paragraphs are asked for; that is outside the model.) *)
Definition translate_section (section : nat * nat) (st : state) : state :=
  let st := process_paragraph_list (Docx.children "w:p" (fst section) st) st in
  process_paragraph_list (Docx.children "w:p" (snd section) st) st.

Definition translate_headers_footers (d : document) (st : state) : state :=
  for_each (sections d) translate_section st.

Definition translate_cell (cell : nat) (st : state) : state :=
  process_paragraph_list (Docx.children "w:p" cell st) st.

(** [for cell in row.cells], for a row without merged cells: its cells are
    its [w:tc] children, each once.  (python-docx lists a cell that spans
    several grid columns once for each of them, and a vertically merged
    cell again in each row it spans; that is outside the model.) *)
Definition translate_row (row : nat) (st : state) : state :=
  for_each (Docx.children "w:tc" row st) translate_cell st.

Definition translate_table (table : nat) (st : state) : state :=
  for_each (Docx.children "w:tr" table st) translate_row st.

Definition translate_tables (d : document) (st : state) : state :=
  for_each (Docx.children "w:tbl" (body d) st) translate_table st.

(** [for txbx in body.iter(qn('w:txbxContent'))].  The iterator of lxml
    keeps the element it gives next: when it gives [txbx] it looks for the
    one after it, in the tree as it is then, before the body of the loop
    runs for [txbx].  [fuel] bounds the number of turns, and the boolean
    tells whether the iterator was exhausted. *)
Fixpoint text_box_loop (fuel : nat) (d : document) (next : option nat)
  (count_txbx : nat) (st : state) : state * nat * bool :=
  match fuel with
  | 0 => (st, count_txbx, false)
  | S fuel' =>
    match next with
    | None => (st, count_txbx, true)
    | Some txbx =>
      text_box_loop fuel' d (next_txbx d (Some txbx) st) (S count_txbx)
        (for_each (txbx_paragraphs txbx st) process_paragraph st)
    end
  end.

Definition translate_text_boxes (fuel : nat) (d : document) (st : state)
  : state * bool :=
  let '(st, count_txbx, finished) :=
    text_box_loop fuel d (next_txbx d None st) 0 st in
  (print (ProcessedTextBoxes count_txbx) st, finished).

Definition translate_and_format (fuel : nat) (d : document) (st : state)
  : state * bool :=
  let st := merge_paragraphs d st in
  let st := translate_body d (print TranslatingBody st) in
  let st := translate_headers_footers d (print TranslatingHeadersFooters st) in
  let st := translate_tables d (print TranslatingTables st) in
  translate_text_boxes fuel d (print TranslatingTextBoxes st).

End Translation.

(** ** States a loaded document can be in *)

Fixpoint distinct (l : list nat) : bool :=
  match l with
  | [] => true
  | a :: l' => negb (existsb (Nat.eqb a) l') && distinct l'
  end.

(** No identity is used twice, and every identity in use was handed out. *)
Definition well_formed (st : state) : bool :=
  distinct (ids_of (trees st))
  && forallb (fun i => Nat.ltb i (fresh st)) (ids_of (trees st)).

(** [p] is a [w:p] element of the state. *)
Definition is_paragraph (p : nat) (st : state) : bool :=
  match find_in p (trees st) with
  | Some e => has_tag "w:p" e
  | None => false
  end.

(** A text of forty or more characters, all of them decimal digits: it
    matches the numeric marker and is too long for a heading. *)
Definition long_number (text : Py.str) : bool :=
  forallb Py.isdecimal text && (40 <=? List.length text)%nat.

(** No paragraph of the body has such a trimmed text. *)
Definition no_long_number (d : document) (st : state) : bool :=
  forallb (fun p => negb (long_number (Py.strip (Docx.text_of p st))))
          (Docx.children "w:p" (body d) st).

(** ** The order of the units, in the words of the specification *)

(** The texts sent to the translator, taken from the events. *)
Definition calls_of (events : list event) : list Py.str :=
  flat_map (fun e => match e with Translate text => [text] | _ => [] end) events.

(** The units of a paragraph sequence: its paragraphs with non-empty
    trimmed text, in document order, each as the text that is sent for it. *)
Definition requests (paragraph_list : list nat) (st : state) : list Py.str :=
  map text_to_translate
      (filter (fun text => negb (Py.is_empty text))
              (map (fun p => Py.strip (Docx.text_of p st)) paragraph_list)).

(** For each section its header, then its footer. *)
Definition section_regions (d : document) : list nat :=
  flat_map (fun section => [fst section; snd section]) (sections d).

(** The cells of the tables of the body, row by row. *)
Definition cells_row_major (d : document) (st : state) : list nat :=
  flat_map (fun table =>
              flat_map (fun row => Docx.children "w:tc" row st)
                       (Docx.children "w:tr" table st))
           (Docx.children "w:tbl" (body d) st).

(** [body d] is the [w:body] element of the state. *)
Definition is_body (d : document) (st : state) : bool :=
  match find_in (body d) (trees st) with
  | Some e => has_tag "w:body" e
  | None => false
  end.

Section Order.

Variable translator : nat -> Py.str -> option Py.str.

(** The paragraphs of a container are listed when it is reached, and
    translated in that order. *)
Definition visit (container : nat) (st : state) : state :=
  process_paragraph_list translator (Docx.children "w:p" container st) st.

Definition visit_all (containers : list nat) (st : state) : state :=
  for_each containers visit st.

(** The texts sent while the containers are visited one after the other. *)
Fixpoint calls_over (containers : list nat) (st : state) : list Py.str :=
  match containers with
  | [] => []
  | c :: cs =>
    requests (Docx.children "w:p" c st) st ++ calls_over cs (visit c st)
  end.

End Order.

(** Every text-box content region found anywhere in the tree of the body,
    nested ones included, in document order. *)
Definition body_text_boxes (d : document) (st : state) : list nat :=
  match find_in (body d) (trees st) with
  | Some b => map nid (filter (has_tag "w:txbxContent") (iter b))
  | None => []
  end.

(** Every section has a header and a footer to read: the roots that
    [sections d] names are trees of the state.  (When a document has no
    header or no footer, python-docx adds an empty one to it, with a
    reference in the section properties of the body, as soon as the script
    asks for its paragraphs; such documents are outside the model.) *)
Definition has_headers_footers (d : document) (st : state) : bool :=
  forallb (fun section =>
             existsb (has_id (fst section)) (trees st)
             && existsb (has_id (snd section)) (trees st))
          (sections d).
(** ** The log of a run *)

(** The events [st'] has added to those of [st]. *)
Definition added (st st' : state) : list event :=
  skipn (List.length (out st)) (out st').

(** Calls and sleeps come in turn: a call is made only when every call
    before it has been followed by a sleep, and the script sleeps only after
    a call.  [pending] tells whether a call was made that no sleep has
    followed yet. *)
Fixpoint paced (pending : bool) (events : list event) : bool :=
  match events with
  | [] => negb pending
  | Translate _ :: events' => negb pending && paced true events'
  | Sleep :: events' => pending && paced false events'
  | Print _ :: events' => paced pending events'
  end.

(** ** What the merger looks at *)

(** The texts of the paragraphs of the body, in document order. *)
Definition paragraph_texts (d : document) (st : state) : list Py.str :=
  map (fun p => Docx.text_of p st) (Docx.children "w:p" (body d) st).

(** A trimmed text nothing is merged into: it is empty, it ends with a
    terminator, or it is a short numbered line. *)
Definition closed (text : Py.str) : bool :=
  Py.is_empty text || is_terminated text || last_is_header text.

(** A trimmed text that is not merged into the paragraph before it: it is
    empty or begins with a numeric marker. *)
Definition anchored (text : Py.str) : bool :=
  Py.is_empty text || starts_with_number text.

(** A text without its whitespace characters. *)
Definition squash (s : Py.str) : Py.str :=
  filter (fun c => negb (Py.isspace c)) s.

(** No paragraph of the body is element [q] or inside it. *)
Definition apart (d : document) (q : nat) (st : state) : bool :=
  match find_in q (trees st) with
  | Some y => forallb (fun p => negb (holds p y)) (Docx.children "w:p" (body d) st)
  | None => false
  end.

(** ** What translating makes of a paragraph *)

(** The texts found in the place of a paragraph with text [text] once it has
    been translated, when the translator answers [f] ([None] when it
    raises): the paragraph as it was if it has no text or the call failed;
    the gloss if it is header-style; the paragraph and its translation
    otherwise. *)
Definition rendered (f : Py.str -> option Py.str) (text : Py.str) : list Py.str :=
  let trimmed := Py.strip text in
  if Py.is_empty trimmed then [text]
  else
    match f (text_to_translate trimmed) with
    | None => [text]
    | Some result_text =>
      if is_header_colon trimmed
      then [text_to_translate trimmed ++ u"(" ++ Py.strip result_text ++ u"):"]
      else [text; Re.sub_numbering (Py.strip result_text)]
    end.

(** The texts of the paragraphs that are children of [container]. *)
Definition texts_in (container : nat) (st : state) : list Py.str :=
  map (fun p => Docx.text_of p st) (Docx.children "w:p" container st).

(** The paragraph has no hyperlink among its children.  (The text of such a
    paragraph is the text of its runs in every version of python-docx; from
    version 1.0 on the text inside a hyperlink is read as part of the text
    of the paragraph, and the copy that is made of a paragraph keeps its
    hyperlinks.) *)
Definition no_hyperlink (p : nat) (st : state) : bool :=
  match Docx.children "w:hyperlink" p st with
  | [] => true
  | _ :: _ => false
  end.

(** No paragraph that is a child of [container] has one. *)
Definition no_hyperlinks (container : nat) (st : state) : bool :=
  forallb (fun p => no_hyperlink p st) (Docx.children "w:p" container st).


(** ** Small documents used in examples *)

Module Sample.

(** A paragraph with formatting properties and one run. *)
Definition paragraph (i : nat) (s : Py.str) : elem :=
  Elem i "w:p" []
    [Elem (1 + i) "w:pPr" [] []; Elem (2 + i) "w:r" [] [Elem (3 + i) "w:t" s []]].

(** A loaded document whose body holds the given blocks. *)
Definition loaded (blocks : list elem) : state :=
  State [Elem 0 "w:body" [] blocks] 100 0 [].

Definition the_doc : document := Document 0 [].

Definition body_texts (st : state) : list Py.str :=
  map (fun p => Docx.text_of p st) (Docx.children "w:p" 0 st).

(** Two paragraphs that are merged, with spaces around their texts. *)
Definition hello_world : state :=
  loaded [paragraph 10 u" Hello "; paragraph 20 u" world "].

(** A sentence ending in an ASCII full stop, then another paragraph. *)
Definition full_stop : state :=
  loaded [paragraph 10 u"Hello."; paragraph 20 u"World"].

(** A sentence ending in an ideographic full stop, then another paragraph. *)
Definition cjk_full_stop : state :=
  loaded [paragraph 10 u"你好。"; paragraph 20 u"世界"].

(** Two sentences, each with its terminator. *)
Definition punctuated : state :=
  loaded [paragraph 10 u"你好。"; paragraph 20 u"世界！"].

(** A whitespace-only paragraph between two others. *)
Definition blank_between : state :=
  loaded [paragraph 10 u"a"; paragraph 20 u" "; paragraph 30 u"b"].

(** A paragraph of forty digits between two others. *)
Definition forty_digits : state :=
  loaded [paragraph 10 u"hello"; paragraph 20 (repeat 0x31%N 40); paragraph 30 u"abc"].



(** The scenario of the specification: a sentence split in two, then a
    numbered item. *)
Definition scenario : state :=
  loaded [paragraph 10 u"第一段没有标点"; paragraph 20 u"继续这段话。";
          paragraph 30 u"2. 第二项内容"].

(** One body paragraph. *)
Definition greeting : state := loaded [paragraph 10 u"你好"].
Definition conclusion : state := loaded [paragraph 10 u"结论："].

(** A document with two body paragraphs (the first with a text box anchored
    in its run, the second header-style), a table of two rows between them,
    and one section with a header and a footer. *)
Definition leaf (i : nat) (tag : string) (s : Py.str) : elem :=
  Elem i tag [] [Elem (1 + i) "w:r" [] [Elem (2 + i) "w:t" s []]].

Definition whole : state :=
  State
    [Elem 0 "w:body" []
       [Elem 10 "w:p" []
          [Elem 11 "w:pPr" [] [];
           Elem 12 "w:r" []
             [Elem 13 "w:t" u"正文。" [];
              Elem 14 "w:drawing" []
                [Elem 15 "w:txbxContent" [] [leaf 16 "w:p" u"框"]]]];
        Elem 30 "w:tbl" []
          [Elem 31 "w:tr" []
             [Elem 32 "w:tc" [] [leaf 33 "w:p" u"甲"];
              Elem 40 "w:tc" [] [leaf 41 "w:p" u"乙"]];
           Elem 50 "w:tr" [] [Elem 51 "w:tc" [] [leaf 52 "w:p" u"丙"]]];
        leaf 60 "w:p" u"结论："];
     Elem 70 "w:hdr" [] [leaf 71 "w:p" u"页眉"];
     Elem 80 "w:ftr" [] [leaf 81 "w:p" u"页脚"]]
    100 0 [].

Definition whole_doc : document := Document 0 [(70, 80)].

(** A text box inside a text box: the only paragraph of the body anchors a
    box whose paragraph has text and anchors a second box. *)
Definition nested : state :=
  State
    [Elem 0 "w:body" []
       [Elem 10 "w:p" []
          [Elem 11 "w:r" []
             [Elem 12 "w:drawing" []
                [Elem 13 "w:txbxContent" []
                   [Elem 14 "w:p" []
                      [Elem 15 "w:r" []
                         [Elem 16 "w:t" u"外" [];
                          Elem 17 "w:drawing" []
                            [Elem 18 "w:txbxContent" [] [leaf 19 "w:p" u"内"]]]]]]]]]]
    100 0 [].

(** Three text boxes.  The first is anchored in the first paragraph of the
    body; its paragraph is header-style and anchors the second one.  The
    third is anchored in the second paragraph of the body. *)
Definition three_boxes : state :=
  State
    [Elem 0 "w:body" []
       [Elem 10 "w:p" []
          [Elem 11 "w:r" []
             [Elem 12 "w:drawing" []
                [Elem 13 "w:txbxContent" []
                   [Elem 14 "w:p" []
                      [Elem 15 "w:r" []
                         [Elem 16 "w:t" u"外：" [];
                          Elem 17 "w:drawing" []
                            [Elem 18 "w:txbxContent" [] [leaf 19 "w:p" u"内"]]]]]]]];
        Elem 30 "w:p" []
          [Elem 31 "w:r" []
             [Elem 32 "w:drawing" []
                [Elem 33 "w:txbxContent" [] [leaf 34 "w:p" u"乙"]]]]]]
    100 0 [].

(** Translators: one that answers the same text to every call, one that
    always raises. *)
Definition answers (s : Py.str) : nat -> Py.str -> option Py.str :=
  fun _ _ => Some s.
Definition raises : nat -> Py.str -> option Py.str := fun _ _ => None.

End Sample.
(** * Notions used in the proofs

    Conditions on strings, trees and states in which the lemmas below are
    stated. *)

(** [s] does not begin with a character of class [f]. *)
Definition stops (f : Py.char -> bool) (s : Py.str) : Prop :=
  match s with
  | [] => True
  | c :: _ => f c = false
  end.

(** The elements of a forest, in document order. *)
Definition nodes (l : list elem) : list elem := flat_map iter l.

(** The children that stay when the element with identity [p] is taken out. *)
Definition keeps (p : nat) (k : elem) : bool := negb (has_id p k).

(** Every element of the subtree that has identity [p] is a paragraph. *)
Definition inert (p : nat) (y : elem) : Prop :=
  forall z, In z (iter y) -> nid z = p -> tag z = "w:p".

(** [well_formed] as a proposition: the identities of the state are distinct
    and below the next fresh one. *)
Definition Wf (st : state) : Prop :=
  NoDup (ids_of (trees st)) /\ Forall (fun i => i < fresh st) (ids_of (trees st)).

(** The outcomes of [translate_paragraph_element] on a paragraph with text. *)
Inductive outcome (translator : nat -> Py.str -> option Py.str)
  (p : nat) (st : state) (e : elem) : state -> Prop :=
| Failed :
    let text := Py.strip (Docx.Paragraph_text e) in
    translator (calls st) (text_to_translate text) = None ->
    outcome translator p st e
      (print (ErrorTranslating (firstn 20 text)) (called (text_to_translate text) st))
| Glossed (result_text : Py.str) :
    let text := Py.strip (Docx.Paragraph_text e) in
    translator (calls st) (text_to_translate text) = Some result_text ->
    is_header_colon text = true ->
    outcome translator p st e
      (Docx.set_text p
         (text_to_translate text ++ u"(" ++ Py.strip result_text ++ u"):")
         (called (text_to_translate text) st))
| Inserted (result_text : Py.str) (st' : state) :
    let text := Py.strip (Docx.Paragraph_text e) in
    translator (calls st) (text_to_translate text) = Some result_text ->
    is_header_colon text = false ->
    Docx.insert_next p
      (translation_paragraph (fresh st) e (Re.sub_numbering (Py.strip result_text)))
      (called (text_to_translate text) st) = Some st' ->
    outcome translator p st e (alloc (2 + fresh st) st')
| Orphan (result_text : Py.str) :
    let text := Py.strip (Docx.Paragraph_text e) in
    translator (calls st) (text_to_translate text) = Some result_text ->
    is_header_colon text = false ->
    Docx.insert_next p
      (translation_paragraph (fresh st) e (Re.sub_numbering (Py.strip result_text)))
      (called (text_to_translate text) st) = None ->
    outcome translator p st e
      (print (ErrorTranslating (firstn 20 text)) (called (text_to_translate text) st)).

(** Digits, then a dot. *)
Definition dotted (text : Py.str) : bool :=
  match text, Py.drop_while Py.isdecimal text with
  | c :: _, d :: _ => Py.isdecimal c && Re.is_dot d
  | _, _ => false
  end.

(** The trimmed text of a paragraph. *)
Definition trimmed (p : nat) (st : state) : Py.str := Py.strip (Docx.text_of p st).

(** The pair is left alone by the turn of the loop. *)
Definition quiet_texts (last_text text : Py.str) : bool :=
  Py.is_empty text || Py.is_empty last_text || is_terminated last_text
  || starts_with_number text || last_is_header last_text.

(** The pair is left alone, and will be whatever is merged into its second
    paragraph. *)
Definition stable_texts (last_text text : Py.str) : bool :=
  Py.is_empty text || Py.is_empty last_text || is_terminated last_text
  || last_is_header last_text || dotted text || last_is_header text.

(** The same two conditions on paragraphs of a state. *)
Definition quiet (st : state) (a b : nat) : Prop :=
  quiet_texts (trimmed a st) (trimmed b st) = true.

Definition stable (st : state) (a b : nat) : Prop :=
  stable_texts (trimmed a st) (trimmed b st) = true.

(** A property of every pair of neighbours of a list that runs backwards:
    [b :: a :: ...] stands for [... a b]. *)
Fixpoint chain (R : nat -> nat -> Prop) (r : list nat) : Prop :=
  match r with
  | [] => True
  | b :: r' => match r' with [] => True | a :: _ => R a b end /\ chain R r'
  end.

(** Every element of [st] is in [st'] with its tag; one that is no paragraph
    has kept its children that are no paragraphs. *)
Definition preserves (st st' : state) : Prop :=
  forall q y, find_in q (trees st) = Some y ->
    exists y', find_in q (trees st') = Some y' /\ tag y' = tag y
      /\ (tag y <> "w:p" -> forall t, t <> "w:p" ->
          map nid (filter (has_tag t) (kids y'))
          = map nid (filter (has_tag t) (kids y))).

(** Every element of [st] is in [st'] with its tag. *)
Definition persists (st st' : state) : Prop :=
  forall q y, find_in q (trees st) = Some y ->
    exists y', find_in q (trees st') = Some y' /\ tag y' = tag y.

(** What a run adds to the log: messages, and for each unit that is
    translated the call, the error message if the translation failed, and
    the sleep. *)
Inductive entries : list event -> Prop :=
| entries_nil : entries []
| entries_print (m : message) (l : list event) :
    entries l -> entries (Print m :: l)
| entries_unit (x : Py.str) (l : list event) :
    Py.strip x <> [] -> entries l ->
    entries (Translate (text_to_translate (Py.strip x)) :: Sleep :: l)
| entries_failed (x : Py.str) (l : list event) :
    Py.strip x <> [] -> entries l ->
    entries (Translate (text_to_translate (Py.strip x))
             :: Print (ErrorTranslating (firstn 20 (Py.strip x))) :: Sleep :: l).

(** A state that has added entries to the log of another. *)
Definition extends (st st' : state) : Prop :=
  exists evs, out st' = out st ++ evs /\ entries evs.

(** *** One pass of the merger *)

(** Before a turn of the loop: [r] lists backwards the paragraphs retained
    so far, [last_p] first, and [ps] the paragraphs still to come. *)
Record basic (d : document) (m : merging) (r ps : list nat) : Prop := Basic {
  basic_wf : Wf (doc m);
  basic_kids : Docx.children "w:p" (body d) (doc m) = rev r ++ ps;
  basic_last : hd_error r = Some (last_p m) }.

Definition joined_text (m : merging) (curr_p : nat) : Py.str :=
  Py.rstrip (Docx.text_of (last_p m) (doc m))
  ++ separator (trimmed (last_p m) (doc m)) (trimmed curr_p (doc m))
  ++ Py.lstrip (trimmed curr_p (doc m)).

(** What a turn that merges [curr_p] into [last_p] does. *)
Record effect (d : document) (m : merging) (curr_p : nat) (r ps : list nat) (st2 : state) : Prop :=
  Effect {
  eff_loud : quiet_texts (trimmed (last_p m) (doc m)) (trimmed curr_p (doc m)) = false;
  eff_wf : Wf st2;
  eff_kids : Docx.children "w:p" (body d) st2 = rev r ++ ps;
  eff_out : out st2 = out (doc m);
  eff_last : Docx.text_of (last_p m) st2 = joined_text m curr_p;
  eff_find : forall q y, find_in q (trees (doc m)) = Some y ->
      find_in q (trees st2)
      = Some (prune curr_p
                (update (last_p m)
                   (Docx.rewritten (fresh (doc m)) (joined_text m curr_p)) y));
  eff_text : forall q y, find_in q (trees (doc m)) = Some y -> q <> last_p m ->
      Docx.text_of q st2 = Docx.text_of q (doc m);
  eff_par : forall q, is_paragraph q (doc m) = true -> is_paragraph q st2 = true }.

(** *** The loop over the text boxes *)

(** How deep text boxes are nested in an element: one more than in its
    children when it is a [w:txbxContent] itself. *)
Fixpoint nesting (e : elem) : nat :=
  (if has_tag "w:txbxContent" e then 1 else 0) + list_max (map nesting (kids e)).

(** [a] is [b] with some of its members left out. *)
Inductive subseq {A : Type} : list A -> list A -> Prop :=
| subseq_nil : subseq [] []
| subseq_skip (x : A) (a b : list A) : subseq a b -> subseq a (x :: b)
| subseq_keep (x : A) (a b : list A) : subseq a b -> subseq (x :: a) (x :: b).

(** The members of a list that come after the first [a]. *)
Fixpoint after_id (a : nat) (l : list nat) : list nat :=
  match l with
  | [] => []
  | i :: l' => if Nat.eqb i a then l' else after_id a l'
  end.

(** The identities below [n]: those a state with [fresh = n] has. *)
Definition old (n i : nat) : bool := Nat.ltb i n.

(** What holds of a state [s] reached from [s0] while the paragraphs of a
    text box that is nested [H] deep are translated: the elements of [s0] are
    still there, nested no deeper than they were; what has been added is
    nested less than [H] deep; and the elements of [s0] are in the order they
    were in. *)
Record grown (s0 : state) (H : nat) (s : state) : Prop := Grown {
  grown_wf : Wf s;
  grown_fresh : fresh s0 <= fresh s;
  grown_old : forall q y, find_in q (trees s0) = Some y ->
      exists y', find_in q (trees s) = Some y' /\ tag y' = tag y
                 /\ nesting y' <= nesting y;
  grown_new : forall z, In z (nodes (trees s)) -> fresh s0 <= nid z -> nesting z < H;
  grown_order : forall t', In t' (trees s) ->
      exists t, In t (trees s0)
                /\ subseq (filter (old (fresh s0)) (ids t')) (ids t);
  grown_roots : forall i, existsb (has_id i) (trees s0) = true ->
      existsb (has_id i) (trees s) = true }.

(** The body is one of the trees of the state. *)
Definition rooted (d : document) (s : state) : bool :=
  existsb (has_id (body d)) (trees s).

(** The text boxes the walk has yet to come to once it is at [a]. *)
Definition boxes_later (d : document) (s : state) (a : nat) : list nat :=
  map nid (filter (has_tag "w:txbxContent") (walk d (Some a) s)).

(** How deep text boxes are nested in the element with identity [i]. *)
Definition height_of (s : state) (i : nat) : nat :=
  match find_in i (trees s) with
  | Some y => nesting y
  | None => 0
  end.

(** How many of the boxes in [l] are nested at least [j] deep. *)
Definition deep (s : state) (j : nat) (l : list nat) : nat :=
  List.length (filter (fun i => Nat.leb j (height_of s i)) l).

(** The same for the box the loop is at and those it has yet to come to. *)
Definition load (d : document) (s : state) (c : nat) (j : nat) : nat :=
  deep s j (c :: boxes_later d s c).

(** [f'] is less than [f] at some depth and no more than [f] at every
    greater depth. *)
Definition flt (f' f : nat -> nat) : Prop :=
  exists h, f' h < f h /\ forall j, h < j -> f' j <= f j.

(** The loop can run at box [c]: the state is well formed, the body is one
    of its trees, and [c] is a text box of the state. *)
Definition ready (d : document) (s : state) (c : nat) : Prop :=
  Wf s /\ rooted d s = true
  /\ exists y, find_in c (trees s) = Some y /\ tag y = "w:txbxContent".

(** Every root of [s] is a root of [s']. *)
Definition same_roots (s s' : state) : Prop :=
  forall i, existsb (has_id i) (trees s) = true -> existsb (has_id i) (trees s') = true.


(** * Properties *)

(** ** Strings *)

Example ex_utf8 : u"结论：a" = [0x7ED3; 0x8BBA; 0xFF1A; 0x61]%N.
Proof. reflexivity. Qed.

Lemma startswith_iff (s p : Py.str) :
  Py.startswith s p = true <-> exists r, s = p ++ r.
Proof.
  revert s; induction p as [|c p IH]; intros s; simpl.
  - split; [intros _; now exists s | now destruct s].
  - destruct s as [|d s]; simpl.
    + split; [discriminate | intros [r Hr]; discriminate].
    + rewrite andb_true_iff, N.eqb_eq, IH. split.
      * intros [-> [r ->]]. now exists r.
      * intros [r Hr]. injection Hr as -> ->. split; [reflexivity | now exists r].
Qed.

Lemma endswith_iff (s suffix : Py.str) :
  Py.endswith s suffix = true <-> exists pre, s = pre ++ suffix.
Proof.
  unfold Py.endswith. rewrite startswith_iff. split.
  - intros [r Hr]. exists (rev r).
    rewrite <- (rev_involutive s), Hr, rev_app_distr, rev_involutive. reflexivity.
  - intros [pre ->]. exists (rev pre). apply rev_app_distr.
Qed.

Lemma drop_while_all (f : Py.char -> bool) (a b : Py.str) :
  forallb f a = true -> Py.drop_while f (a ++ b) = Py.drop_while f b.
Proof.
  induction a as [|c a IH]; simpl; [reflexivity|].
  intros H. apply andb_true_iff in H as [-> H]. now apply IH.
Qed.

Lemma drop_while_stops (f : Py.char -> bool) (s : Py.str) :
  stops f s -> Py.drop_while f s = s.
Proof. destruct s as [|c s]; simpl; [reflexivity | now intros ->]. Qed.

Lemma drop_while_is_stopped (f : Py.char -> bool) (s : Py.str) :
  stops f (Py.drop_while f s).
Proof.
  induction s as [|c s IH]; simpl; [exact I|].
  destruct (f c) eqn:E; [exact IH | exact E].
Qed.

Lemma terminators_chars : terminators = map (fun c => [c]) terminator_chars.
Proof. reflexivity. Qed.

Lemma is_terminated_iff (s : Py.str) :
  is_terminated s = true <->
  exists pre c, s = pre ++ [c] /\ In c terminator_chars.
Proof.
  unfold is_terminated, Py.endswith_any. rewrite existsb_exists. split.
  - intros [t [Ht E]]. apply endswith_iff in E as [pre ->].
    rewrite terminators_chars in Ht. apply in_map_iff in Ht as [c [<- Hc]].
    now exists pre, c.
  - intros [pre [c [-> Hc]]]. exists [c]. split.
    + rewrite terminators_chars. apply in_map_iff. now exists c.
    + apply endswith_iff. now exists pre.
Qed.

(** *** The numeric marker *)

Lemma drop_while_split (f : Py.char -> bool) (s : Py.str) :
  exists pre, s = pre ++ Py.drop_while f s /\ forallb f pre = true.
Proof.
  induction s as [|c s [pre [E F]]]; simpl.
  - exists []. now split.
  - destruct (f c) eqn:Fc; [|exists []; now split].
    exists (c :: pre). simpl. rewrite Fc, F. split; [now f_equal | reflexivity].
Qed.

(** No whitespace character is a decimal digit. *)
Lemma isspace_not_decimal (c : Py.char) :
  Py.isspace c = true -> Py.isdecimal c = false.
Proof.
  intros H.
  assert (E : In c [0x09; 0x0A; 0x0B; 0x0C; 0x0D; 0x1C; 0x1D; 0x1E; 0x1F; 0x20;
                    0x85; 0xA0; 0x1680; 0x2000; 0x2001; 0x2002; 0x2003; 0x2004;
                    0x2005; 0x2006; 0x2007; 0x2008; 0x2009; 0x200A; 0x2028;
                    0x2029; 0x202F; 0x205F; 0x3000]%N).
  { unfold Py.isspace, Py.in_range in H.
    rewrite !orb_true_iff, !andb_true_iff, !N.leb_le, !N.eqb_eq in H.
    simpl. lia. }
  clear H. simpl in E.
  repeat (destruct E as [<-|E]; [reflexivity|]). destruct E.
Qed.

(** [match_number] holds of the strings the pattern [^\s*\d+(\.|$)] matches:
    whitespace, then at least one decimal digit, then a dot, or the end of
    the string, or a newline that ends the string. *)
Lemma match_number_iff (s : Py.str) :
  Re.match_number s = true <->
  exists ws ds rest,
    s = ws ++ ds ++ rest
    /\ forallb Py.isspace ws = true
    /\ ds <> [] /\ forallb Py.isdecimal ds = true
    /\ ((exists r, rest = 46%N :: r) \/ rest = [] \/ rest = [10%N]).
Proof.
  unfold Re.match_number. split.
  - destruct (drop_while_split Py.isspace s) as [ws [E F]].
    destruct (Py.drop_while Py.isspace s) as [|c t] eqn:S1; [discriminate|].
    intros H. apply andb_true_iff in H as [Hc H].
    cbn [Py.drop_while] in H. rewrite Hc in H.
    destruct (drop_while_split Py.isdecimal t) as [ds [E' F']].
    exists ws, (c :: ds), (Py.drop_while Py.isdecimal t).
    split; [rewrite E at 1; cbn [app]; now rewrite <- E'|].
    split; [exact F|]. split; [discriminate|].
    split; [cbn [forallb]; now rewrite Hc, F'|].
    destruct (Py.drop_while Py.isdecimal t) as [|d v]; [right; now left|].
    apply orb_true_iff in H as [H|H].
    + left. exists v. apply N.eqb_eq in H. now subst d.
    + right. right. destruct v as [|? ?]; [|discriminate].
      simpl in H. apply N.eqb_eq in H. now subst d.
  - intros [ws [ds [rest [E [Fw [Hne [Fd Hr]]]]]]]. subst s.
    destruct ds as [|c ds]; [contradiction|].
    cbn [forallb] in Fd. apply andb_true_iff in Fd as [Hc Fd].
    rewrite (drop_while_all _ _ _ Fw). cbn [app Py.drop_while].
    destruct (Py.isspace c) eqn:Sc.
    { apply isspace_not_decimal in Sc. congruence. }
    rewrite Hc. cbn [andb].
    change (c :: ds ++ rest) with ((c :: ds) ++ rest).
    assert (Fc : forallb Py.isdecimal (c :: ds) = true)
      by (cbn [forallb]; now rewrite Hc, Fd).
    rewrite (drop_while_all _ _ _ Fc).
    destruct Hr as [[r ->]|[->| ->]]; reflexivity.
Qed.

(** ** Trees *)

Lemma flat_map_ext_in {A B : Type} (f g : A -> list B) (l : list A) :
  (forall a, In a l -> f a = g a) -> flat_map f l = flat_map g l.
Proof.
  induction l as [|a l IH]; intros H; simpl; [reflexivity|].
  rewrite (H a (or_introl eq_refl)), IH; [reflexivity|].
  intros b Hb. apply H. now right.
Qed.

Lemma map_flat_map {A B C : Type} (f : B -> C) (g : A -> list B) (l : list A) :
  map f (flat_map g l) = flat_map (fun a => map f (g a)) l.
Proof.
  induction l as [|a l IH]; simpl; [reflexivity|].
  now rewrite map_app, IH.
Qed.

Lemma ids_iter (e : elem) : ids e = map nid (iter e).
Proof.
  induction e as [i t x ks IH] using elem_ind. simpl. f_equal.
  rewrite map_flat_map. apply flat_map_ext_in.
  intros k Hk. rewrite Forall_forall in IH. now apply IH.
Qed.

Lemma ids_of_nodes (l : list elem) : ids_of l = map nid (nodes l).
Proof.
  unfold ids_of, nodes. rewrite map_flat_map. apply flat_map_ext.
  intros e. apply ids_iter.
Qed.

Lemma iter_self (e : elem) : In e (iter e).
Proof. destruct e; simpl; now left. Qed.

Lemma iter_kid (e k x : elem) : In k (kids e) -> In x (iter k) -> In x (iter e).
Proof.
  intros Hk Hx. destruct e as [i t y ks]; simpl in *. right.
  apply in_flat_map. now exists k.
Qed.

Lemma nodes_root (l : list elem) (e : elem) : In e l -> In e (nodes l).
Proof. intros H. apply in_flat_map. exists e. split; [exact H | apply iter_self]. Qed.

Lemma first_some_Some {A B : Type} (f : A -> option B) (l : list A) (b : B) :
  first_some f l = Some b -> exists a, In a l /\ f a = Some b.
Proof.
  induction l as [|a l IH]; simpl; [discriminate|].
  destruct (f a) eqn:E.
  - intros H. injection H as <-. exists a. now split; [left|].
  - intros H. destruct (IH H) as [a' [Ha' E']]. exists a'. now split; [right|].
Qed.

Lemma first_some_None {A B : Type} (f : A -> option B) (l : list A) :
  first_some f l = None <-> forall a, In a l -> f a = None.
Proof.
  induction l as [|a l IH]; simpl.
  - split; [intros _ a [] | reflexivity].
  - destruct (f a) eqn:E.
    + split; [discriminate|]. intros H. rewrite <- E. apply H. now left.
    + rewrite IH. split.
      * intros H a' [<-|Ha']; [exact E | now apply H].
      * intros H a' Ha'. apply H. now right.
Qed.

Lemma has_id_true (i : nat) (e : elem) : has_id i e = true <-> nid e = i.
Proof. unfold has_id. apply Nat.eqb_eq. Qed.

Lemma has_id_false (i : nat) (e : elem) : has_id i e = false <-> nid e <> i.
Proof. unfold has_id. apply Nat.eqb_neq. Qed.

Lemma find_Some (i : nat) (e x : elem) :
  find i e = Some x -> In x (iter e) /\ nid x = i.
Proof.
  induction e as [j t y ks IH] using elem_ind. simpl.
  destruct (has_id i (Elem j t y ks)) eqn:E.
  - intros H. injection H as <-. split; [now left | now apply has_id_true].
  - intros H. apply first_some_Some in H as [k [Hk Hf]].
    rewrite Forall_forall in IH. destruct (IH k Hk Hf) as [Hx Hn].
    split; [|exact Hn]. right. apply in_flat_map. now exists k.
Qed.

Lemma find_None (i : nat) (e : elem) : find i e = None <-> ~ In i (ids e).
Proof.
  induction e as [j t y ks IH] using elem_ind. simpl.
  destruct (has_id i (Elem j t y ks)) eqn:E.
  - apply has_id_true in E. simpl in E. split; [discriminate|].
    intros H. exfalso. apply H. now left.
  - apply has_id_false in E. simpl in E. rewrite first_some_None.
    rewrite Forall_forall in IH. split.
    + intros H [Hj|Hin]; [contradiction|].
      apply in_flat_map in Hin as [k [Hk Hi]].
      apply (IH k Hk); [now apply H | exact Hi].
    + intros H k Hk. apply IH; [exact Hk|]. intros Hi. apply H. right.
      apply in_flat_map. now exists k.
Qed.

Lemma find_in_Some (i : nat) (l : list elem) (x : elem) :
  find_in i l = Some x -> In x (nodes l) /\ nid x = i.
Proof.
  intros H. apply first_some_Some in H as [e [He Hf]].
  apply find_Some in Hf as [Hx Hn]. split; [|exact Hn].
  apply in_flat_map. now exists e.
Qed.

Lemma find_in_None (i : nat) (l : list elem) :
  find_in i l = None <-> ~ In i (ids_of l).
Proof.
  unfold find_in. rewrite first_some_None. split.
  - intros H Hin. apply in_flat_map in Hin as [e [He Hi]].
    apply (proj1 (find_None i e)); [now apply H | exact Hi].
  - intros H e He. apply find_None. intros Hi. apply H.
    apply in_flat_map. now exists e.
Qed.

Lemma NoDup_map_eq {A B : Type} (f : A -> B) (l : list A) (a b : A) :
  NoDup (map f l) -> In a l -> In b l -> f a = f b -> a = b.
Proof.
  induction l as [|c l IH]; simpl; [intros _ []|].
  intros Hnd Ha Hb E. apply NoDup_cons_iff in Hnd as [Hc Hnd].
  destruct Ha as [<-|Ha], Hb as [<-|Hb].
  - reflexivity.
  - exfalso. apply Hc. rewrite E. now apply in_map.
  - exfalso. apply Hc. rewrite <- E. now apply in_map.
  - now apply IH.
Qed.

(** Under distinct identities an element is found by its identity. *)
Lemma find_in_unique (l : list elem) (x : elem) :
  NoDup (ids_of l) -> In x (nodes l) -> find_in (nid x) l = Some x.
Proof.
  intros Hnd Hx. destruct (find_in (nid x) l) as [y|] eqn:E.
  - apply find_in_Some in E as [Hy Hn]. f_equal.
    rewrite ids_of_nodes in Hnd. now apply (NoDup_map_eq nid (nodes l)).
  - exfalso. apply (proj1 (find_in_None _ _) E).
    rewrite ids_of_nodes. now apply in_map.
Qed.

Lemma ids_sub (e y : elem) : In y (iter e) -> incl (ids y) (ids e).
Proof.
  induction e as [i t x ks IH] using elem_ind. simpl.
  intros [<-|H]; [apply incl_refl|].
  apply in_flat_map in H as [k [Hk Hy]].
  rewrite Forall_forall in IH. intros j Hj. simpl. right.
  apply in_flat_map. exists k. split; [exact Hk | now apply (IH k Hk Hy)].
Qed.

Lemma nodes_ids_sub (l : list elem) (y : elem) :
  In y (nodes l) -> incl (ids y) (ids_of l).
Proof.
  intros H. apply in_flat_map in H as [e [He Hy]].
  intros j Hj. apply in_flat_map. exists e. split; [exact He|].
  now apply (ids_sub e y).
Qed.

Lemma map_id_in {A : Type} (f : A -> A) (l : list A) :
  (forall a, In a l -> f a = a) -> map f l = l.
Proof.
  intros H. rewrite <- (map_id l) at 2. apply map_ext_in. exact H.
Qed.

Lemma ids_of_cons (k : elem) (l : list elem) : ids_of (k :: l) = ids k ++ ids_of l.
Proof. reflexivity. Qed.

Lemma nodes_cons (k : elem) (l : list elem) : nodes (k :: l) = iter k ++ nodes l.
Proof. reflexivity. Qed.

Lemma nodes_app (l1 l2 : list elem) : nodes (l1 ++ l2) = nodes l1 ++ nodes l2.
Proof. apply flat_map_app. Qed.

Lemma ids_of_app (l1 l2 : list elem) : ids_of (l1 ++ l2) = ids_of l1 ++ ids_of l2.
Proof. apply flat_map_app. Qed.

Lemma NoDup_app_disjoint {A : Type} (l1 l2 : list A) (a : A) :
  NoDup (l1 ++ l2) -> In a l1 -> ~ In a l2.
Proof.
  induction l1 as [|b l1 IH]; simpl; [intros _ []|].
  intros H Ha Hin. apply NoDup_cons_iff in H as [Hb H].
  destruct Ha as [<-|Ha].
  - apply Hb. apply in_or_app. now right.
  - now apply (IH H Ha).
Qed.

Lemma ids_root (e : elem) : In (nid e) (ids e).
Proof. destruct e; simpl; now left. Qed.

Lemma ids_unfold (e : elem) : ids e = nid e :: ids_of (kids e).
Proof. destruct e; reflexivity. Qed.

Lemma iter_unfold (e : elem) : iter e = e :: nodes (kids e).
Proof. destruct e; reflexivity. Qed.

(** *** [update] *)

Section Update.
Variable p : nat.
Variable g : elem -> elem.
Hypothesis g_nid : forall x, nid (g x) = nid x.

Lemma update_notin (e : elem) : ~ In p (ids e) -> update p g e = e.
Proof.
  induction e as [i t x ks IH] using elem_ind. simpl. intros H.
  destruct (has_id p (Elem i t x ks)) eqn:E.
  - apply has_id_true in E. simpl in E. exfalso. apply H. now left.
  - f_equal. apply map_id_in. intros k Hk.
    rewrite Forall_forall in IH. apply (IH k Hk).
    intros Hin. apply H. right. apply in_flat_map. now exists k.
Qed.

Lemma update_list_notin (l : list elem) :
  ~ In p (ids_of l) -> map (update p g) l = l.
Proof.
  intros H. apply map_id_in. intros e He. apply update_notin.
  intros Hin. apply H. apply in_flat_map. now exists e.
Qed.

Lemma update_nodes_notin (l : list elem) :
  ~ In p (ids_of l) -> map (update p g) (nodes l) = nodes l.
Proof.
  intros H. apply map_id_in. intros y Hy. apply update_notin.
  intros Hin. apply H. now apply (nodes_ids_sub l y).
Qed.

Lemma nid_update (e : elem) : nid (update p g e) = nid e.
Proof.
  destruct e as [i t x ks]. simpl.
  destruct (has_id p (Elem i t x ks)); [apply g_nid | reflexivity].
Qed.

Lemma update_at (e : elem) : nid e = p -> update p g e = g e.
Proof.
  intros H. destruct e as [i t x ks]. simpl.
  now rewrite (proj2 (has_id_true p (Elem i t x ks)) H).
Qed.

Lemma update_off (e : elem) :
  nid e <> p ->
  update p g e = Elem (nid e) (tag e) (text e) (map (update p g) (kids e)).
Proof.
  intros H. destruct e as [i t x ks]. simpl.
  now rewrite (proj2 (has_id_false p (Elem i t x ks)) H).
Qed.

(** What an update takes out of the element it rewrites ([lost]) and what
    it brings ([won]), as lists of subtrees. *)
Variable h lost : list elem -> list elem.
Variable won : list elem.
Hypothesis g_kids : forall x, g x = Elem (nid x) (tag x) (text x) (h (kids x)).
Hypothesis h_perm : forall ks, Permutation (h ks ++ lost ks) (ks ++ won).

Definition lost_in (l : list elem) : list elem :=
  match find_in p l with Some x => lost (kids x) | None => [] end.
Definition won_in (l : list elem) : list elem :=
  match find_in p l with Some _ => won | None => [] end.

Definition update_law (e : elem) : Prop :=
  NoDup (ids e) ->
  Permutation (iter (update p g e) ++ nodes (lost_in [e]))
              (map (update p g) (iter e) ++ nodes (won_in [e])).

Lemma find_in_cons (k : elem) (l : list elem) :
  find_in p (k :: l) =
  match find p k with Some x => Some x | None => find_in p l end.
Proof. reflexivity. Qed.

Lemma update_law_list (l : list elem) :
  Forall update_law l -> NoDup (ids_of l) ->
  Permutation (nodes (map (update p g) l) ++ nodes (lost_in l))
              (map (update p g) (nodes l) ++ nodes (won_in l)).
Proof.
  induction l as [|k l IH]; intros HF Hnd.
  - reflexivity.
  - apply Forall_cons_iff in HF as [Hk HF].
    rewrite ids_of_cons in Hnd.
    assert (Hndk := NoDup_app_remove_r _ _ Hnd).
    assert (Hndl := NoDup_app_remove_l _ _ Hnd).
    simpl map. rewrite !nodes_cons, map_app.
    unfold lost_in, won_in. rewrite find_in_cons.
    destruct (find p k) as [x|] eqn:E.
    + assert (Hp : ~ In p (ids_of l)).
      { apply (NoDup_app_disjoint _ _ _ Hnd).
        apply find_Some in E as [Hx <-].
        apply (ids_sub k x Hx), ids_root. }
      rewrite (update_list_notin _ Hp), (update_nodes_notin _ Hp).
      specialize (Hk Hndk). unfold lost_in, won_in in Hk.
      rewrite find_in_cons, E in Hk. simpl in Hk.
      rewrite <- !app_assoc.
      rewrite (Permutation_app_comm (nodes l) (nodes (lost (kids x)))).
      rewrite (Permutation_app_comm (nodes l) (nodes won)).
      rewrite !app_assoc. apply Permutation_app_tail. exact Hk.
    + assert (Hp : ~ In p (ids k)) by now apply find_None.
      rewrite (update_notin _ Hp).
      rewrite (map_id_in (update p g) (iter k)).
      * rewrite <- !app_assoc. apply Permutation_app_head.
        apply (IH HF Hndl).
      * intros y Hy. apply update_notin. intros Hin. apply Hp.
        now apply (ids_sub k y).
Qed.

Lemma update_law_all (e : elem) : update_law e.
Proof.
  induction e as [i t x ks IH] using elem_ind. intros Hnd.
  rewrite ids_unfold in Hnd. apply NoDup_cons_iff in Hnd as [Hi Hks].
  simpl nid in Hi. simpl kids in Hi, Hks.
  unfold lost_in, won_in. rewrite find_in_cons.
  rewrite (iter_unfold (Elem i t x ks)). simpl kids. cbn [map].
  destruct (Nat.eq_dec i p) as [->|Hne].
  - assert (E : find p (Elem p t x ks) = Some (Elem p t x ks)).
    { simpl. unfold has_id. simpl. now rewrite Nat.eqb_refl. }
    rewrite E. rewrite (update_at (Elem p t x ks) eq_refl), g_kids.
    rewrite (update_nodes_notin _ Hi).
    rewrite iter_unfold. simpl kids. simpl.
    apply perm_skip. rewrite <- !nodes_app.
    apply Permutation_flat_map. apply h_perm.
  - assert (E : find p (Elem i t x ks) = find_in p ks).
    { simpl. unfold has_id. simpl.
      now rewrite (proj2 (Nat.eqb_neq i p) Hne). }
    rewrite E. rewrite (update_off (Elem i t x ks) Hne).
    rewrite iter_unfold. simpl kids. simpl.
    apply perm_skip.
    assert (L := update_law_list ks IH Hks). unfold lost_in, won_in in L.
    destruct (find_in p ks); exact L.
Qed.

(** The elements of the forest after an update, the lost subtrees kept
    as trees of their own. *)
Lemma nodes_update (l : list elem) :
  NoDup (ids_of l) ->
  Permutation (nodes (map (update p g) l ++ lost_in l))
              (map (update p g) (nodes l) ++ nodes (won_in l)).
Proof.
  intros Hnd. rewrite nodes_app. apply update_law_list; [|exact Hnd].
  apply Forall_forall. intros e _. apply update_law_all.
Qed.

Lemma ids_update (l : list elem) :
  NoDup (ids_of l) ->
  Permutation (ids_of (map (update p g) l ++ lost_in l))
              (ids_of l ++ ids_of (won_in l)).
Proof.
  intros Hnd. rewrite !ids_of_nodes.
  rewrite (Permutation_map nid (nodes_update l Hnd)).
  rewrite map_app, map_map.
  rewrite (map_ext _ nid nid_update). reflexivity.
Qed.

Lemma find_in_update (l : list elem) (q : nat) (y : elem) :
  NoDup (ids_of l) -> NoDup (ids_of l ++ ids_of (won_in l)) ->
  find_in q l = Some y ->
  find_in q (map (update p g) l ++ lost_in l) = Some (update p g y).
Proof.
  intros Hnd Hnd' E. apply find_in_Some in E as [Hy <-].
  rewrite <- (nid_update y). apply find_in_unique.
  - apply (Permutation_NoDup (Permutation_sym (ids_update l Hnd)) Hnd').
  - apply (Permutation_in _ (Permutation_sym (nodes_update l Hnd))).
    apply in_or_app. left. now apply in_map.
Qed.

End Update.

(** *** [prune] *)

Lemma NoDup_flat_map_elem {A B : Type} (f : A -> list B) (l : list A) (a : A) :
  NoDup (flat_map f l) -> In a l -> NoDup (f a).
Proof.
  induction l as [|b l IH]; simpl; [intros _ []|].
  intros H [<-|Ha].
  - now apply NoDup_app_remove_r in H.
  - apply IH; [now apply NoDup_app_remove_l in H | exact Ha].
Qed.

Lemma filter_id_in {A : Type} (f : A -> bool) (l : list A) :
  (forall a, In a l -> f a = true) -> filter f l = l.
Proof.
  induction l as [|a l IH]; intros H; simpl; [reflexivity|].
  rewrite (H a (or_introl eq_refl)). f_equal. apply IH.
  intros b Hb. apply H. now right.
Qed.

Lemma keeps_all (p : nat) (l : list elem) :
  ~ In p (ids_of l) -> filter (keeps p) l = l.
Proof.
  intros H. apply filter_id_in. intros k Hk. unfold keeps.
  apply negb_true_iff, has_id_false. intros E. apply H.
  apply in_flat_map. exists k. split; [exact Hk|]. rewrite <- E. apply ids_root.
Qed.

Section Prune.
Variable p : nat.

Lemma prune_unfold (e : elem) :
  prune p e =
  Elem (nid e) (tag e) (text e) (filter (keeps p) (map (prune p) (kids e))).
Proof. destruct e; reflexivity. Qed.

Lemma nid_prune (e : elem) : nid (prune p e) = nid e.
Proof. destruct e; reflexivity. Qed.

Lemma tag_prune (e : elem) : tag (prune p e) = tag e.
Proof. destruct e; reflexivity. Qed.

Lemma text_prune (e : elem) : text (prune p e) = text e.
Proof. destruct e; reflexivity. Qed.

Lemma prune_root (e : elem) : ~ In p (ids_of (kids e)) -> prune p e = e.
Proof.
  induction e as [i t x ks IH] using elem_ind. simpl kids. intros H.
  rewrite prune_unfold. simpl. f_equal.
  rewrite Forall_forall in IH.
  rewrite (map_id_in (prune p) ks).
  - now apply keeps_all.
  - intros k Hk. apply (IH k Hk). intros Hin. apply H.
    apply in_flat_map. exists k. split; [exact Hk|].
    rewrite ids_unfold. now right.
Qed.

Lemma prune_notin (e : elem) : ~ In p (ids e) -> prune p e = e.
Proof.
  intros H. apply prune_root. intros Hin. apply H.
  rewrite ids_unfold. now right.
Qed.

Lemma prune_list_notin (l : list elem) :
  ~ In p (ids_of l) -> map (prune p) l = l.
Proof.
  intros H. apply map_id_in. intros e He. apply prune_notin.
  intros Hin. apply H. apply in_flat_map. now exists e.
Qed.

Lemma prune_nodes_notin (l : list elem) :
  ~ In p (ids_of l) -> map (prune p) (nodes l) = nodes l.
Proof.
  intros H. apply map_id_in. intros y Hy. apply prune_notin.
  intros Hin. apply H. now apply (nodes_ids_sub l y).
Qed.

Definition found_in (l : list elem) : list elem :=
  match find_in p l with Some x => [x] | None => [] end.

Definition prune_law (e : elem) : Prop :=
  NoDup (ids e) -> nid e <> p ->
  Permutation (iter (prune p e) ++ nodes (found_in [e]))
              (map (prune p) (iter e)).

Lemma find_in_cons' (q : nat) (k : elem) (l : list elem) :
  find_in q (k :: l) =
  match find q k with Some x => Some x | None => find_in q l end.
Proof. reflexivity. Qed.

Lemma find_root (e : elem) : nid e = p -> find p e = Some e.
Proof.
  intros H. destruct e as [i t x ks]. simpl.
  now rewrite (proj2 (has_id_true p (Elem i t x ks)) H).
Qed.

Lemma find_below (e : elem) : nid e <> p -> find p e = find_in p (kids e).
Proof.
  intros H. destruct e as [i t x ks]. simpl.
  now rewrite (proj2 (has_id_false p (Elem i t x ks)) H).
Qed.

Lemma prune_law_list (l : list elem) :
  Forall prune_law l -> NoDup (ids_of l) ->
  Permutation (nodes (filter (keeps p) (map (prune p) l)) ++ nodes (found_in l))
              (map (prune p) (nodes l)).
Proof.
  induction l as [|k l IH]; intros HF Hnd.
  - reflexivity.
  - apply Forall_cons_iff in HF as [Hk HF].
    rewrite ids_of_cons in Hnd.
    assert (Hndk := NoDup_app_remove_r _ _ Hnd).
    assert (Hndl := NoDup_app_remove_l _ _ Hnd).
    cbn [map filter]. unfold keeps at 1. unfold has_id. rewrite nid_prune.
    rewrite nodes_cons, map_app. unfold found_in. rewrite find_in_cons'.
    destruct (Nat.eq_dec (nid k) p) as [Ek|Ek].
    + rewrite (proj2 (Nat.eqb_eq _ _) Ek). cbn [negb].
      rewrite (find_root k Ek).
      assert (Hp : ~ In p (ids_of l)).
      { apply (NoDup_app_disjoint _ _ _ Hnd). rewrite <- Ek. apply ids_root. }
      rewrite (prune_list_notin _ Hp), (keeps_all _ _ Hp), (prune_nodes_notin _ Hp).
      rewrite (map_id_in (prune p) (iter k)).
      * cbn [nodes flat_map]. rewrite app_nil_r. apply Permutation_app_comm.
      * rewrite ids_unfold in Hndk. apply NoDup_cons_iff in Hndk as [Hr _].
        rewrite Ek in Hr. rewrite iter_unfold. intros y [<-|Hy].
        -- now apply prune_root.
        -- apply prune_notin. intros Hin. apply Hr.
           now apply (nodes_ids_sub (kids k) y).
    + rewrite (proj2 (Nat.eqb_neq _ _) Ek). cbn [negb]. rewrite nodes_cons.
      destruct (find p k) as [x|] eqn:E.
      * assert (Hp : ~ In p (ids_of l)).
        { apply (NoDup_app_disjoint _ _ _ Hnd).
          apply find_Some in E as [Hx <-].
          apply (ids_sub k x Hx), ids_root. }
        rewrite (prune_list_notin _ Hp), (keeps_all _ _ Hp), (prune_nodes_notin _ Hp).
        specialize (Hk Hndk Ek). unfold found_in in Hk.
        rewrite find_in_cons', E in Hk.
        rewrite <- app_assoc.
        rewrite (Permutation_app_comm (nodes l) (nodes [x])).
        rewrite app_assoc. now apply Permutation_app_tail.
      * assert (Hp : ~ In p (ids k)) by now apply find_None.
        rewrite (prune_notin _ Hp).
        rewrite (map_id_in (prune p) (iter k)).
        -- rewrite <- app_assoc. apply Permutation_app_head.
           apply (IH HF Hndl).
        -- intros y Hy. apply prune_notin. intros Hin. apply Hp.
           now apply (ids_sub k y).
Qed.

Lemma prune_law_all (e : elem) : prune_law e.
Proof.
  induction e as [i t x ks IH] using elem_ind. intros Hnd Hne.
  rewrite ids_unfold in Hnd. apply NoDup_cons_iff in Hnd as [_ Hks].
  simpl kids in Hks. simpl nid in Hne.
  unfold found_in. rewrite find_in_cons'.
  rewrite (find_below (Elem i t x ks) Hne). simpl kids.
  rewrite (iter_unfold (Elem i t x ks)). simpl kids. cbn [map].
  rewrite prune_unfold, iter_unfold. simpl.
  apply perm_skip.
  assert (L := prune_law_list ks IH Hks). unfold found_in in L.
  destruct (find_in p ks); exact L.
Qed.

Lemma nodes_prune (l : list elem) :
  NoDup (ids_of l) -> Forall (fun e => nid e <> p) l ->
  Permutation (nodes (map (prune p) l ++ found_in l)) (map (prune p) (nodes l)).
Proof.
  intros Hnd Hroots. rewrite nodes_app.
  rewrite <- (filter_id_in (keeps p) (map (prune p) l)).
  - apply prune_law_list; [|exact Hnd].
    apply Forall_forall. intros e _. apply prune_law_all.
  - intros k Hk. apply in_map_iff in Hk as [e [<- He]].
    unfold keeps, has_id. rewrite nid_prune.
    apply negb_true_iff, Nat.eqb_neq.
    rewrite Forall_forall in Hroots. now apply Hroots.
Qed.

Lemma ids_prune (l : list elem) :
  NoDup (ids_of l) -> Forall (fun e => nid e <> p) l ->
  Permutation (ids_of (map (prune p) l ++ found_in l)) (ids_of l).
Proof.
  intros Hnd Hroots. rewrite !ids_of_nodes.
  rewrite (Permutation_map nid (nodes_prune l Hnd Hroots)).
  rewrite map_map. rewrite (map_ext _ nid nid_prune). reflexivity.
Qed.

Lemma find_in_prune (l : list elem) (q : nat) (y : elem) :
  NoDup (ids_of l) -> Forall (fun e => nid e <> p) l ->
  find_in q l = Some y ->
  find_in q (map (prune p) l ++ found_in l) = Some (prune p y).
Proof.
  intros Hnd Hroots E. apply find_in_Some in E as [Hy <-].
  rewrite <- (nid_prune y). apply find_in_unique.
  - apply (Permutation_NoDup (Permutation_sym (ids_prune l Hnd Hroots)) Hnd).
  - apply (Permutation_in _ (Permutation_sym (nodes_prune l Hnd Hroots))).
    now apply in_map.
Qed.

End Prune.

(** *** [graft] *)

Lemma insert_after_none (p : nat) (new : elem) (l : list elem) :
  Forall (fun e => nid e <> p) l -> insert_after p new l = l.
Proof.
  induction l as [|k l IH]; intros H; [reflexivity|].
  apply Forall_cons_iff in H as [Hk H]. unfold insert_after. cbn [flat_map].
  rewrite (proj2 (has_id_false p k) Hk). simpl. f_equal. now apply IH.
Qed.

Lemma roots_notin (p : nat) (l : list elem) :
  ~ In p (ids_of l) -> Forall (fun e => nid e <> p) l.
Proof.
  intros H. apply Forall_forall. intros e He E. apply H.
  apply in_flat_map. exists e. split; [exact He|]. rewrite <- E. apply ids_root.
Qed.

Section Graft.
Variable p : nat.
Variable new : elem.

Lemma graft_unfold (e : elem) :
  graft p new e =
  Elem (nid e) (tag e) (text e) (insert_after p new (map (graft p new) (kids e))).
Proof. destruct e; reflexivity. Qed.

Lemma nid_graft (e : elem) : nid (graft p new e) = nid e.
Proof. destruct e; reflexivity. Qed.

Lemma tag_graft (e : elem) : tag (graft p new e) = tag e.
Proof. destruct e; reflexivity. Qed.

Lemma text_graft (e : elem) : text (graft p new e) = text e.
Proof. destruct e; reflexivity. Qed.

Lemma graft_root (e : elem) : ~ In p (ids_of (kids e)) -> graft p new e = e.
Proof.
  induction e as [i t x ks IH] using elem_ind. simpl kids. intros H.
  rewrite graft_unfold. simpl. f_equal.
  rewrite Forall_forall in IH.
  rewrite (map_id_in (graft p new) ks).
  - apply insert_after_none. now apply roots_notin.
  - intros k Hk. apply (IH k Hk). intros Hin. apply H.
    apply in_flat_map. exists k. split; [exact Hk|].
    rewrite ids_unfold. now right.
Qed.

Lemma graft_notin (e : elem) : ~ In p (ids e) -> graft p new e = e.
Proof.
  intros H. apply graft_root. intros Hin. apply H.
  rewrite ids_unfold. now right.
Qed.

Lemma graft_list_notin (l : list elem) :
  ~ In p (ids_of l) -> map (graft p new) l = l.
Proof.
  intros H. apply map_id_in. intros e He. apply graft_notin.
  intros Hin. apply H. apply in_flat_map. now exists e.
Qed.

Lemma graft_nodes_notin (l : list elem) :
  ~ In p (ids_of l) -> map (graft p new) (nodes l) = nodes l.
Proof.
  intros H. apply map_id_in. intros y Hy. apply graft_notin.
  intros Hin. apply H. now apply (nodes_ids_sub l y).
Qed.

(** The new element is in the forest when [p] is the child of some
    element. *)
Definition grown_in (l : list elem) : list elem :=
  if in_dec Nat.eq_dec p (ids_of l) then [new] else [].

Lemma grown_in_yes (l : list elem) : In p (ids_of l) -> grown_in l = [new].
Proof. intros H. unfold grown_in. now destruct (in_dec Nat.eq_dec p (ids_of l)). Qed.

Lemma grown_in_no (l : list elem) : ~ In p (ids_of l) -> grown_in l = [].
Proof. intros H. unfold grown_in. now destruct (in_dec Nat.eq_dec p (ids_of l)). Qed.

Definition graft_law (e : elem) : Prop :=
  NoDup (ids e) ->
  Permutation (iter (graft p new e))
              (map (graft p new) (iter e) ++ nodes (grown_in (kids e))).

Lemma insert_after_cons (k : elem) (l : list elem) :
  insert_after p new (k :: l) =
  (if has_id p k then [k; new] else [k]) ++ insert_after p new l.
Proof. reflexivity. Qed.

Lemma graft_law_list (l : list elem) :
  Forall graft_law l -> NoDup (ids_of l) ->
  Permutation (nodes (insert_after p new (map (graft p new) l)))
              (map (graft p new) (nodes l) ++ nodes (grown_in l)).
Proof.
  induction l as [|k l IH]; intros HF Hnd.
  - reflexivity.
  - apply Forall_cons_iff in HF as [Hk HF].
    rewrite ids_of_cons in Hnd.
    assert (Hndk := NoDup_app_remove_r _ _ Hnd).
    assert (Hndl := NoDup_app_remove_l _ _ Hnd).
    cbn [map]. rewrite insert_after_cons. unfold has_id. rewrite nid_graft.
    rewrite nodes_app, nodes_cons, map_app.
    destruct (in_dec Nat.eq_dec p (ids k)) as [Hin|Hout].
    + assert (Hp : ~ In p (ids_of l)) by apply (NoDup_app_disjoint _ _ _ Hnd Hin).
      rewrite (graft_list_notin _ Hp), (graft_nodes_notin _ Hp).
      rewrite (insert_after_none _ _ _ (roots_notin _ _ Hp)).
      rewrite (grown_in_yes (k :: l));
        [|rewrite ids_of_cons; apply in_or_app; now left].
      destruct (Nat.eq_dec (nid k) p) as [Ek|Ek].
      * rewrite (proj2 (Nat.eqb_eq _ _) Ek).
        rewrite ids_unfold in Hndk. apply NoDup_cons_iff in Hndk as [Hr _].
        rewrite Ek in Hr. rewrite (graft_root _ Hr).
        rewrite (map_id_in (graft p new) (iter k)).
        -- cbn [nodes flat_map]. rewrite app_nil_r, <- !app_assoc.
           apply Permutation_app_head. apply Permutation_app_comm.
        -- rewrite iter_unfold. intros y [<-|Hy].
           ++ now apply graft_root.
           ++ apply graft_notin. intros Hy'. apply Hr.
              now apply (nodes_ids_sub (kids k) y).
      * rewrite (proj2 (Nat.eqb_neq _ _) Ek).
        specialize (Hk Hndk).
        rewrite grown_in_yes in Hk.
        -- cbn [nodes flat_map] in Hk |- *. rewrite !app_nil_r in Hk.
           rewrite !app_nil_r. rewrite Hk. rewrite <- !app_assoc.
           apply Permutation_app_head. apply Permutation_app_comm.
        -- rewrite ids_unfold in Hin. destruct Hin as [E|Hin]; [contradiction|exact Hin].
    + assert (Ek : nid k <> p).
      { intros E. apply Hout. rewrite <- E. apply ids_root. }
      rewrite (proj2 (Nat.eqb_neq _ _) Ek).
      rewrite (graft_notin _ Hout).
      rewrite (map_id_in (graft p new) (iter k)).
      * cbn [nodes flat_map]. rewrite app_nil_r, <- !app_assoc.
        apply Permutation_app_head.
        replace (grown_in (k :: l)) with (grown_in l).
        -- apply (IH HF Hndl).
        -- unfold grown_in. rewrite ids_of_cons.
           destruct (in_dec Nat.eq_dec p (ids_of l)) as [H1|H1];
             destruct (in_dec Nat.eq_dec p (ids k ++ ids_of l)) as [H2|H2];
             try reflexivity.
           ++ exfalso. apply H2. apply in_or_app. now right.
           ++ exfalso. apply in_app_or in H2 as [H2|H2]; contradiction.
      * intros y Hy. apply graft_notin. intros Hin. apply Hout.
        now apply (ids_sub k y).
Qed.

Lemma graft_law_all (e : elem) : graft_law e.
Proof.
  induction e as [i t x ks IH] using elem_ind. intros Hnd.
  rewrite ids_unfold in Hnd. apply NoDup_cons_iff in Hnd as [_ Hks].
  simpl kids in *.
  rewrite (iter_unfold (Elem i t x ks)). simpl kids. cbn [map].
  rewrite graft_unfold, iter_unfold. simpl.
  apply perm_skip. apply (graft_law_list ks IH Hks).
Qed.

Lemma nodes_graft (l : list elem) :
  NoDup (ids_of l) -> Forall (fun e => nid e <> p) l ->
  Permutation (nodes (map (graft p new) l))
              (map (graft p new) (nodes l) ++ nodes (grown_in l)).
Proof.
  intros Hnd Hroots.
  rewrite <- (insert_after_none p new (map (graft p new) l)).
  - apply graft_law_list; [|exact Hnd].
    apply Forall_forall. intros e _. apply graft_law_all.
  - apply Forall_forall. intros k Hk. apply in_map_iff in Hk as [e [<- He]].
    rewrite nid_graft. rewrite Forall_forall in Hroots. now apply Hroots.
Qed.

Lemma ids_graft (l : list elem) :
  NoDup (ids_of l) -> Forall (fun e => nid e <> p) l ->
  Permutation (ids_of (map (graft p new) l)) (ids_of l ++ ids_of (grown_in l)).
Proof.
  intros Hnd Hroots. rewrite !ids_of_nodes.
  rewrite (Permutation_map nid (nodes_graft l Hnd Hroots)).
  rewrite map_app, map_map. rewrite (map_ext _ nid nid_graft). reflexivity.
Qed.

Lemma find_in_graft (l : list elem) (q : nat) (y : elem) :
  NoDup (ids_of l ++ ids_of (grown_in l)) ->
  Forall (fun e => nid e <> p) l ->
  find_in q l = Some y ->
  find_in q (map (graft p new) l) = Some (graft p new y).
Proof.
  intros Hnd' Hroots E. assert (Hnd := NoDup_app_remove_r _ _ Hnd').
  apply find_in_Some in E as [Hy <-].
  rewrite <- (nid_graft y). apply find_in_unique.
  - apply (Permutation_NoDup (Permutation_sym (ids_graft l Hnd Hroots)) Hnd').
  - apply (Permutation_in _ (Permutation_sym (nodes_graft l Hnd Hroots))).
    apply in_or_app. left. now apply in_map.
Qed.

Lemma find_in_grafted (l : list elem) :
  NoDup (ids_of l ++ ids_of (grown_in l)) ->
  Forall (fun e => nid e <> p) l ->
  In p (ids_of l) ->
  find_in (nid new) (map (graft p new) l) = Some new.
Proof.
  intros Hnd' Hroots Hin. assert (Hnd := NoDup_app_remove_r _ _ Hnd').
  apply find_in_unique.
  - apply (Permutation_NoDup (Permutation_sym (ids_graft l Hnd Hroots)) Hnd').
  - apply (Permutation_in _ (Permutation_sym (nodes_graft l Hnd Hroots))).
    apply in_or_app. right. rewrite (grown_in_yes l Hin).
    apply nodes_root. now left.
Qed.

End Graft.

(** *** [parent] *)

Lemma parent_Some (p : nat) (e P : elem) :
  parent p e = Some P ->
  In P (iter e) /\ exists k, In k (kids P) /\ nid k = p.
Proof.
  induction e as [i t x ks IH] using elem_ind. simpl.
  destruct (existsb (has_id p) ks) eqn:E.
  - intros H. injection H as <-. split; [now left|].
    apply existsb_exists in E as [k [Hk Hp]]. exists k.
    split; [exact Hk | now apply has_id_true].
  - intros H. apply first_some_Some in H as [k [Hk Hf]].
    rewrite Forall_forall in IH. destruct (IH k Hk Hf) as [HP Hex].
    split; [|exact Hex]. right. apply in_flat_map. now exists k.
Qed.

Lemma parent_in_Some (p : nat) (l : list elem) (P : elem) :
  parent_in p l = Some P ->
  In P (nodes l) /\ exists k, In k (kids P) /\ nid k = p.
Proof.
  intros H. apply first_some_Some in H as [e [He Hf]].
  apply parent_Some in Hf as [HP Hex]. split; [|exact Hex].
  apply in_flat_map. now exists e.
Qed.

Lemma below (e P k : elem) :
  In P (iter e) -> In k (kids P) -> In (nid k) (ids_of (kids e)).
Proof.
  induction e as [i t x ks IH] using elem_ind. simpl.
  intros [<-|HP] Hk.
  - simpl in Hk. apply in_flat_map. exists k. split; [exact Hk | apply ids_root].
  - apply in_flat_map in HP as [c [Hc HP]].
    rewrite Forall_forall in IH. apply in_flat_map. exists c.
    split; [exact Hc|]. rewrite ids_unfold. right. now apply (IH c Hc HP).
Qed.

Lemma root_not_below (l : list elem) (e r : elem) (p : nat) :
  NoDup (ids_of l) -> In e l -> In r l -> nid e = p ->
  In p (ids_of (kids r)) -> False.
Proof.
  induction l as [|a l IH]; [intros _ []|].
  rewrite ids_of_cons. intros Hnd He Hr E Hin.
  assert (Hna := NoDup_app_remove_r _ _ Hnd).
  assert (Hnl := NoDup_app_remove_l _ _ Hnd).
  assert (Hpe : In p (ids e)) by (rewrite <- E; apply ids_root).
  assert (Hpr : In p (ids r)) by (rewrite ids_unfold; now right).
  destruct He as [<-|He], Hr as [<-|Hr].
  - rewrite ids_unfold in Hna. apply NoDup_cons_iff in Hna as [Hr _].
    apply Hr. now rewrite E.
  - apply (NoDup_app_disjoint _ _ _ Hnd Hpe).
    apply in_flat_map. now exists r.
  - apply (NoDup_app_disjoint _ _ _ Hnd Hpr).
    apply in_flat_map. now exists e.
  - now apply (IH Hnl He Hr E Hin).
Qed.

Lemma parent_in_not_root (p : nat) (l : list elem) (P : elem) :
  NoDup (ids_of l) -> parent_in p l = Some P ->
  Forall (fun e => nid e <> p) l.
Proof.
  intros Hnd H. apply first_some_Some in H as [r [Hr Hf]].
  apply parent_Some in Hf as [HP [k [Hk Ep]]].
  apply Forall_forall. intros e He E.
  apply (root_not_below l e r p Hnd He Hr E).
  rewrite <- Ep. now apply (below r P k).
Qed.

Lemma parent_in_inside (p : nat) (l : list elem) (P : elem) :
  parent_in p l = Some P -> In p (ids_of l).
Proof.
  intros H. apply parent_in_Some in H as [HP [k [Hk <-]]].
  apply (nodes_ids_sub l P HP). rewrite ids_unfold. right.
  apply in_flat_map. exists k. split; [exact Hk | apply ids_root].
Qed.

(** ** What the text and the children of an element depend on *)

Lemma has_tag_true (t : string) (e : elem) : has_tag t e = true <-> tag e = t.
Proof. unfold has_tag. apply String.eqb_eq. Qed.

Lemma has_tag_eq (t : string) (a b : elem) : tag a = tag b -> has_tag t a = has_tag t b.
Proof. unfold has_tag. now intros ->. Qed.

Lemma piece_eq (a b : elem) : tag a = tag b -> text a = text b -> Docx.piece a = Docx.piece b.
Proof.
  intros Ht Hx. unfold Docx.piece.
  rewrite (has_tag_eq "w:t" a b Ht), (has_tag_eq "w:tab" a b Ht),
    (has_tag_eq "w:br" a b Ht), (has_tag_eq "w:cr" a b Ht), Hx.
  reflexivity.
Qed.

Lemma piece_paragraph (c : elem) : tag c = "w:p" -> Docx.piece c = [].
Proof. intros H. unfold Docx.piece, has_tag. rewrite H. reflexivity. Qed.

Lemma run_not_paragraph (r : elem) : has_tag "w:r" r = true -> tag r <> "w:p".
Proof. intros H E. unfold has_tag in H. rewrite E in H. discriminate. Qed.

Lemma inert_kid (p : nat) (y k : elem) : inert p y -> In k (kids y) -> inert p k.
Proof.
  intros H Hk z Hz. apply H. now apply (iter_kid y k z).
Qed.

Lemma flat_map_filter_map {A B : Type} (f : A -> A) (keep : A -> bool)
  (g : A -> list B) (l : list A) :
  (forall a, In a l -> keep (f a) = keep a) ->
  (forall a, In a l -> keep a = true -> g (f a) = g a) ->
  flat_map g (filter keep (map f l)) = flat_map g (filter keep l).
Proof.
  induction l as [|a l IH]; intros H1 H2; simpl; [reflexivity|].
  rewrite (H1 a (or_introl eq_refl)).
  destruct (keep a) eqn:E; simpl.
  - rewrite (H2 a (or_introl eq_refl) E). f_equal.
    apply IH; intros b Hb; [apply H1 | apply H2]; now right.
  - apply IH; intros b Hb; [apply H1 | apply H2]; now right.
Qed.

Lemma map_filter_map {A B : Type} (f : A -> A) (keep : A -> bool)
  (g : A -> B) (l : list A) :
  (forall a, In a l -> keep (f a) = keep a) ->
  (forall a, In a l -> g (f a) = g a) ->
  map g (filter keep (map f l)) = map g (filter keep l).
Proof.
  induction l as [|a l IH]; intros H1 H2; simpl; [reflexivity|].
  rewrite (H1 a (or_introl eq_refl)).
  destruct (keep a) eqn:E; simpl.
  - rewrite (H2 a (or_introl eq_refl)). f_equal.
    apply IH; intros b Hb; [apply H1 | apply H2]; now right.
  - apply IH; intros b Hb; [apply H1 | apply H2]; now right.
Qed.

Section UpdateFrame.
Variable p : nat.
Variable g : elem -> elem.
Hypothesis g_nid : forall x, nid (g x) = nid x.
Hypothesis g_tag : forall x, tag (g x) = tag x.
Hypothesis g_text : forall x, text (g x) = text x.

Lemma tag_update (e : elem) : tag (update p g e) = tag e.
Proof.
  destruct e as [i t x ks]. simpl.
  destruct (has_id p (Elem i t x ks)); [apply g_tag | reflexivity].
Qed.

Lemma text_update (e : elem) : text (update p g e) = text e.
Proof.
  destruct e as [i t x ks]. simpl.
  destruct (has_id p (Elem i t x ks)); [apply g_text | reflexivity].
Qed.

Lemma piece_update (c : elem) : Docx.piece (update p g c) = Docx.piece c.
Proof. apply piece_eq; [apply tag_update | apply text_update]. Qed.

Lemma run_text_update (r : elem) :
  nid r <> p -> Docx.run_text (update p g r) = Docx.run_text r.
Proof.
  intros H. rewrite (update_off p g r H). unfold Docx.run_text. simpl kids.
  rewrite flat_map_concat_map, map_map, <- flat_map_concat_map.
  apply flat_map_ext. intros c. apply piece_update.
Qed.

Lemma kids_update (y : elem) :
  nid y <> p -> kids (update p g y) = map (update p g) (kids y).
Proof. intros H. now rewrite (update_off p g y H). Qed.

Lemma Paragraph_text_update (y : elem) :
  nid y <> p -> inert p y ->
  Docx.Paragraph_text (update p g y) = Docx.Paragraph_text y.
Proof.
  intros Hy Hin. unfold Docx.Paragraph_text. rewrite (kids_update y Hy).
  apply flat_map_filter_map.
  - intros k _. apply has_tag_eq, tag_update.
  - intros k Hk Hr. apply run_text_update. intros E.
    apply (run_not_paragraph k Hr). apply Hin; [|exact E].
    apply (iter_kid y k k Hk), iter_self.
Qed.

Lemma children_update (t : string) (y : elem) :
  nid y <> p ->
  map nid (filter (has_tag t) (kids (update p g y))) =
  map nid (filter (has_tag t) (kids y)).
Proof.
  intros Hy. rewrite (kids_update y Hy). apply map_filter_map.
  - intros k _. apply has_tag_eq, tag_update.
  - intros k _. apply (nid_update p g g_nid).
Qed.

End UpdateFrame.

Section PruneFrame.
Variable p : nat.

Lemma filter_keeps_flat_map {B : Type} (f : elem -> list B) (l : list elem) :
  (forall k, In k l -> nid k = p -> f k = []) ->
  flat_map f (filter (keeps p) l) = flat_map f l.
Proof.
  induction l as [|k l IH]; intros H; simpl; [reflexivity|].
  unfold keeps at 1. destruct (has_id p k) eqn:E; simpl.
  - apply has_id_true in E. rewrite (H k (or_introl eq_refl) E). simpl.
    apply IH. intros c Hc. apply H. now right.
  - f_equal. apply IH. intros c Hc. apply H. now right.
Qed.

Lemma run_text_prune (r : elem) :
  inert p r -> Docx.run_text (prune p r) = Docx.run_text r.
Proof.
  intros Hin. rewrite prune_unfold. unfold Docx.run_text. simpl kids.
  rewrite filter_keeps_flat_map.
  - rewrite flat_map_concat_map, map_map, <- flat_map_concat_map.
    apply flat_map_ext. intros c. apply piece_eq; [apply tag_prune | apply text_prune].
  - intros k Hk E. apply in_map_iff in Hk as [c [<- Hc]].
    apply piece_paragraph. rewrite tag_prune. rewrite nid_prune in E.
    apply Hin; [|exact E]. apply (iter_kid r c c Hc), iter_self.
Qed.

Lemma filter_filter_keeps (f : elem -> bool) (l : list elem) :
  filter f (filter (keeps p) l) = filter (keeps p) (filter f l).
Proof.
  induction l as [|k l IH]; simpl; [reflexivity|].
  destruct (keeps p k) eqn:E1, (f k) eqn:E2; simpl;
    rewrite ?E1, ?E2, IH; reflexivity.
Qed.

Lemma Paragraph_text_prune (y : elem) :
  inert p y -> Docx.Paragraph_text (prune p y) = Docx.Paragraph_text y.
Proof.
  intros Hin. unfold Docx.Paragraph_text. rewrite prune_unfold. simpl kids.
  rewrite filter_filter_keeps, filter_keeps_flat_map.
  - apply flat_map_filter_map.
    + intros k _. apply has_tag_eq, tag_prune.
    + intros k Hk _. apply run_text_prune. now apply (inert_kid p y k).
  - intros k Hk E. apply filter_In in Hk as [Hk Hr].
    apply in_map_iff in Hk as [c [<- Hc]].
    exfalso. apply (run_not_paragraph _ Hr). rewrite tag_prune.
    rewrite nid_prune in E. apply Hin; [|exact E].
    apply (iter_kid y c c Hc), iter_self.
Qed.

Definition other (i : nat) : bool := negb (Nat.eqb i p).

Lemma children_prune (t : string) (y : elem) :
  map nid (filter (has_tag t) (kids (prune p y))) =
  filter other (map nid (filter (has_tag t) (kids y))).
Proof.
  rewrite prune_unfold. simpl kids. generalize (kids y) as l.
  induction l as [|k l IH]; simpl; [reflexivity|].
  unfold keeps at 1, has_id. rewrite nid_prune.
  destruct (Nat.eqb (nid k) p) eqn:E; simpl.
  - rewrite IH. destruct (has_tag t k); simpl; [|reflexivity].
    change (other (nid k)) with (negb (Nat.eqb (nid k) p)). now rewrite E.
  - rewrite (has_tag_eq t (prune p k) k (tag_prune p k)).
    destruct (has_tag t k); simpl; [|exact IH].
    change (other (nid k)) with (negb (Nat.eqb (nid k) p)).
    rewrite E, nid_prune. simpl. now rewrite IH.
Qed.

End PruneFrame.

Section GraftFrame.
Variable p : nat.
Variable new : elem.
Hypothesis new_paragraph : tag new = "w:p".

Lemma insert_after_flat_map {B : Type} (f : elem -> list B) (l : list elem) :
  f new = [] -> flat_map f (insert_after p new l) = flat_map f l.
Proof.
  intros H. induction l as [|k l IH]; [reflexivity|].
  rewrite insert_after_cons, flat_map_app, IH.
  destruct (has_id p k); simpl; rewrite ?H, ?app_nil_r; reflexivity.
Qed.

Lemma run_text_graft (r : elem) :
  Docx.run_text (graft p new r) = Docx.run_text r.
Proof.
  rewrite graft_unfold. unfold Docx.run_text. simpl kids.
  rewrite insert_after_flat_map; [|now apply piece_paragraph].
  rewrite flat_map_concat_map, map_map, <- flat_map_concat_map.
  apply flat_map_ext. intros c. apply piece_eq; [apply tag_graft | apply text_graft].
Qed.

Lemma filter_insert_after (t : string) (l : list elem) :
  t <> "w:p" -> filter (has_tag t) (insert_after p new l) = filter (has_tag t) l.
Proof.
  intros Ht. assert (N : has_tag t new = false).
  { unfold has_tag. rewrite new_paragraph. apply String.eqb_neq. congruence. }
  induction l as [|k l IH]; [reflexivity|].
  rewrite insert_after_cons, filter_app, IH.
  destruct (has_id p k); simpl; rewrite ?N; destruct (has_tag t k); reflexivity.
Qed.

Lemma Paragraph_text_graft (y : elem) :
  Docx.Paragraph_text (graft p new y) = Docx.Paragraph_text y.
Proof.
  unfold Docx.Paragraph_text. rewrite graft_unfold. simpl kids.
  rewrite filter_insert_after; [|discriminate].
  apply flat_map_filter_map.
  - intros k _. apply has_tag_eq, tag_graft.
  - intros k _ _. apply run_text_graft.
Qed.

Lemma children_graft (t : string) (y : elem) :
  t <> "w:p" ->
  map nid (filter (has_tag t) (kids (graft p new y))) =
  map nid (filter (has_tag t) (kids y)).
Proof.
  intros Ht. rewrite graft_unfold. simpl kids.
  rewrite (filter_insert_after t _ Ht). apply map_filter_map.
  - intros k _. apply has_tag_eq, tag_graft.
  - intros k _. apply nid_graft.
Qed.

(** The identities of the paragraphs among the children, after the new
    paragraph is put in: it follows [p]. *)
Definition follow (i : nat) : list nat := if Nat.eqb i p then [i; nid new] else [i].

Lemma paragraphs_graft (y : elem) :
  inert p y ->
  map nid (filter (has_tag "w:p") (kids (graft p new y))) =
  flat_map follow (map nid (filter (has_tag "w:p") (kids y))).
Proof.
  intros Hin. rewrite graft_unfold. simpl kids.
  assert (H : forall k, In k (kids y) -> nid k = p -> has_tag "w:p" k = true).
  { intros k Hk E. apply has_tag_true. apply Hin; [|exact E].
    apply (iter_kid y k k Hk), iter_self. }
  revert H. generalize (kids y) as l.
  induction l as [|k l IH]; intros H; [reflexivity|].
  cbn [map]. rewrite insert_after_cons, filter_app, map_app.
  rewrite IH by (intros c Hc; apply H; now right).
  unfold has_id. rewrite nid_graft.
  assert (T := has_tag_eq "w:p" (graft p new k) k (tag_graft p new k)).
  destruct (Nat.eqb (nid k) p) eqn:E.
  - apply Nat.eqb_eq in E.
    cbn [filter]. rewrite T, (H k (or_introl eq_refl) E).
    rewrite (proj2 (has_tag_true "w:p" new) new_paragraph).
    cbn [map flat_map app]. unfold follow at 2. rewrite nid_graft.
    rewrite (proj2 (Nat.eqb_eq _ _) E). reflexivity.
  - cbn [filter]. rewrite T.
    destruct (has_tag "w:p" k); [|reflexivity].
    cbn [map flat_map app]. unfold follow at 2. rewrite nid_graft, E. reflexivity.
Qed.

End GraftFrame.

(** ** The operations on states *)

Lemma distinct_NoDup (l : list nat) : distinct l = true <-> NoDup l.
Proof.
  induction l as [|a l IH]; simpl.
  - split; [constructor | reflexivity].
  - rewrite andb_true_iff, negb_true_iff, IH, NoDup_cons_iff.
    split; intros [H1 H2]; split; try assumption.
    + intros Hin. assert (E : existsb (Nat.eqb a) l = true).
      { apply existsb_exists. exists a. split; [exact Hin | apply Nat.eqb_refl]. }
      congruence.
    + destruct (existsb (Nat.eqb a) l) eqn:E; [|reflexivity].
      apply existsb_exists in E as [b [Hb Eb]]. apply Nat.eqb_eq in Eb. subst b.
      contradiction.
Qed.

Lemma well_formed_Wf (st : state) : well_formed st = true <-> Wf st.
Proof.
  unfold well_formed, Wf. rewrite andb_true_iff, distinct_NoDup, forallb_forall, Forall_forall.
  split; intros [H1 H2]; (split; [exact H1|]); intros i Hi.
  - apply Nat.ltb_lt. now apply H2.
  - apply Nat.ltb_lt. now apply H2.
Qed.

Lemma Wf_well_formed (st : state) : Wf st -> well_formed st = true.
Proof. apply well_formed_Wf. Qed.

Lemma is_paragraph_find (p : nat) (st : state) :
  is_paragraph p st = true ->
  exists e, find_in p (trees st) = Some e /\ tag e = "w:p".
Proof.
  unfold is_paragraph. destruct (find_in p (trees st)) as [e|]; [|discriminate].
  intros H. exists e. split; [reflexivity | now apply has_tag_true].
Qed.

Lemma find_is_paragraph (p : nat) (st : state) (e : elem) :
  find_in p (trees st) = Some e -> tag e = "w:p" -> is_paragraph p st = true.
Proof.
  intros H T. unfold is_paragraph. rewrite H. now apply has_tag_true.
Qed.

(** Under distinct identities, what has the identity of a paragraph is that
    paragraph. *)
Lemma Wf_inert (st : state) (p : nat) (e y : elem) :
  Wf st -> find_in p (trees st) = Some e -> tag e = "w:p" ->
  In y (nodes (trees st)) -> inert p y.
Proof.
  intros [Hnd _] He Ht Hy z Hz Ez.
  apply find_in_Some in He as [He Ee].
  assert (Hz' : In z (nodes (trees st))).
  { apply in_flat_map in Hy as [r [Hr Hy]]. apply in_flat_map. exists r.
    split; [exact Hr|]. clear - Hy Hz.
    induction r as [i t x ks IH] using elem_ind.
    simpl in Hy. destruct Hy as [<-|Hy]; [exact Hz|].
    apply in_flat_map in Hy as [k [Hk Hy]]. rewrite Forall_forall in IH.
    simpl. right. apply in_flat_map. exists k. split; [exact Hk | now apply IH]. }
  rewrite ids_of_nodes in Hnd.
  assert (z = e) by (apply (NoDup_map_eq nid (nodes (trees st))); congruence).
  now subst z.
Qed.

Lemma filter_split {A : Type} (f : A -> bool) (l : list A) :
  Permutation (filter f l ++ filter (fun a => negb (f a)) l) l.
Proof.
  induction l as [|a l IH]; simpl; [reflexivity|].
  destruct (f a); simpl.
  - now apply perm_skip.
  - rewrite <- Permutation_middle. now apply perm_skip.
Qed.

Lemma Forall_perm {A : Type} (P : A -> Prop) (l l' : list A) :
  Permutation l l' -> Forall P l -> Forall P l'.
Proof.
  intros Hp H. apply Forall_forall. intros a Ha. rewrite Forall_forall in H.
  apply H. apply (Permutation_in a (Permutation_sym Hp) Ha).
Qed.

Lemma NoDup_fresh (l new : list nat) (n : nat) :
  NoDup l -> NoDup new -> Forall (fun i => i < n) l -> Forall (fun i => n <= i) new ->
  NoDup (l ++ new).
Proof.
  intros Hl Hn Hlt Hge. apply NoDup_app; [exact Hl | exact Hn |].
  intros a Ha Hb. rewrite Forall_forall in Hlt, Hge.
  specialize (Hlt a Ha). specialize (Hge a Hb). lia.
Qed.

(** *** [Paragraph.text = s] *)

Section SetText.
Variable st : state.
Variable p : nat.
Variable s : Py.str.
Variable e : elem.
Hypothesis st_wf : Wf st.
Hypothesis p_elem : find_in p (trees st) = Some e.

Let g := Docx.rewritten (fresh st) s.
Let h (ks : list elem) := filter Docx.is_pPr ks ++ [Docx.new_run (fresh st) s].
Let lost (ks : list elem) := filter (fun k => negb (Docx.is_pPr k)) ks.
Let won := [Docx.new_run (fresh st) s].

Lemma set_text_trees :
  trees (Docx.set_text p s st) = map (update p g) (trees st) ++ lost (kids e).
Proof. unfold Docx.set_text. rewrite p_elem. reflexivity. Qed.

Lemma set_text_fresh : fresh (Docx.set_text p s st) = 2 + fresh st.
Proof. unfold Docx.set_text. rewrite p_elem. reflexivity. Qed.

Lemma set_text_out : out (Docx.set_text p s st) = out st.
Proof. unfold Docx.set_text. rewrite p_elem. reflexivity. Qed.

Lemma set_text_calls : calls (Docx.set_text p s st) = calls st.
Proof. unfold Docx.set_text. rewrite p_elem. reflexivity. Qed.

Lemma g_nid (x : elem) : nid (g x) = nid x.
Proof. reflexivity. Qed.

Lemma g_tag (x : elem) : tag (g x) = tag x.
Proof. reflexivity. Qed.

Lemma g_text (x : elem) : text (g x) = text x.
Proof. reflexivity. Qed.

Lemma g_kids (x : elem) : g x = Elem (nid x) (tag x) (text x) (h (kids x)).
Proof. reflexivity. Qed.

Lemma h_perm (ks : list elem) : Permutation (h ks ++ lost ks) (ks ++ won).
Proof.
  unfold h, lost, won. rewrite <- app_assoc.
  rewrite (Permutation_app_comm [Docx.new_run (fresh st) s]).
  rewrite app_assoc. apply Permutation_app_tail. apply filter_split.
Qed.

Lemma set_text_ids :
  Permutation (ids_of (trees (Docx.set_text p s st)))
              (ids_of (trees st) ++ [fresh st; S (fresh st)]).
Proof.
  rewrite set_text_trees.
  assert (P := ids_update p g g_nid h lost won g_kids h_perm (trees st) (proj1 st_wf)).
  unfold lost_in, won_in in P. rewrite p_elem in P. exact P.
Qed.

Lemma set_text_NoDup : NoDup (ids_of (trees st) ++ [fresh st; S (fresh st)]).
Proof.
  destruct st_wf as [Hnd Hlt].
  apply (NoDup_fresh _ _ (fresh st) Hnd); [|exact Hlt|].
  - constructor; [simpl; lia|]. constructor; [intros []|constructor].
  - repeat constructor; lia.
Qed.

Lemma set_text_Wf : Wf (Docx.set_text p s st).
Proof.
  split.
  - apply (Permutation_NoDup (Permutation_sym set_text_ids)), set_text_NoDup.
  - rewrite set_text_fresh.
    apply (Forall_perm _ _ _ (Permutation_sym set_text_ids)).
    apply Forall_app. split.
    + apply (Forall_impl _ (fun i (H : i < fresh st) => Nat.lt_lt_add_l _ _ 2 H)), st_wf.
    + repeat constructor; lia.
Qed.

Lemma set_text_find (q : nat) (y : elem) :
  find_in q (trees st) = Some y ->
  find_in q (trees (Docx.set_text p s st)) = Some (update p g y).
Proof.
  intros H. rewrite set_text_trees.
  assert (F := find_in_update p g g_nid h lost won g_kids h_perm (trees st) q y (proj1 st_wf)).
  unfold lost_in, won_in in F. rewrite p_elem in F.
  apply F; [apply set_text_NoDup | exact H].
Qed.

Lemma Paragraph_text_rewritten (n : nat) (x : elem) :
  Docx.Paragraph_text (Docx.rewritten n s x) = s.
Proof.
  unfold Docx.Paragraph_text, Docx.rewritten, Docx.with_kids. simpl kids.
  rewrite filter_app, flat_map_app.
  replace (filter (has_tag "w:r") (filter Docx.is_pPr (kids x))) with (@nil elem).
  - simpl. unfold Docx.run_text. simpl. now rewrite !app_nil_r.
  - symmetry. induction (kids x) as [|k l IH]; simpl; [reflexivity|].
    destruct (Docx.is_pPr k) eqn:E; [|exact IH]. simpl.
    unfold Docx.is_pPr in E. apply has_tag_true in E.
    unfold has_tag. rewrite E. simpl. exact IH.
Qed.

Lemma set_text_same : Docx.text_of p (Docx.set_text p s st) = s.
Proof.
  unfold Docx.text_of. rewrite (set_text_find p e p_elem).
  apply find_in_Some in p_elem as [_ E].
  rewrite (update_at p g e E). apply Paragraph_text_rewritten.
Qed.

Hypothesis p_paragraph : tag e = "w:p".

Lemma set_text_other (q : nat) (y : elem) :
  q <> p -> find_in q (trees st) = Some y ->
  Docx.text_of q (Docx.set_text p s st) = Docx.text_of q st.
Proof.
  intros Hq H. unfold Docx.text_of. rewrite (set_text_find q y H), H.
  assert (H' := H). apply find_in_Some in H' as [Hy E].
  apply (Paragraph_text_update p g g_tag g_text y); [congruence|].
  apply (Wf_inert st p e y st_wf p_elem p_paragraph Hy).
Qed.

Lemma set_text_children (t : string) (q : nat) (y : elem) :
  q <> p -> find_in q (trees st) = Some y ->
  Docx.children t q (Docx.set_text p s st) = Docx.children t q st.
Proof.
  intros Hq H. unfold Docx.children. rewrite (set_text_find q y H), H.
  apply find_in_Some in H as [Hy E].
  apply (children_update p g g_nid g_tag t y). congruence.
Qed.

Lemma set_text_is_paragraph (q : nat) :
  is_paragraph q st = true -> is_paragraph q (Docx.set_text p s st) = true.
Proof.
  intros H. apply is_paragraph_find in H as [y [Hy Ty]].
  apply (find_is_paragraph q _ (update p g y)); [now apply set_text_find|].
  now rewrite (tag_update p g g_tag).
Qed.

End SetText.

(** *** [e.getparent().remove(e)] *)

Section Remove.
Variable st st' : state.
Variable p : nat.
Hypothesis st_wf : Wf st.
Hypothesis removed : Docx.remove p st = Some st'.

Lemma remove_inv :
  exists P e, parent_in p (trees st) = Some P /\ find_in p (trees st) = Some e
              /\ st' = set_trees (map (prune p) (trees st) ++ [e]) st.
Proof.
  unfold Docx.remove in removed.
  destruct (parent_in p (trees st)) as [P|]; [|discriminate].
  destruct (find_in p (trees st)) as [e|]; [|discriminate].
  exists P, e. injection removed as <-. auto.
Qed.

Lemma remove_trees :
  trees st' = map (prune p) (trees st) ++ found_in p (trees st).
Proof.
  destruct remove_inv as [P [e [_ [He ->]]]]. unfold found_in. now rewrite He.
Qed.

Lemma remove_fresh : fresh st' = fresh st.
Proof. destruct remove_inv as [P [e [_ [_ ->]]]]. reflexivity. Qed.

Lemma remove_out : out st' = out st.
Proof. destruct remove_inv as [P [e [_ [_ ->]]]]. reflexivity. Qed.

Lemma remove_calls : calls st' = calls st.
Proof. destruct remove_inv as [P [e [_ [_ ->]]]]. reflexivity. Qed.

Lemma remove_roots : Forall (fun r => nid r <> p) (trees st).
Proof.
  destruct remove_inv as [P [e [HP _]]].
  apply (parent_in_not_root p (trees st) P (proj1 st_wf) HP).
Qed.

Lemma remove_ids : Permutation (ids_of (trees st')) (ids_of (trees st)).
Proof. rewrite remove_trees. apply ids_prune; [apply st_wf | apply remove_roots]. Qed.

Lemma remove_Wf : Wf st'.
Proof.
  split.
  - apply (Permutation_NoDup (Permutation_sym remove_ids)), st_wf.
  - rewrite remove_fresh. apply (Forall_perm _ _ _ (Permutation_sym remove_ids)), st_wf.
Qed.

Lemma remove_find (q : nat) (y : elem) :
  find_in q (trees st) = Some y -> find_in q (trees st') = Some (prune p y).
Proof.
  intros H. rewrite remove_trees.
  apply find_in_prune; [apply st_wf | apply remove_roots | exact H].
Qed.

Lemma remove_children (t : string) (q : nat) (y : elem) :
  find_in q (trees st) = Some y ->
  Docx.children t q st' = filter (other p) (Docx.children t q st).
Proof.
  intros H. unfold Docx.children. rewrite (remove_find q y H), H.
  apply children_prune.
Qed.

Lemma remove_is_paragraph (q : nat) :
  is_paragraph q st = true -> is_paragraph q st' = true.
Proof.
  intros H. apply is_paragraph_find in H as [y [Hy Ty]].
  apply (find_is_paragraph q _ (prune p y)); [now apply remove_find|].
  now rewrite tag_prune.
Qed.

Hypothesis p_paragraph : is_paragraph p st = true.

Lemma remove_text (q : nat) (y : elem) :
  find_in q (trees st) = Some y -> Docx.text_of q st' = Docx.text_of q st.
Proof.
  intros H. unfold Docx.text_of. rewrite (remove_find q y H), H.
  apply Paragraph_text_prune.
  apply is_paragraph_find in p_paragraph as [e [He Te]].
  apply find_in_Some in H as [Hy _].
  apply (Wf_inert st p e y st_wf He Te Hy).
Qed.

End Remove.

(** A child of an element of the state has a parent and is in the state. *)
Lemma child_parent (st : state) (q p : nat) (t : string) :
  In p (Docx.children t q st) ->
  (exists P, parent_in p (trees st) = Some P)
  /\ (exists e, find_in p (trees st) = Some e).
Proof.
  unfold Docx.children. destruct (find_in q (trees st)) as [y|] eqn:E; [|intros []].
  intros H. apply in_map_iff in H as [k [Ek Hk]]. apply filter_In in Hk as [Hk _].
  apply find_in_Some in E as [Hy _].
  assert (Hin : In p (ids_of (trees st))).
  { apply (nodes_ids_sub _ y Hy). rewrite ids_unfold. right.
    apply in_flat_map. exists k. split; [exact Hk|]. rewrite <- Ek. apply ids_root. }
  split.
  - destruct (parent_in p (trees st)) as [P|] eqn:Ep; [eauto|].
    exfalso. unfold parent_in in Ep. rewrite first_some_None in Ep.
    apply in_flat_map in Hy as [r [Hr Hy]]. specialize (Ep r Hr).
    clear - Ep Hy Hk Ek. revert Ep Hy.
    induction r as [i tg x ks IH] using elem_ind. simpl.
    destruct (existsb (has_id p) ks) eqn:Ex; [discriminate|].
    intros Ep [<-|Hy].
    + assert (existsb (has_id p) ks = true); [|congruence].
      apply existsb_exists. exists k. split; [exact Hk | now apply has_id_true].
    + apply in_flat_map in Hy as [c [Hc Hy]]. rewrite Forall_forall in IH.
      apply (IH c Hc); [|exact Hy]. now apply (proj1 (first_some_None _ _) Ep).
  - destruct (find_in p (trees st)) as [e|] eqn:Ef; [eauto|].
    exfalso. now apply (proj1 (find_in_None _ _) Ef).
Qed.

(** A child of an element of the state can be removed. *)
Lemma remove_child (st : state) (q p : nat) (t : string) :
  In p (Docx.children t q st) -> exists st', Docx.remove p st = Some st'.
Proof.
  intros H. destruct (child_parent st q p t H) as [[P HP] [e He]].
  unfold Docx.remove. rewrite HP, He. eauto.
Qed.

(** *** [parent.insert(parent.index(e) + 1, new)] *)

Lemma ids_of_filter (f : elem -> bool) (l : list elem) :
  incl (ids_of (filter f l)) (ids_of l).
Proof.
  intros i H. apply in_flat_map in H as [k [Hk Hi]].
  apply filter_In in Hk as [Hk _]. apply in_flat_map. now exists k.
Qed.

Lemma NoDup_ids_of_filter (f : elem -> bool) (l : list elem) :
  NoDup (ids_of l) -> NoDup (ids_of (filter f l)).
Proof.
  induction l as [|k l IH]; simpl; [intros _; constructor|].
  intros H. assert (Hl := NoDup_app_remove_l _ _ H).
  destruct (f k); [|now apply IH].
  rewrite ids_of_cons. apply NoDup_app.
  - now apply NoDup_app_remove_r in H.
  - now apply IH.
  - intros a Ha Hb. apply (NoDup_app_disjoint _ _ _ H Ha).
    now apply (ids_of_filter f l).
Qed.

Section Insert.
Variable st st' : state.
Variable p : nat.
Variable new : elem.
Hypothesis st_wf : Wf st.
Hypothesis new_paragraph : tag new = "w:p".
Hypothesis new_distinct : NoDup (ids new).
Hypothesis new_fresh : Forall (fun i => fresh st <= i) (ids new).
Hypothesis inserted : Docx.insert_next p new st = Some st'.

Lemma insert_inv :
  exists P, parent_in p (trees st) = Some P
            /\ st' = set_trees (map (graft p new) (trees st)) st.
Proof.
  unfold Docx.insert_next in inserted.
  destruct (parent_in p (trees st)) as [P|]; [|discriminate].
  exists P. injection inserted as <-. auto.
Qed.

Lemma insert_trees : trees st' = map (graft p new) (trees st).
Proof. destruct insert_inv as [P [_ ->]]. reflexivity. Qed.

Lemma insert_fresh : fresh st' = fresh st.
Proof. destruct insert_inv as [P [_ ->]]. reflexivity. Qed.

Lemma insert_out : out st' = out st.
Proof. destruct insert_inv as [P [_ ->]]. reflexivity. Qed.

Lemma insert_calls : calls st' = calls st.
Proof. destruct insert_inv as [P [_ ->]]. reflexivity. Qed.

Lemma insert_roots : Forall (fun r => nid r <> p) (trees st).
Proof.
  destruct insert_inv as [P [HP _]].
  apply (parent_in_not_root p (trees st) P (proj1 st_wf) HP).
Qed.

Lemma insert_inside : In p (ids_of (trees st)).
Proof. destruct insert_inv as [P [HP _]]. apply (parent_in_inside p _ P HP). Qed.

Lemma insert_grown : grown_in p new (trees st) = [new].
Proof. apply grown_in_yes, insert_inside. Qed.

Lemma insert_ids :
  Permutation (ids_of (trees st')) (ids_of (trees st) ++ ids new).
Proof.
  rewrite insert_trees.
  rewrite (ids_graft p new (trees st) (proj1 st_wf) insert_roots), insert_grown.
  simpl. now rewrite app_nil_r.
Qed.

Lemma insert_NoDup : NoDup (ids_of (trees st) ++ ids_of (grown_in p new (trees st))).
Proof.
  rewrite insert_grown. simpl. rewrite app_nil_r.
  apply (NoDup_fresh _ _ (fresh st)); [apply st_wf | exact new_distinct | apply st_wf | exact new_fresh].
Qed.

(** The state once the identities of the new paragraph are handed out. *)
Lemma insert_Wf (k : nat) :
  Forall (fun i => i < k + fresh st) (ids new) -> Wf (alloc k st').
Proof.
  intros Hk. split.
  - simpl. apply (Permutation_NoDup (Permutation_sym insert_ids)).
    assert (H := insert_NoDup). rewrite insert_grown in H. simpl in H.
    now rewrite app_nil_r in H.
  - simpl. rewrite insert_fresh.
    apply (Forall_perm _ _ _ (Permutation_sym insert_ids)).
    apply Forall_app. split; [|exact Hk].
    apply (Forall_impl _ (fun i (H : i < fresh st) => Nat.lt_lt_add_l _ _ k H)), st_wf.
Qed.

Lemma insert_find (q : nat) (y : elem) :
  find_in q (trees st) = Some y -> find_in q (trees st') = Some (graft p new y).
Proof.
  intros H. rewrite insert_trees.
  apply find_in_graft; [apply insert_NoDup | apply insert_roots | exact H].
Qed.

Lemma insert_find_new : find_in (nid new) (trees st') = Some new.
Proof.
  rewrite insert_trees.
  apply find_in_grafted; [apply insert_NoDup | apply insert_roots | apply insert_inside].
Qed.

Lemma insert_text (q : nat) (y : elem) :
  find_in q (trees st) = Some y -> Docx.text_of q st' = Docx.text_of q st.
Proof.
  intros H. unfold Docx.text_of. rewrite (insert_find q y H), H.
  now apply Paragraph_text_graft.
Qed.

Lemma insert_children (t : string) (q : nat) (y : elem) :
  t <> "w:p" -> find_in q (trees st) = Some y ->
  Docx.children t q st' = Docx.children t q st.
Proof.
  intros Ht H. unfold Docx.children. rewrite (insert_find q y H), H.
  now apply children_graft.
Qed.

Lemma insert_is_paragraph (q : nat) :
  is_paragraph q st = true -> is_paragraph q st' = true.
Proof.
  intros H. apply is_paragraph_find in H as [y [Hy Ty]].
  apply (find_is_paragraph q _ (graft p new y)); [now apply insert_find|].
  now rewrite tag_graft.
Qed.

Hypothesis p_paragraph : is_paragraph p st = true.

Lemma insert_paragraphs (q : nat) (y : elem) :
  find_in q (trees st) = Some y ->
  Docx.children "w:p" q st' = flat_map (follow p new) (Docx.children "w:p" q st).
Proof.
  intros H. unfold Docx.children. rewrite (insert_find q y H), H.
  apply (paragraphs_graft p new new_paragraph).
  apply is_paragraph_find in p_paragraph as [e [He Te]].
  apply find_in_Some in H as [Hy _].
  apply (Wf_inert st p e y st_wf He Te Hy).
Qed.

End Insert.

(** * The claims *)

(** ** The terminator set *)

(** C2, as the specification states it, counts the ASCII full stop among the
    terminators.  It is not one: a paragraph ending in [.] is not terminated,
    and the paragraph after it is merged into it. *)
Lemma C2_ascii_full_stop_is_no_terminator :
  ~ In u"." terminators
  /\ is_terminated u"Hello." = false
  /\ Sample.body_texts (merge_paragraphs Sample.the_doc Sample.full_stop)
     = [u"Hello. World"].
Proof.
  split; [|split; reflexivity].
  intros H. repeat (destruct H as [H|H]; [discriminate|]). exact H.
Qed.

(** C2, amended.  [is_terminated] holds exactly when the trimmed text of the
    last retained paragraph ends with one of the eleven characters of
    [terminator_chars] (the ideographic full stop, the fullwidth question
    mark, exclamation mark, colon, semicolon and right parenthesis, the ASCII
    colon, semicolon and right parenthesis, the right double quotation mark
    and the ASCII quotation mark; no ASCII full stop, question mark or
    exclamation mark), and when it holds the turn of the loop merges nothing:
    the document is unchanged and the current paragraph becomes the last
    retained one. *)
Theorem C2_terminated_blocks_merging :
  terminators = map (fun c => [c]) terminator_chars
  /\ (forall s : Py.str,
        is_terminated s = true <->
        exists pre c, s = pre ++ [c] /\ In c terminator_chars)
  /\ (forall (curr_p : nat) (m : merging),
        is_terminated (Py.strip (Docx.text_of (last_p m) (doc m))) = true ->
        merge_step curr_p m = Merging curr_p (merged_count m) (doc m)).
Proof.
  split; [reflexivity|]. split; [exact is_terminated_iff|].
  intros curr_p m H. unfold merge_step. cbv zeta.
  destruct (Py.is_empty (Py.strip (Docx.text_of curr_p (doc m)))); [reflexivity|].
  destruct (Py.is_empty (Py.strip (Docx.text_of (last_p m) (doc m)))); [reflexivity|].
  rewrite H. reflexivity.
Qed.

Lemma C2_terminated_blocks_merging_witness :
  is_terminated (Py.strip (Docx.text_of 10 Sample.cjk_full_stop)) = true
  /\ merge_step 20 (Merging 10 0 Sample.cjk_full_stop)
     = Merging 20 0 Sample.cjk_full_stop.
Proof.
  split; [reflexivity|].
  apply (proj2 (proj2 C2_terminated_blocks_merging) 20 (Merging 10 0 Sample.cjk_full_stop)).
  reflexivity.
Defined.

(** ** The cleanup of the translation *)

Lemma Paragraph_text_translation (n : nat) (p_elem : elem) (cleaned : Py.str) :
  Docx.Paragraph_text (translation_paragraph n p_elem cleaned) = cleaned.
Proof.
  unfold translation_paragraph, Docx.Paragraph_text, Docx.with_kids. simpl kids.
  rewrite filter_app, flat_map_app.
  replace (filter (has_tag "w:r")
             (filter (fun child => negb (tag_endswith_r child))
                     (kids (shift n p_elem)))) with (@nil elem).
  - simpl. unfold Docx.run_text. simpl. now rewrite !app_nil_r.
  - symmetry. induction (kids (shift n p_elem)) as [|k l IH]; simpl; [reflexivity|].
    destruct (tag_endswith_r k) eqn:E; simpl; [exact IH|].
    destruct (has_tag "w:r" k) eqn:T; [|exact IH].
    apply has_tag_true in T. unfold tag_endswith_r in E. rewrite T in E. discriminate.
Qed.

(** C10.  The cleanup removes the whole leading run of digits and dots,
    whatever its shape, and the whitespace after it: when the translation
    is [run ++ ws ++ rest] with [run] a non-empty run of digits and dots that
    cannot be extended and [ws] the whitespace that follows, the cleaned
    translation is [rest], and [rest] is what the run added to the inserted
    paragraph holds. *)
Theorem C10_cleanup_takes_whole_digit_dot_run
  (n : nat) (p_elem : elem) (run ws rest : Py.str) :
  run <> [] ->
  forallb Re.digit_or_dot run = true ->
  forallb Py.isspace ws = true ->
  stops Re.digit_or_dot (ws ++ rest) ->
  stops Py.isspace rest ->
  Re.sub_numbering (run ++ ws ++ rest) = rest
  /\ exists kept,
       kids (translation_paragraph n p_elem (Re.sub_numbering (run ++ ws ++ rest)))
       = kept ++ [Elem (n + n) "w:r" [] [Elem (S (n + n)) "w:t" rest []]].
Proof.
  intros Hne Hrun Hws Hmax Hrest.
  assert (E : Re.sub_numbering (run ++ ws ++ rest) = rest).
  { destruct run as [|c run]; [contradiction|].
    unfold Re.sub_numbering. cbn [app].
    cbn [forallb] in Hrun. apply andb_true_iff in Hrun as [Hc Hrun].
    rewrite Hc. cbn [Py.drop_while]. rewrite Hc.
    rewrite (drop_while_all _ _ _ Hrun), (drop_while_stops _ _ Hmax).
    now rewrite (drop_while_all _ _ _ Hws), (drop_while_stops _ _ Hrest). }
  split; [exact E|]. rewrite E. unfold translation_paragraph, Docx.with_kids.
  cbn [kids]. eexists. reflexivity.
Qed.

(** The two inputs C10 names: a multi-level number, and dots alone. *)
Lemma C10_cleanup_takes_whole_digit_dot_run_witness :
  (Re.sub_numbering u"1.2.3. text" = u"text"
   /\ exists kept,
        kids (translation_paragraph 100 (Sample.paragraph 10 u"你好")
                (Re.sub_numbering u"1.2.3. text"))
        = kept ++ [Elem 200 "w:r" [] [Elem 201 "w:t" u"text" []]])
  /\ (Re.sub_numbering u"...text" = u"text"
      /\ exists kept,
           kids (translation_paragraph 100 (Sample.paragraph 10 u"你好")
                   (Re.sub_numbering u"...text"))
           = kept ++ [Elem 200 "w:r" [] [Elem 201 "w:t" u"text" []]]).
Proof.
  split.
  - apply (C10_cleanup_takes_whole_digit_dot_run 100 (Sample.paragraph 10 u"你好")
             u"1.2.3." u" " u"text"); [discriminate | reflexivity | reflexivity | reflexivity | reflexivity].
  - apply (C10_cleanup_takes_whole_digit_dot_run 100 (Sample.paragraph 10 u"你好")
             u"..." [] u"text"); [discriminate | reflexivity | reflexivity | reflexivity | reflexivity].
Defined.

(** ** Empty paragraphs *)

(** C5, as the specification states it, has the last retained pointer stay
    where it is at a whitespace-only paragraph.  The pointer moves to that
    paragraph, which is why the third paragraph below is not merged into the
    first. *)
Lemma C5_pointer_moves_to_empty_paragraph :
  Py.strip (Docx.text_of 20 Sample.blank_between) = []
  /\ last_p (merge_step 20 (Merging 10 0 Sample.blank_between))
     <> last_p (Merging 10 0 Sample.blank_between)
  /\ Sample.body_texts (merge_paragraphs Sample.the_doc Sample.blank_between)
     = [u"a"; u" "; u"b"].
Proof. split; [reflexivity|]. split; [discriminate | reflexivity]. Qed.

(** C5, amended.  At a paragraph whose trimmed text is empty the merger
    merges nothing and moves the last retained pointer to it; the paragraph
    that comes next is not merged into it either; and the inserter makes no
    translation call for it and leaves the state as it is. *)
Theorem C5_empty_paragraph_is_skipped
  (translator : nat -> Py.str -> option Py.str) (p : nat) (m : merging) :
  Py.strip (Docx.text_of p (doc m)) = [] ->
  merge_step p m = Merging p (merged_count m) (doc m)
  /\ (forall next n,
        merge_step next (Merging p n (doc m)) = Merging next n (doc m))
  /\ process_paragraph translator p (doc m) = doc m
  /\ translate_paragraph_element translator p (doc m) = doc m.
Proof.
  intros H. repeat split.
  - unfold merge_step. cbv zeta. now rewrite H.
  - intros next n. unfold merge_step. cbv zeta. cbn [last_p doc merged_count].
    rewrite H. cbn [Py.is_empty].
    now destruct (Py.is_empty (Py.strip (Docx.text_of next (doc m)))).
  - unfold process_paragraph. now rewrite H.
  - unfold translate_paragraph_element. unfold Docx.text_of in H.
    destruct (find_in p (trees (doc m))); [|reflexivity]. now rewrite H.
Qed.

Lemma C5_empty_paragraph_is_skipped_witness :
  merge_step 20 (Merging 10 0 Sample.blank_between)
  = Merging 20 0 Sample.blank_between
  /\ (forall next n,
        merge_step next (Merging 20 n Sample.blank_between)
        = Merging next n Sample.blank_between)
  /\ process_paragraph (Sample.answers u"x") 20 Sample.blank_between
     = Sample.blank_between
  /\ translate_paragraph_element (Sample.answers u"x") 20 Sample.blank_between
     = Sample.blank_between.
Proof.
  apply (C5_empty_paragraph_is_skipped (Sample.answers u"x") 20
           (Merging 10 0 Sample.blank_between)).
  reflexivity.
Defined.

(** ** A translation that fails *)

Lemma for_each_cons {A : Type} (a : A) (l : list A) (f : A -> state -> state)
  (st : state) :
  for_each (a :: l) f st = for_each l f (f a st).
Proof. reflexivity. Qed.

Lemma is_empty_false (s : Py.str) : s <> [] -> Py.is_empty s = false.
Proof. destruct s; [contradiction | reflexivity]. Qed.

Lemma is_empty_true (s : Py.str) : Py.is_empty s = true -> s = [].
Proof. destruct s; [reflexivity | discriminate]. Qed.

(** C6.  When the translator raises for a paragraph, the error is printed
    with the first 20 characters of the paragraph's trimmed text, the trees
    of the document are what they were (so are the paragraph's text and the
    children of every element), and [process_paragraph_list] goes on with the
    rest of its list. *)
Theorem C6_translation_failure_is_skipped
  (translator : nat -> Py.str -> option Py.str)
  (p : nat) (rest : list nat) (st : state) :
  let text := Py.strip (Docx.text_of p st) in
  text <> [] ->
  translator (calls st) (text_to_translate text) = None ->
  let st' := translate_paragraph_element translator p st in
  out st' = out st ++ [Translate (text_to_translate text);
                       Print (ErrorTranslating (firstn 20 text))]
  /\ trees st' = trees st
  /\ Docx.text_of p st' = Docx.text_of p st
  /\ (forall t q, Docx.children t q st' = Docx.children t q st)
  /\ process_paragraph_list translator (p :: rest) st
     = process_paragraph_list translator rest (sleep st').
Proof.
  intros text Hne Hfail st'.
  assert (E : st' = print (ErrorTranslating (firstn 20 text))
                      (called (text_to_translate text) st)).
  { unfold st', translate_paragraph_element. unfold text, Docx.text_of in *.
    destruct (find_in p (trees st)) as [e|]; [|contradiction].
    rewrite (is_empty_false _ Hne). now rewrite Hfail. }
  repeat split.
  - rewrite E. simpl. now rewrite <- app_assoc.
  - now rewrite E.
  - unfold Docx.text_of. now rewrite E.
  - intros t q. unfold Docx.children. now rewrite E.
  - unfold process_paragraph_list. rewrite for_each_cons.
    unfold process_paragraph at 2. fold text. now rewrite (is_empty_false _ Hne).
Qed.

Lemma C6_translation_failure_is_skipped_witness :
  let st' := translate_paragraph_element Sample.raises 10 Sample.hello_world in
  out st' = [Translate u"Hello"; Print (ErrorTranslating u"Hello")]
  /\ trees st' = trees Sample.hello_world
  /\ Docx.text_of 10 st' = u" Hello "
  /\ (forall t q, Docx.children t q st' = Docx.children t q Sample.hello_world)
  /\ process_paragraph_list Sample.raises [10; 20] Sample.hello_world
     = process_paragraph_list Sample.raises [20] (sleep st').
Proof.
  apply (C6_translation_failure_is_skipped Sample.raises 10 [20] Sample.hello_world);
    [discriminate | reflexivity].
Defined.

(** ** A removal that fails *)

Lemma find_update_same (p : nat) (g : elem -> elem) (e x : elem) :
  (forall y, nid (g y) = nid y) ->
  find p e = Some x -> find p (update p g e) = Some (g x).
Proof.
  intros Hg. induction e as [i t y ks IH] using elem_ind.
  destruct (Nat.eq_dec i p) as [->|Hne].
  - rewrite (find_root p (Elem p t y ks) eq_refl). intros H. injection H as <-.
    rewrite (update_at p g (Elem p t y ks) eq_refl).
    apply find_root. now rewrite Hg.
  - rewrite (find_below p (Elem i t y ks) Hne), (update_off p g (Elem i t y ks) Hne).
    cbn [nid tag text kids].
    rewrite (find_below p (Elem i t y (map (update p g) ks)) Hne). cbn [kids].
    induction ks as [|k ks IHks]; [discriminate|].
    apply Forall_cons_iff in IH as [Hk IH]. cbn [map].
    rewrite !find_in_cons. destruct (find p k) as [z|] eqn:E.
    + intros H. injection H as <-. now rewrite (Hk eq_refl).
    + rewrite (update_notin p g k (proj1 (find_None p k) E)), E. now apply IHks.
Qed.

Lemma find_in_update_same (p : nat) (g : elem -> elem) (l rest : list elem)
  (x : elem) :
  (forall y, nid (g y) = nid y) ->
  find_in p l = Some x ->
  find_in p (map (update p g) l ++ rest) = Some (g x).
Proof.
  intros Hg. induction l as [|k l IH]; [discriminate|].
  cbn [map app]. rewrite !find_in_cons. destruct (find p k) as [z|] eqn:E.
  - intros H. injection H as <-. now rewrite (find_update_same p g k z Hg E).
  - rewrite (update_notin p g k (proj1 (find_None p k) E)), E. exact IH.
Qed.

(** Reading back the text that was assigned. *)
Lemma text_of_set_text (p : nat) (s : Py.str) (st : state) (e : elem) :
  find_in p (trees st) = Some e -> Docx.text_of p (Docx.set_text p s st) = s.
Proof.
  intros H. unfold Docx.text_of, Docx.set_text. rewrite H. cbn [trees alloc set_trees].
  rewrite (find_in_update_same p (Docx.rewritten (fresh st) s) (trees st) _ e
             (fun y => eq_refl) H).
  apply Paragraph_text_rewritten.
Qed.

Lemma text_of_nonempty (p : nat) (st : state) :
  Py.strip (Docx.text_of p st) <> [] -> exists e, find_in p (trees st) = Some e.
Proof.
  unfold Docx.text_of. destruct (find_in p (trees st)) as [e|]; [eauto|].
  intros H. now contradiction H.
Qed.


(** ** Merging a pair *)

Lemma drop_while_suffix (f : Py.char -> bool) (s : Py.str) :
  exists pre, s = pre ++ Py.drop_while f s.
Proof.
  induction s as [|c s [pre IH]]; simpl.
  - now exists [].
  - destruct (f c); [|now exists []]. exists (c :: pre). simpl. now f_equal.
Qed.

Lemma rstrip_prefix (s : Py.str) : exists w, s = Py.rstrip s ++ w.
Proof.
  unfold Py.rstrip. destruct (drop_while_suffix Py.isspace (rev s)) as [pre H].
  exists (rev pre). rewrite <- rev_app_distr, <- H. symmetry. apply rev_involutive.
Qed.

Lemma strip_stops (s : Py.str) : stops Py.isspace (Py.strip s).
Proof.
  unfold Py.strip, Py.lstrip.
  assert (H := drop_while_is_stopped Py.isspace s).
  destruct (rstrip_prefix (Py.drop_while Py.isspace s)) as [w E].
  destruct (Py.rstrip (Py.drop_while Py.isspace s)) as [|c r]; [exact I|].
  rewrite E in H. exact H.
Qed.

Lemma lstrip_strip (s : Py.str) : Py.lstrip (Py.strip s) = Py.strip s.
Proof. apply drop_while_stops, strip_stops. Qed.

Lemma NoDup_ids_sub (e y : elem) : NoDup (ids e) -> In y (iter e) -> NoDup (ids y).
Proof.
  induction e as [i t x ks IH] using elem_ind. intros Hnd Hy.
  simpl in Hy. destruct Hy as [<-|Hy]; [exact Hnd|].
  apply in_flat_map in Hy as [k [Hk Hy]]. rewrite Forall_forall in IH.
  apply (IH k Hk); [|exact Hy].
  rewrite ids_unfold in Hnd. apply NoDup_cons_iff in Hnd as [_ Hnd].
  apply (NoDup_flat_map_elem ids ks k Hnd Hk).
Qed.

Lemma NoDup_node (l : list elem) (y : elem) :
  NoDup (ids_of l) -> In y (nodes l) -> NoDup (ids y).
Proof.
  intros Hnd Hy. apply in_flat_map in Hy as [r [Hr Hy]].
  apply (NoDup_ids_sub r y); [|exact Hy].
  apply (NoDup_flat_map_elem ids l r Hnd Hr).
Qed.

Lemma children_find (t : string) (q p : nat) (st : state) :
  In p (Docx.children t q st) ->
  exists y k, find_in q (trees st) = Some y /\ In k (kids y) /\ nid k = p
              /\ tag k = t.
Proof.
  unfold Docx.children. destruct (find_in q (trees st)) as [y|]; [|intros []].
  intros H. apply in_map_iff in H as [k [Ek Hk]]. apply filter_In in Hk as [Hk Ht].
  exists y, k. repeat split; try assumption. now apply has_tag_true.
Qed.

(** An element is not its own child. *)
Lemma child_other (t : string) (q p : nat) (st : state) :
  Wf st -> In p (Docx.children t q st) -> q <> p.
Proof.
  intros [Hnd _] H. apply children_find in H as [y [k [Hy [Hk [Ek _]]]]].
  apply find_in_Some in Hy as [Hy Ey]. intros E.
  assert (N := NoDup_node _ y Hnd Hy). rewrite ids_unfold in N.
  apply NoDup_cons_iff in N as [N _]. apply N.
  apply in_flat_map. exists k. split; [exact Hk|].
  replace (nid y) with (nid k) by congruence. apply ids_root.
Qed.

(** A child of an element of a well-formed state is found by its
    identity. *)
Lemma child_find (t : string) (q p : nat) (st : state) :
  Wf st -> In p (Docx.children t q st) ->
  exists k, find_in p (trees st) = Some k /\ tag k = t.
Proof.
  intros [Hnd _] H. apply children_find in H as [y [k [Hy [Hk [Ek Tk]]]]].
  exists k. split; [|exact Tk]. rewrite <- Ek. apply find_in_unique; [exact Hnd|].
  apply find_in_Some in Hy as [Hy _].
  apply in_flat_map in Hy as [r [Hr Hy]]. apply in_flat_map. exists r.
  split; [exact Hr|]. clear - Hy Hk.
  induction r as [i t x ks IH] using elem_ind. simpl in Hy.
  destruct Hy as [<-|Hy].
  - simpl. right. apply in_flat_map. exists k. split; [exact Hk | apply iter_self].
  - apply in_flat_map in Hy as [c [Hc Hy]]. rewrite Forall_forall in IH.
    simpl. right. apply in_flat_map. exists c. split; [exact Hc | now apply IH].
Qed.

(** C1, as the specification states it, has the merged text made of the
    text of the first paragraph, the separator and the text of the second.
    The code drops the whitespace at the end of the first and around the
    second, and keeps the whitespace at the start of the first: the result is
    made neither of the two texts nor of the two trimmed texts. *)
Lemma C1_trailing_space_is_dropped :
  let st := Sample.hello_world in
  let A := Docx.text_of 10 st in
  let B := Docx.text_of 20 st in
  Py.strip A <> [] /\ Py.strip B <> []
  /\ is_terminated (Py.strip A) = false
  /\ starts_with_number (Py.strip B) = false
  /\ last_is_header (Py.strip A) = false
  /\ ascii_join (Py.strip A) (Py.strip B) = true
  /\ Sample.body_texts (merge_paragraphs Sample.the_doc st) = [u" Hello world"]
  /\ Sample.body_texts (merge_paragraphs Sample.the_doc st) <> [A ++ u" " ++ B]
  /\ Sample.body_texts (merge_paragraphs Sample.the_doc st)
     <> [Py.strip A ++ u" " ++ Py.strip B].
Proof. repeat split; try reflexivity; discriminate. Qed.

(** C1, amended.  When the last retained paragraph A and the current
    paragraph B are different paragraphs of a well-formed document, B a child
    of [parent] (which is not A), both trimmed texts are non-empty, A's does
    not end with a terminator, B's does not match the numeric marker and A is
    not a short numbered heading, the turn of the loop leaves A holding A's
    text without its trailing whitespace, then the separator (one space when
    the last character of A's trimmed text and the first character of B's
    trimmed text are both ASCII, nothing otherwise), then B's trimmed text;
    B is no longer among the children of its parent, and A stays the last
    retained paragraph. *)
Theorem C1_merge_joins_pair (curr_p parent : nat) (m : merging) :
  let st := doc m in
  let text := Py.strip (Docx.text_of curr_p st) in
  let last_text := Py.strip (Docx.text_of (last_p m) st) in
  well_formed st = true ->
  is_paragraph (last_p m) st = true ->
  In curr_p (Docx.children "w:p" parent st) ->
  last_p m <> curr_p -> last_p m <> parent ->
  text <> [] -> last_text <> [] ->
  is_terminated last_text = false ->
  starts_with_number text = false ->
  last_is_header last_text = false ->
  let m' := merge_step curr_p m in
  Docx.text_of (last_p m) (doc m')
  = Py.rstrip (Docx.text_of (last_p m) st)
    ++ (if ascii_join last_text text then u" " else []) ++ text
  /\ Docx.children "w:p" parent (doc m')
     = filter (fun i => negb (Nat.eqb i curr_p)) (Docx.children "w:p" parent st)
  /\ last_p m' = last_p m
  /\ merged_count m' = S (merged_count m).
Proof.
  intros st text last_text Hwf HA HB Hne Hpar Ht Hl H1 H2 H3 m'.
  apply well_formed_Wf in Hwf.
  destruct (is_paragraph_find _ _ HA) as [a [Ha Ta]].
  destruct (child_find _ _ _ _ Hwf HB) as [b [Hb Tb]].
  destruct (children_find _ _ _ _ HB) as [y [_ [Hy _]]].
  set (joined := Py.rstrip (Docx.text_of (last_p m) st)
                 ++ separator last_text text ++ Py.lstrip text).
  set (st1 := Docx.set_text (last_p m) joined st).
  assert (Hwf1 : Wf st1) by apply (set_text_Wf st (last_p m) joined a Hwf Ha).
  assert (HB1 : In curr_p (Docx.children "w:p" parent st1)).
  { unfold st1.
    rewrite (set_text_children st (last_p m) joined a Hwf Ha "w:p" parent y);
      [exact HB | congruence | exact Hy]. }
  destruct (remove_child st1 parent curr_p "w:p" HB1) as [st2 Hrm].
  assert (E : m' = Merging (last_p m) (S (merged_count m)) st2).
  { unfold m', merge_step. cbv zeta. fold st. fold text. fold last_text.
    rewrite (is_empty_false _ Ht), (is_empty_false _ Hl), H1, H2, H3.
    cbn [negb andb]. fold joined. fold st1. now rewrite Hrm. }
  rewrite E. cbn [doc last_p merged_count]. repeat split.
  - rewrite (remove_text st1 st2 curr_p Hwf1 Hrm
               (set_text_is_paragraph st (last_p m) joined a Hwf Ha curr_p
                  (find_is_paragraph curr_p st b Hb Tb))
               (last_p m) _ (set_text_find st (last_p m) joined a Hwf Ha (last_p m) a Ha)).
    unfold st1. rewrite (set_text_same st (last_p m) joined a Hwf Ha).
    unfold joined, separator, text. now rewrite lstrip_strip.
  - rewrite (remove_children st1 st2 curr_p Hwf1 Hrm "w:p" parent _
               (set_text_find st (last_p m) joined a Hwf Ha parent y Hy)).
    unfold st1.
    rewrite (set_text_children st (last_p m) joined a Hwf Ha "w:p" parent y);
      [reflexivity | congruence | exact Hy].
Qed.

Lemma C1_merge_joins_pair_witness :
  let m' := merge_step 20 (Merging 10 0 Sample.hello_world) in
  Docx.text_of 10 (doc m') = u" Hello" ++ u" " ++ u"world"
  /\ Docx.children "w:p" 0 (doc m') = [10]
  /\ last_p m' = 10
  /\ merged_count m' = 1.
Proof.
  apply (C1_merge_joins_pair 20 0 (Merging 10 0 Sample.hello_world));
    try reflexivity; try discriminate.
  simpl. right. now left.
Defined.

(** ** One paragraph translated *)

Lemma ids_shift (n : nat) (e : elem) : ids (shift n e) = map (Nat.add n) (ids e).
Proof.
  induction e as [i t x ks IH] using elem_ind. simpl. f_equal.
  rewrite map_flat_map, flat_map_concat_map, map_map, <- flat_map_concat_map.
  apply flat_map_ext_in. intros k Hk. rewrite Forall_forall in IH. now apply IH.
Qed.

Lemma tag_shift (n : nat) (e : elem) : tag (shift n e) = tag e.
Proof. destruct e; reflexivity. Qed.

Lemma nid_shift (n : nat) (e : elem) : nid (shift n e) = n + nid e.
Proof. destruct e; reflexivity. Qed.

Lemma kids_shift (n : nat) (e : elem) : kids (shift n e) = map (shift n) (kids e).
Proof. destruct e; reflexivity. Qed.

Lemma NoDup_map_add (n : nat) (l : list nat) : NoDup l -> NoDup (map (Nat.add n) l).
Proof.
  induction 1 as [|a l Ha _ IH]; simpl; constructor; [|exact IH].
  intros H. apply in_map_iff in H as [b [E Hb]].
  assert (b = a) by lia. now subst b.
Qed.

Section NewParagraph.
Variable n : nat.
Variable e : elem.
Variable cleaned : Py.str.
Hypothesis e_distinct : NoDup (ids e).
Hypothesis e_old : Forall (fun i => i < n) (ids e).

Let new := translation_paragraph n e cleaned.
Let kept := filter (fun child => negb (tag_endswith_r child)) (kids (shift n e)).

Lemma new_unfold :
  new = Elem (n + nid e) (tag e) (text e)
          (kept ++ [Elem (n + n) "w:r" [] [Elem (S (n + n)) "w:t" cleaned []]]).
Proof. unfold new, translation_paragraph, kept. destruct e; reflexivity. Qed.

Lemma new_tag : tag new = tag e.
Proof. rewrite new_unfold. reflexivity. Qed.

Lemma new_nid : nid new = n + nid e.
Proof. rewrite new_unfold. reflexivity. Qed.

Lemma new_ids :
  ids new = (n + nid e) :: ids_of kept ++ [n + n; S (n + n)].
Proof.
  rewrite new_unfold, ids_unfold. cbn [nid kids]. f_equal.
  rewrite ids_of_app. reflexivity.
Qed.

Lemma shifted_ids : ids (shift n e) = (n + nid e) :: ids_of (kids (shift n e)).
Proof. now rewrite ids_unfold, nid_shift. Qed.

Lemma kept_range (i : nat) : In i (ids_of kept) -> n <= i < n + n.
Proof.
  intros H. apply ids_of_filter in H.
  assert (H' : In i (ids (shift n e))) by (rewrite shifted_ids; now right).
  rewrite ids_shift in H'. apply in_map_iff in H' as [j [<- Hj]].
  rewrite Forall_forall in e_old. specialize (e_old j Hj). lia.
Qed.

Lemma new_distinct : NoDup (ids new).
Proof.
  assert (S := NoDup_map_add n (ids e) e_distinct). rewrite <- ids_shift in S.
  rewrite shifted_ids in S. apply NoDup_cons_iff in S as [S1 S2].
  rewrite new_ids. constructor.
  - intros H. apply in_app_or in H as [H|H].
    + apply S1. now apply (ids_of_filter _ _ _ H).
    + assert (nid e < n).
      { rewrite Forall_forall in e_old. apply e_old, ids_root. }
      simpl in H. lia.
  - apply NoDup_app.
    + now apply NoDup_ids_of_filter.
    + constructor; [simpl; lia|]. constructor; [intros []|constructor].
    + intros a Ha Hb. apply kept_range in Ha. simpl in Hb. lia.
Qed.

Lemma new_range (i : nat) : In i (ids new) -> n <= i < 2 + n + n.
Proof.
  rewrite new_ids. intros [<-|H].
  - assert (nid e < n).
    { rewrite Forall_forall in e_old. apply e_old, ids_root. }
    lia.
  - apply in_app_or in H as [H|H]; [apply kept_range in H; lia | simpl in H; lia].
Qed.

End NewParagraph.

Lemma Wf_called (text : Py.str) (st : state) : Wf st -> Wf (called text st).
Proof. intros H. exact H. Qed.

Lemma Wf_print (m : message) (st : state) : Wf st -> Wf (print m st).
Proof. intros H. exact H. Qed.

Lemma Wf_sleep (st : state) : Wf st -> Wf (sleep st).
Proof. intros H. exact H. Qed.

Lemma Wf_found (st : state) (p : nat) (e : elem) :
  Wf st -> find_in p (trees st) = Some e ->
  NoDup (ids e) /\ Forall (fun i => i < fresh st) (ids e).
Proof.
  intros [Hnd Hlt] H. apply find_in_Some in H as [He _]. split.
  - apply (NoDup_node _ e Hnd He).
  - apply Forall_forall. intros i Hi. rewrite Forall_forall in Hlt.
    apply Hlt. now apply (nodes_ids_sub _ e He).
Qed.

Lemma translate_outcome (translator : nat -> Py.str -> option Py.str)
  (p : nat) (st : state) (e : elem) :
  find_in p (trees st) = Some e ->
  Py.strip (Docx.Paragraph_text e) <> [] ->
  outcome translator p st e (translate_paragraph_element translator p st).
Proof.
  intros He Hne. unfold translate_paragraph_element. rewrite He.
  rewrite (is_empty_false _ Hne).
  destruct (translator (calls st) (text_to_translate (Py.strip (Docx.Paragraph_text e))))
    as [r|] eqn:Et; [|now apply Failed].
  destruct (is_header_colon (Py.strip (Docx.Paragraph_text e))) eqn:Eh;
    [now apply Glossed|].
  cbn [fresh called].
  destruct (Docx.insert_next p _ _) as [st'|] eqn:Ei.
  - now apply (Inserted translator p st e r st').
  - now apply (Orphan translator p st e r).
Qed.

Lemma translate_nothing (translator : nat -> Py.str -> option Py.str)
  (p : nat) (st : state) :
  Py.strip (Docx.text_of p st) = [] ->
  translate_paragraph_element translator p st = st.
Proof.
  intros H. unfold translate_paragraph_element. unfold Docx.text_of in H.
  destruct (find_in p (trees st)); [|reflexivity]. now rewrite H.
Qed.

Section Translated.
Variable translator : nat -> Py.str -> option Py.str.
Variable st : state.
Variable p : nat.
Hypothesis st_wf : Wf st.
Hypothesis p_paragraph : is_paragraph p st = true.

Lemma translated_cases :
  translate_paragraph_element translator p st = st
  \/ exists e, find_in p (trees st) = Some e /\ tag e = "w:p"
               /\ outcome translator p st e
                    (translate_paragraph_element translator p st).
Proof.
  destruct (is_paragraph_find p st p_paragraph) as [e [He Te]].
  destruct (Py.strip (Docx.Paragraph_text e)) as [|c s] eqn:E.
  - left. apply translate_nothing. unfold Docx.text_of. now rewrite He.
  - right. exists e. repeat split; try assumption.
    apply translate_outcome; [exact He | now rewrite E].
Qed.

(** What [translate_paragraph_element] keeps: the state is well formed, and
    an element [q] of the state is still there with its tag; when [q] is not
    [p], with its text and with its children of any tag but [w:p]. *)
Lemma translated_state (st' : state) (e : elem) :
  find_in p (trees st) = Some e -> tag e = "w:p" ->
  outcome translator p st e st' ->
  Wf st'
  /\ forall q y, find_in q (trees st) = Some y ->
       exists y', find_in q (trees st') = Some y' /\ tag y' = tag y
         /\ (q <> p -> Docx.Paragraph_text y' = Docx.Paragraph_text y)
         /\ (q <> p -> forall t, t <> "w:p" ->
             map nid (filter (has_tag t) (kids y'))
             = map nid (filter (has_tag t) (kids y))).
Proof.
  intros He Te O.
  destruct (Wf_found st p e st_wf He) as [Hd Ho].
  assert (I : forall q y, find_in q (trees st) = Some y -> inert p y).
  { intros q y Hy. apply find_in_Some in Hy as [Hy _].
    apply (Wf_inert st p e y st_wf He Te Hy). }
  destruct O as [text Ht|r text Ht Hh|r st2 text Ht Hh Hi|r text Ht Hh Hi].
  - split; [exact st_wf|]. intros q y Hy. exists y. repeat split; auto.
  - set (st1 := called (text_to_translate text) st) in *.
    set (s := text_to_translate text ++ u"(" ++ Py.strip r ++ u"):").
    assert (W1 : Wf st1) by exact st_wf.
    split; [apply (set_text_Wf st1 p s e W1 He)|].
    intros q y Hy. exists (update p (Docx.rewritten (fresh st1) s) y).
    split; [apply (set_text_find st1 p s e W1 He q y Hy)|].
    split; [now apply tag_update|]. split.
    + intros Hq. apply Paragraph_text_update; try reflexivity.
      * apply find_in_Some in Hy as [_ Ey]. congruence.
      * now apply (I q).
    + intros Hq t _. apply children_update; try reflexivity.
      apply find_in_Some in Hy as [_ Ey]. congruence.
  - set (st1 := called (text_to_translate text) st) in *.
    set (new := translation_paragraph (fresh st) e (Re.sub_numbering (Py.strip r))) in *.
    assert (W1 : Wf st1) by exact st_wf.
    assert (ND : NoDup (ids new)) by apply (new_distinct (fresh st) e _ Hd Ho).
    assert (NR : forall i, In i (ids new) -> fresh st <= i < 2 + fresh st + fresh st)
      by apply (new_range (fresh st) e _ Hd Ho).
    assert (NF : Forall (fun i => fresh st1 <= i) (ids new)).
    { apply Forall_forall. intros i Hi'. now apply NR in Hi'. }
    assert (NT : tag new = "w:p") by (unfold new; now rewrite new_tag).
    split.
    + apply (insert_Wf st1 st2 p new W1 ND NF Hi).
      apply Forall_forall. intros i Hi'. apply NR in Hi'. cbn [fresh st1 called]. lia.
    + intros q y Hy. exists (graft p new y).
      split; [apply (insert_find st1 st2 p new W1 ND NF Hi q y Hy)|].
      split; [apply tag_graft|]. split.
      * intros _. now apply Paragraph_text_graft.
      * intros _ t Hne. now apply children_graft.
  - split; [exact st_wf|]. intros q y Hy. exists y. repeat split; auto.
Qed.

Lemma translated_Wf : Wf (translate_paragraph_element translator p st).
Proof.
  destruct translated_cases as [->|[e [He [Te O]]]]; [exact st_wf|].
  apply (translated_state _ e He Te O).
Qed.

Lemma translated_find (q : nat) (y : elem) :
  find_in q (trees st) = Some y ->
  exists y', find_in q (trees (translate_paragraph_element translator p st)) = Some y'
    /\ tag y' = tag y
    /\ (q <> p -> Docx.Paragraph_text y' = Docx.Paragraph_text y)
    /\ (q <> p -> forall t, t <> "w:p" ->
        map nid (filter (has_tag t) (kids y'))
        = map nid (filter (has_tag t) (kids y))).
Proof.
  intros Hy. destruct translated_cases as [->|[e [He [Te O]]]].
  - exists y. repeat split; auto.
  - now apply (proj2 (translated_state _ e He Te O)).
Qed.

Lemma translated_text (q : nat) :
  q <> p -> is_paragraph q st = true ->
  Docx.text_of q (translate_paragraph_element translator p st) = Docx.text_of q st.
Proof.
  intros Hq Hp. destruct (is_paragraph_find q st Hp) as [y [Hy _]].
  destruct (translated_find q y Hy) as [y' [Hy' [_ [T _]]]].
  unfold Docx.text_of. rewrite Hy', Hy. now apply T.
Qed.

Lemma translated_is_paragraph (q : nat) :
  is_paragraph q st = true ->
  is_paragraph q (translate_paragraph_element translator p st) = true.
Proof.
  intros Hp. destruct (is_paragraph_find q st Hp) as [y [Hy Ty]].
  destruct (translated_find q y Hy) as [y' [Hy' [Ty' _]]].
  apply (find_is_paragraph q _ y' Hy'). congruence.
Qed.

Lemma translated_children (t : string) (q : nat) (y : elem) :
  q <> p -> t <> "w:p" -> find_in q (trees st) = Some y ->
  Docx.children t q (translate_paragraph_element translator p st)
  = Docx.children t q st.
Proof.
  intros Hq Ht Hy. unfold Docx.children.
  destruct (translated_find q y Hy) as [y' [Hy' [_ [_ C]]]].
  rewrite Hy', Hy. now apply C.
Qed.

End Translated.

(** ** A header-style paragraph *)

Lemma is_header_colon_nonempty (text : Py.str) :
  is_header_colon text = true -> text <> [].
Proof.
  unfold is_header_colon. intros H. apply orb_true_iff in H as [H|H];
    apply endswith_iff in H as [pre ->]; now destruct pre.
Qed.

(** C4.  For a paragraph of a well-formed document whose trimmed text ends
    in a fullwidth or ASCII colon, once the translator has answered, the
    paragraph's text is the trimmed text without its trailing colons, then
    the trimmed translation in parentheses, then an ASCII colon; and the
    children of its parent, of every tag, are the same elements as before
    (so no node is inserted). *)
Theorem C4_header_is_glossed_in_place
  (translator : nat -> Py.str -> option Py.str)
  (p parent : nat) (st : state) (translation : Py.str) :
  let text := Py.strip (Docx.text_of p st) in
  well_formed st = true ->
  In p (Docx.children "w:p" parent st) ->
  is_header_colon text = true ->
  translator (calls st) (text_to_translate text) = Some translation ->
  let st' := translate_paragraph_element translator p st in
  Docx.text_of p st'
  = text_to_translate text ++ u"(" ++ Py.strip translation ++ u"):"
  /\ (forall t, Docx.children t parent st' = Docx.children t parent st)
  /\ out st' = out st ++ [Translate (text_to_translate text)].
Proof.
  intros text Hwf Hp Hh Ht st'. apply well_formed_Wf in Hwf.
  destruct (child_find _ _ _ _ Hwf Hp) as [e [He Te]].
  destruct (children_find _ _ _ _ Hp) as [y [_ [Hy _]]].
  assert (Hne := is_header_colon_nonempty text Hh).
  assert (E : st' = Docx.set_text p
                      (text_to_translate text ++ u"(" ++ Py.strip translation ++ u"):")
                      (called (text_to_translate text) st)).
  { unfold st', translate_paragraph_element. unfold text, Docx.text_of in *.
    rewrite He in *. now rewrite (is_empty_false _ Hne), Ht, Hh. }
  rewrite E. repeat split.
  - apply (text_of_set_text p _ (called (text_to_translate text) st) e He).
  - intros t.
    apply (set_text_children (called (text_to_translate text) st) p _ e Hwf He t parent y);
      [apply (child_other _ _ _ _ Hwf Hp) | exact Hy].
  - unfold Docx.set_text. cbn [trees called]. now rewrite He.
Qed.

Lemma C4_header_is_glossed_in_place_witness :
  let st' := translate_paragraph_element (Sample.answers u" Conclusion ") 10
               Sample.conclusion in
  Docx.text_of 10 st' = u"结论" ++ u"(" ++ u"Conclusion" ++ u"):"
  /\ (forall t, Docx.children t 0 st' = Docx.children t 0 Sample.conclusion)
  /\ out st' = [Translate u"结论"].
Proof.
  apply (C4_header_is_glossed_in_place (Sample.answers u" Conclusion ") 10 0
           Sample.conclusion u" Conclusion "); try reflexivity.
  simpl. now left.
Defined.

(** ** A paragraph that is not header-style *)

(** What the code does for such a paragraph of a well-formed document: the
    new paragraph is put right after the original among the paragraphs of
    its parent, it reads as the cleaned translation, and the original
    element is what it was. *)
Lemma plain_paragraph_translation
  (translator : nat -> Py.str -> option Py.str)
  (p parent : nat) (st : state) (e : elem) (translation : Py.str) :
  let text := Py.strip (Docx.Paragraph_text e) in
  let new := translation_paragraph (fresh st) e
               (Re.sub_numbering (Py.strip translation)) in
  Wf st ->
  In p (Docx.children "w:p" parent st) ->
  find_in p (trees st) = Some e ->
  text <> [] ->
  is_header_colon text = false ->
  translator (calls st) (text_to_translate text) = Some translation ->
  let st' := translate_paragraph_element translator p st in
  Docx.children "w:p" parent st'
  = flat_map (fun i => if Nat.eqb i p then [i; nid new] else [i])
             (Docx.children "w:p" parent st)
  /\ find_in p (trees st') = Some e
  /\ find_in (nid new) (trees st') = Some new
  /\ Docx.text_of (nid new) st' = Re.sub_numbering (Py.strip translation).
Proof.
  intros text new Hwf Hp He Hne Hh Ht st'.
  destruct (child_find _ _ _ _ Hwf Hp) as [e' [He' Te]].
  assert (e' = e) by congruence. subst e'.
  destruct (children_find _ _ _ _ Hp) as [y [_ [Hy _]]].
  destruct (child_parent _ _ _ _ Hp) as [[P HP] _].
  destruct (Wf_found st p e Hwf He) as [Hd Ho].
  set (st1 := called (text_to_translate text) st).
  assert (W1 : Wf st1) by exact Hwf.
  assert (ND : NoDup (ids new)) by apply (new_distinct (fresh st) e _ Hd Ho).
  assert (NF : Forall (fun i => fresh st1 <= i) (ids new)).
  { apply Forall_forall. intros i Hi. now apply (new_range (fresh st) e _ Hd Ho) in Hi. }
  assert (NT : tag new = "w:p") by (unfold new; now rewrite new_tag).
  assert (Hi : Docx.insert_next p new st1 = Some (set_trees (map (graft p new) (trees st1)) st1)).
  { unfold Docx.insert_next. cbn [trees st1 called]. now rewrite HP. }
  assert (E : st' = alloc (2 + fresh st) (set_trees (map (graft p new) (trees st1)) st1)).
  { unfold st', translate_paragraph_element. rewrite He. fold text.
    rewrite (is_empty_false _ Hne), Ht, Hh. fold st1. cbn [fresh st1 called].
    fold new. now rewrite Hi. }
  rewrite E. unfold Docx.children, Docx.text_of. cbn [trees alloc set_trees].
  assert (Fp := insert_find st1 _ p new W1 ND NF Hi p e He).
  assert (Fy := insert_find st1 _ p new W1 ND NF Hi parent y Hy).
  assert (Fn := insert_find_new st1 _ p new W1 ND NF Hi).
  cbn [trees set_trees] in Fp, Fy, Fn. repeat split.
  - rewrite Fy, Hy. apply (paragraphs_graft p new NT).
    apply find_in_Some in Hy as [Hy _]. apply (Wf_inert st p e y Hwf He Te Hy).
  - rewrite Fp. f_equal. apply graft_root.
    rewrite ids_unfold in Hd. apply NoDup_cons_iff in Hd as [Hd _].
    apply find_in_Some in He as [_ <-]. exact Hd.
  - exact Fn.
  - rewrite Fn. apply Paragraph_text_translation.
Qed.

(** C3 fails on the copy: every child whose tag ends in [r] is taken out of
    it, and [w:pPr] is such a tag, so the inserted paragraph has lost the
    formatting properties of the original.  Here the paragraph [10] (a
    [w:pPr] and a run) is translated to "1. Hello": paragraph [110] is
    inserted after it and reads "Hello", the original keeps its two children,
    and the only child of the inserted paragraph is the new run. *)
Lemma C3_inserted_copy_loses_formatting :
  let st' := translate_paragraph_element (Sample.answers u"1. Hello") 10
               Sample.greeting in
  Docx.children "w:p" 0 st' = [10; 110]
  /\ Docx.text_of 110 st' = u"Hello"
  /\ option_map (fun e => map tag (kids e)) (find_in 10 (trees st'))
     = Some ["w:pPr"; "w:r"]
  /\ option_map (fun e => map tag (kids e)) (find_in 110 (trees st'))
     = Some ["w:r"].
Proof. repeat split. Qed.

(** ** A second pass of the merger *)

(** *** The text of a paragraph that was merged into *)

Lemma drop_while_app (f : Py.char -> bool) (a b : Py.str) :
  Py.drop_while f (a ++ b)
  = if forallb f a then Py.drop_while f b else Py.drop_while f a ++ b.
Proof.
  induction a as [|c a IH]; simpl; [reflexivity|].
  destruct (f c); simpl; [exact IH | reflexivity].
Qed.

Lemma drop_while_idem (f : Py.char -> bool) (s : Py.str) :
  Py.drop_while f (Py.drop_while f s) = Py.drop_while f s.
Proof. apply drop_while_stops, drop_while_is_stopped. Qed.

Lemma drop_while_all_nil (f : Py.char -> bool) (s : Py.str) :
  forallb f s = true -> Py.drop_while f s = [].
Proof.
  intros H. rewrite <- (app_nil_r s). now rewrite (drop_while_all f s [] H).
Qed.

Lemma forallb_rev {A : Type} (f : A -> bool) (l : list A) :
  forallb f (rev l) = forallb f l.
Proof.
  destruct (forallb f l) eqn:E.
  - apply forallb_forall. intros a Ha. apply in_rev in Ha.
    now apply (proj1 (forallb_forall f l) E).
  - destruct (forallb f (rev l)) eqn:E'; [|reflexivity].
    rewrite <- E. symmetry. apply forallb_forall. intros a Ha.
    apply (proj1 (forallb_forall f (rev l)) E'). now apply -> in_rev.
Qed.

Lemma rstrip_idem (s : Py.str) : Py.rstrip (Py.rstrip s) = Py.rstrip s.
Proof. unfold Py.rstrip. now rewrite rev_involutive, drop_while_idem. Qed.

Lemma rstrip_all (s : Py.str) : forallb Py.isspace s = true -> Py.rstrip s = [].
Proof.
  intros H. unfold Py.rstrip. rewrite drop_while_all_nil; [reflexivity|].
  now rewrite forallb_rev.
Qed.

(** What follows a text that does not end in whitespace is trimmed on its
    own. *)
Lemma rstrip_app (z x : Py.str) :
  Py.rstrip z <> [] -> Py.rstrip (Py.rstrip z ++ x) = Py.rstrip z ++ Py.rstrip x.
Proof.
  intros Hz. unfold Py.rstrip at 1. rewrite rev_app_distr, drop_while_app.
  destruct (forallb Py.isspace (rev x)) eqn:E.
  - rewrite forallb_rev in E. rewrite (rstrip_all x E), app_nil_r.
    unfold Py.rstrip. now rewrite rev_involutive, drop_while_idem.
  - rewrite rev_app_distr, rev_involutive. reflexivity.
Qed.

Lemma forallb_false_app {A : Type} (f : A -> bool) (a b : list A) :
  forallb f a = false -> forallb f (a ++ b) = false.
Proof. intros H. now rewrite forallb_app, H. Qed.

Lemma lstrip_split (s : Py.str) :
  exists ws, s = ws ++ Py.lstrip s /\ forallb Py.isspace ws = true.
Proof.
  unfold Py.lstrip. induction s as [|c s [ws [E H]]]; simpl.
  - now exists [].
  - destruct (Py.isspace c) eqn:Ec.
    + exists (c :: ws). simpl. rewrite Ec. split; [now f_equal | exact H].
    + now exists [].
Qed.

Lemma strip_nonempty_lstrip (s : Py.str) : Py.strip s <> [] -> Py.lstrip s <> [].
Proof.
  unfold Py.strip. intros H E. rewrite E in H. now apply H.
Qed.

Lemma not_all_space (s : Py.str) : Py.rstrip s <> [] -> forallb Py.isspace s = false.
Proof.
  intros H. destruct (forallb Py.isspace s) eqn:E; [|reflexivity].
  now rewrite (rstrip_all s E) in H.
Qed.

(** With text, the beginning and the end are trimmed apart. *)
Lemma rstrip_lstrip (s : Py.str) :
  Py.strip s <> [] ->
  exists ws, Py.rstrip s = ws ++ Py.strip s /\ forallb Py.isspace ws = true.
Proof.
  intros H. destruct (lstrip_split s) as [ws [E Hws]]. exists ws. split; [|exact Hws].
  unfold Py.strip. unfold Py.rstrip at 1. rewrite E at 1.
  rewrite rev_app_distr, drop_while_app.
  rewrite forallb_rev, (not_all_space (Py.lstrip s) H).
  rewrite rev_app_distr, rev_involutive. reflexivity.
Qed.

Lemma strip_head (s : Py.str) :
  Py.strip s <> [] -> exists c r, Py.strip s = c :: r /\ Py.isspace c = false.
Proof.
  intros H. assert (S := strip_stops s).
  destruct (Py.strip s) as [|c r]; [contradiction|]. now exists c, r.
Qed.

(** The trimmed text after a merge: the trimmed text before it, then what
    was added, trimmed at its end. *)
Lemma strip_joined (a x : Py.str) :
  Py.strip a <> [] -> Py.strip (Py.rstrip a ++ x) = Py.strip a ++ Py.rstrip x.
Proof.
  intros H. destruct (rstrip_lstrip a H) as [ws [E Hws]].
  destruct (strip_head a H) as [c [r [Ec Hc]]].
  assert (L : Py.lstrip (Py.rstrip a ++ x) = Py.strip a ++ x).
  { rewrite E, <- app_assoc. unfold Py.lstrip.
    rewrite (drop_while_all _ ws _ Hws), Ec. simpl. now rewrite Hc. }
  unfold Py.strip at 1. rewrite L. unfold Py.strip.
  apply rstrip_app. exact H.
Qed.

(** The trimmed text does not end in whitespace. *)
Lemma strip_last (s : Py.str) : stops Py.isspace (rev (Py.strip s)).
Proof.
  unfold Py.strip, Py.rstrip. rewrite rev_involutive. apply drop_while_is_stopped.
Qed.

(** *** The numeric marker on a trimmed text *)

Lemma match_number_trimmed (w : Py.str) :
  stops Py.isspace w ->
  Re.match_number w =
  match w with
  | [] => false
  | c :: _ =>
    Py.isdecimal c &&
    match Py.drop_while Py.isdecimal w with
    | [] => true
    | d :: _ => Re.is_dot d || Re.at_end (Py.drop_while Py.isdecimal w)
    end
  end.
Proof. intros H. unfold Re.match_number. now rewrite (drop_while_stops _ _ H). Qed.

Lemma drop_while_none {A : Type} (f : Py.char -> bool) (s : Py.str) :
  Py.drop_while f s = [] -> forallb f s = true.
Proof.
  induction s as [|c s IH]; simpl; [reflexivity|].
  destruct (f c); [exact IH | discriminate].
Qed.

Lemma space_newline : Py.isspace 10%N = true.
Proof. reflexivity. Qed.

(** A trimmed text that matches the marker is digits and a dot, or digits
    only. *)
Lemma match_number_cases (s : Py.str) :
  Re.match_number (Py.strip s) = true ->
  dotted (Py.strip s) = true \/ forallb Py.isdecimal (Py.strip s) = true.
Proof.
  rewrite (match_number_trimmed _ (strip_stops s)).
  assert (L := strip_last s). unfold dotted.
  destruct (Py.strip s) as [|c w] eqn:E; [discriminate|].
  intros H. apply andb_true_iff in H as [Hc H]. rewrite Hc.
  destruct (drop_while_suffix Py.isdecimal (c :: w)) as [pre Hpre].
  destruct (Py.drop_while Py.isdecimal (c :: w)) as [|d v] eqn:D.
  - right. now apply (drop_while_none (A := nat)).
  - left. apply orb_true_iff in H as [H|H]; [now rewrite H|].
    exfalso. destruct v as [|? ?]; [|destruct d; discriminate].
    simpl in H. apply N.eqb_eq in H. subst d.
    rewrite Hpre, rev_app_distr in L. simpl in L. discriminate.
Qed.

Lemma dotted_match (w : Py.str) :
  stops Py.isspace w -> dotted w = true -> Re.match_number w = true.
Proof.
  intros S. rewrite (match_number_trimmed w S). unfold dotted.
  destruct w as [|c w]; [discriminate|].
  destruct (Py.drop_while Py.isdecimal (c :: w)) as [|d v]; [discriminate|].
  intros H. apply andb_true_iff in H as [-> ->]. reflexivity.
Qed.

Lemma dot_no_digit (d : Py.char) : Re.is_dot d = true -> Py.isdecimal d = false.
Proof. unfold Re.is_dot. intros H. apply N.eqb_eq in H. now subst d. Qed.

(** Digits and a dot stay at the head of a text that grows. *)
Lemma dotted_app (w x : Py.str) : dotted w = true -> dotted (w ++ x) = true.
Proof.
  unfold dotted. destruct w as [|c w]; [discriminate|]. cbn [app].
  destruct (drop_while_suffix Py.isdecimal (c :: w)) as [pre Hpre].
  destruct (Py.drop_while Py.isdecimal (c :: w)) as [|d v] eqn:D; [discriminate|].
  intros H. apply andb_true_iff in H as [Hc Hd].
  change (c :: w ++ x) with ((c :: w) ++ x).
  rewrite drop_while_app.
  destruct (forallb Py.isdecimal (c :: w)) eqn:F.
  - exfalso. rewrite (drop_while_all_nil _ _ F) in D. discriminate.
  - rewrite D. cbn [app]. now rewrite Hc, Hd.
Qed.

(** *** Pairs that are not merged *)

Lemma chain_impl (R R' : nat -> nat -> Prop) (r : list nat) :
  (forall a b, In a r -> In b r -> R a b -> R' a b) -> chain R r -> chain R' r.
Proof.
  induction r as [|b r IH]; [intros _ _; exact I|].
  intros H [H1 H2]. split.
  - destruct r as [|a r]; [exact I|]. apply H; [right; now left | now left | exact H1].
  - apply IH; [|exact H2]. intros a c Ha Hc. apply H; now right.
Qed.

Lemma step_quiet (curr_p : nat) (m : merging) :
  quiet (doc m) (last_p m) curr_p ->
  merge_step curr_p m = Merging curr_p (merged_count m) (doc m).
Proof.
  unfold quiet, quiet_texts, trimmed, merge_step. cbv zeta.
  destruct (Py.is_empty (Py.strip (Docx.text_of curr_p (doc m)))); [reflexivity|].
  destruct (Py.is_empty (Py.strip (Docx.text_of (last_p m) (doc m)))); [reflexivity|].
  cbn [orb].
  destruct (is_terminated _); [reflexivity|].
  destruct (starts_with_number _); [reflexivity|].
  destruct (last_is_header _); [reflexivity | discriminate].
Qed.

Lemma step_loud (curr_p : nat) (m : merging) :
  quiet_texts (trimmed (last_p m) (doc m)) (trimmed curr_p (doc m)) = false ->
  trimmed curr_p (doc m) <> [] /\ trimmed (last_p m) (doc m) <> []
  /\ last_is_header (trimmed (last_p m) (doc m)) = false
  /\ merge_step curr_p m =
     let st1 := Docx.set_text (last_p m)
                  (Py.rstrip (Docx.text_of (last_p m) (doc m))
                   ++ separator (trimmed (last_p m) (doc m)) (trimmed curr_p (doc m))
                   ++ Py.lstrip (trimmed curr_p (doc m))) (doc m) in
     match Docx.remove curr_p st1 with
     | Some st2 => Merging (last_p m) (S (merged_count m)) st2
     | None => Merging (last_p m) (merged_count m) (print ErrorRemovingParagraph st1)
     end.
Proof.
  unfold quiet_texts, trimmed, merge_step. cbv zeta.
  destruct (Py.strip (Docx.text_of curr_p (doc m))) as [|c1 t1] eqn:E1; [discriminate|].
  destruct (Py.strip (Docx.text_of (last_p m) (doc m))) as [|c2 t2] eqn:E2; [discriminate|].
  cbn [Py.is_empty orb].
  destruct (is_terminated _); [discriminate|].
  destruct (starts_with_number _); [discriminate|].
  destruct (last_is_header _); [discriminate|].
  intros _. repeat split; discriminate.
Qed.

Lemma last_is_header_match (text : Py.str) :
  last_is_header text = true -> Re.match_number text = true.
Proof. unfold last_is_header. intros H. now apply andb_true_iff in H. Qed.

Lemma stable_is_quiet (st : state) (a b : nat) : stable st a b -> quiet st a b.
Proof.
  unfold stable, quiet, stable_texts, quiet_texts, starts_with_number.
  destruct (Py.is_empty (trimmed b st)); [reflexivity|].
  destruct (Py.is_empty (trimmed a st)); [reflexivity|].
  destruct (is_terminated (trimmed a st)); [reflexivity|].
  destruct (last_is_header (trimmed a st)); [intros _; apply orb_true_r|].
  cbn [orb]. intros H. rewrite orb_false_r. apply orb_true_iff in H as [H|H].
  - apply dotted_match; [apply strip_stops | exact H].
  - now apply last_is_header_match.
Qed.

Lemma quiet_is_stable (st : state) (a b : nat) :
  quiet st a b -> long_number (trimmed b st) = false -> stable st a b.
Proof.
  unfold stable, quiet, stable_texts, quiet_texts, starts_with_number, trimmed.
  set (ta := Py.strip (Docx.text_of a st)).
  destruct (Py.is_empty (Py.strip (Docx.text_of b st))); [reflexivity|].
  destruct (Py.is_empty ta); [reflexivity|].
  destruct (is_terminated ta); [reflexivity|].
  destruct (last_is_header ta); [intros _ _; reflexivity|].
  cbn [orb]. rewrite orb_false_r. intros H L.
  destruct (match_number_cases _ H) as [D|D]; [now rewrite D|].
  apply orb_true_iff. right. unfold last_is_header. rewrite H. cbn [andb].
  unfold long_number in L. rewrite D in L. cbn [andb] in L.
  apply Nat.ltb_lt. apply Nat.leb_gt in L. exact L.
Qed.

(** A stable pair stays stable when text is added to its second paragraph,
    which then was no heading and had text. *)
Lemma stable_grow (last_text text x : Py.str) :
  stable_texts last_text text = true ->
  text <> [] -> last_is_header text = false ->
  stable_texts last_text (text ++ x) = true.
Proof.
  unfold stable_texts. intros H Hne Hh.
  rewrite (is_empty_false _ Hne), Hh in H.
  destruct text as [|c text]; [contradiction|]. cbn [app Py.is_empty].
  destruct (Py.is_empty last_text); [reflexivity|].
  destruct (is_terminated last_text); [reflexivity|].
  destruct (last_is_header last_text); [reflexivity|].
  cbn [orb] in *. rewrite orb_false_r in H.
  change (c :: text ++ x) with ((c :: text) ++ x).
  now rewrite (dotted_app _ x H).
Qed.

(** The loop over paragraphs whose neighbours are all quiet changes
    nothing. *)
Lemma quiet_run (r : list nat) (first n : nat) (st : state) :
  chain (quiet st) (r ++ [first]) ->
  merge_loop (rev r) (Merging first n st) = Merging (hd first r) n st.
Proof.
  induction r as [|b r IH]; [reflexivity|].
  intros [H1 H2]. cbn [rev hd]. unfold merge_loop in *.
  rewrite fold_left_app. cbn [fold_left]. rewrite (IH H2).
  apply step_quiet. cbn [doc last_p].
  destruct r as [|a r]; exact H1.
Qed.

(** *** The first pass *)

Lemma NoDup_roots (l : list elem) : NoDup (ids_of l) -> NoDup (map nid l).
Proof.
  induction l as [|k l IH]; [intros _; constructor|].
  rewrite ids_of_cons. intros H. cbn [map]. constructor.
  - intros Hin. apply in_map_iff in Hin as [c [E Hc]].
    apply (NoDup_app_disjoint _ _ _ H (ids_root k)).
    apply in_flat_map. exists c. split; [exact Hc|]. rewrite <- E. apply ids_root.
  - apply IH. now apply NoDup_app_remove_l in H.
Qed.

Lemma NoDup_children (t : string) (q : nat) (st : state) :
  Wf st -> NoDup (Docx.children t q st).
Proof.
  intros [Hnd _]. unfold Docx.children.
  destruct (find_in q (trees st)) as [y|] eqn:E; [|constructor].
  apply find_in_Some in E as [Hy _].
  apply NoDup_roots, NoDup_ids_of_filter.
  assert (N := NoDup_node _ y Hnd Hy). rewrite ids_unfold in N.
  now apply NoDup_cons_iff in N.
Qed.

Lemma filter_other_all (c : nat) (l : list nat) :
  ~ In c l -> filter (other c) l = l.
Proof.
  intros H. apply filter_id_in. intros a Ha. unfold other.
  apply negb_true_iff, Nat.eqb_neq. intros E. apply H. now subst.
Qed.

Lemma filter_other_one (c : nat) (l1 l2 : list nat) :
  NoDup (l1 ++ c :: l2) -> filter (other c) (l1 ++ c :: l2) = l1 ++ l2.
Proof.
  intros H. assert (H' := NoDup_remove_2 _ _ _ H).
  rewrite filter_app. cbn [filter]. unfold other at 2. rewrite Nat.eqb_refl. cbn [negb].
  rewrite !filter_other_all; [reflexivity | |];
    intros Hin; apply H'; apply in_or_app; auto.
Qed.

Lemma trimmed_print (m : message) (p : nat) (st : state) :
  trimmed p (print m st) = trimmed p st.
Proof. reflexivity. Qed.

Section Pass.
Variable d : document.

(** What holds before each turn of the loop of the first pass: [r] lists
    backwards the paragraphs retained so far, [last_p] first, and [ps] the
    paragraphs still to come. *)
Record inv (m : merging) (r ps : list nat) : Prop := Inv {
  inv_wf : Wf (doc m);
  inv_kids : Docx.children "w:p" (body d) (doc m) = rev r ++ ps;
  inv_last : hd_error r = Some (last_p m);
  inv_chain : chain (stable (doc m)) r;
  inv_short : Forall (fun p => long_number (trimmed p (doc m)) = false) ps }.

Lemma inv_step (m : merging) (r ps : list nat) (curr_p : nat) :
  inv m r (curr_p :: ps) -> exists r', inv (merge_step curr_p m) r' ps.
Proof.
  intros [Hwf Hk Hl Hc Hs].
  destruct r as [|last r0]; [discriminate|]. injection Hl as Hl. subst last.
  set (last := last_p m) in *. set (st := doc m) in *.
  assert (ND := NoDup_children "w:p" (body d) st Hwf). rewrite Hk in ND.
  assert (Hin : forall x, In x (rev (last :: r0) ++ curr_p :: ps) ->
                          In x (Docx.children "w:p" (body d) st))
    by (intros x Hx; now rewrite Hk).
  assert (Hlast : In last (rev (last :: r0) ++ curr_p :: ps)).
  { apply in_or_app. left. apply -> in_rev. now left. }
  assert (Hcurr : In curr_p (rev (last :: r0) ++ curr_p :: ps)).
  { apply in_or_app. right. now left. }
  apply Forall_cons_iff in Hs as [Hs0 Hs].
  destruct (quiet_texts (trimmed last st) (trimmed curr_p st)) eqn:Q.
  - (* the pair is left alone *)
    rewrite (step_quiet curr_p m Q). exists (curr_p :: last :: r0).
    split; cbn [doc last_p]; fold st.
    + exact Hwf.
    + rewrite Hk. cbn [rev]. now rewrite <- !app_assoc.
    + reflexivity.
    + split; [|exact Hc]. now apply quiet_is_stable.
    + exact Hs.
  - (* the pair is merged *)
    destruct (step_loud curr_p m Q) as [Ht [Hlt [Hh E]]]. fold st in Ht, Hlt, Hh, E.
    rewrite E. clear E.
    set (joined := Py.rstrip (Docx.text_of last st)
                   ++ separator (trimmed last st) (trimmed curr_p st)
                   ++ Py.lstrip (trimmed curr_p st)).
    cbv zeta. set (st1 := Docx.set_text last joined st).
    destruct (child_find _ _ _ _ Hwf (Hin _ Hlast)) as [a [Ha Ta]].
    destruct (child_find _ _ _ _ Hwf (Hin _ Hcurr)) as [c [Hc' Tc]].
    destruct (children_find _ _ _ _ (Hin _ Hcurr)) as [y [_ [Hy _]]].
    assert (Hb : body d <> last) by apply (child_other _ _ _ _ Hwf (Hin _ Hlast)).
    assert (W1 : Wf st1) by apply (set_text_Wf st last joined a Hwf Ha).
    assert (K1 : Docx.children "w:p" (body d) st1 = rev (last :: r0) ++ curr_p :: ps).
    { unfold st1. rewrite (set_text_children st last joined a Hwf Ha "w:p" (body d) y Hb Hy).
      exact Hk. }
    assert (HB1 : In curr_p (Docx.children "w:p" (body d) st1))
      by (rewrite K1; exact Hcurr).
    destruct (remove_child st1 (body d) curr_p "w:p" HB1) as [st2 Hrm].
    assert (Hrm' := Hrm). unfold st1, joined, last in Hrm'. rewrite Hrm'. clear Hrm'.
    assert (P1 : is_paragraph curr_p st1 = true).
    { apply (set_text_is_paragraph st last joined a Hwf Ha).
      apply (find_is_paragraph curr_p st c Hc' Tc). }
    assert (T1 : forall x, In x (rev (last :: r0) ++ curr_p :: ps) -> x <> last ->
                           trimmed x st2 = trimmed x st).
    { intros x Hx Hne. destruct (child_find _ _ _ _ Hwf (Hin _ Hx)) as [k [Hk' _]].
      unfold trimmed. f_equal.
      rewrite (remove_text st1 st2 curr_p W1 Hrm P1 x _
                 (set_text_find st last joined a Hwf Ha x k Hk')).
      apply (set_text_other st last joined a Hwf Ha Ta x k Hne Hk'). }
    assert (T2 : trimmed last st2
                 = trimmed last st
                   ++ Py.rstrip (separator (trimmed last st) (trimmed curr_p st)
                                 ++ Py.lstrip (trimmed curr_p st))).
    { unfold trimmed at 1.
      rewrite (remove_text st1 st2 curr_p W1 Hrm P1 last _
                 (set_text_find st last joined a Hwf Ha last a Ha)).
      unfold st1. rewrite (set_text_same st last joined a Hwf Ha).
      unfold joined. now apply strip_joined. }
    assert (NDr : NoDup (last :: r0)).
    { apply NoDup_app_remove_r in ND. apply NoDup_rev in ND.
      now rewrite rev_involutive in ND. }
    assert (Hr0 : forall x, In x r0 -> In x (rev (last :: r0) ++ curr_p :: ps) /\ x <> last).
    { intros x Hx. split.
      - apply in_or_app. left. apply -> in_rev. now right.
      - apply NoDup_cons_iff in NDr as [N _]. intros ->. contradiction. }
    exists (last :: r0). split; cbn [doc last_p].
    + apply (remove_Wf st1 st2 curr_p W1 Hrm).
    + rewrite (remove_children st1 st2 curr_p W1 Hrm "w:p" (body d) _
                 (set_text_find st last joined a Hwf Ha (body d) y Hy)).
      rewrite K1. now apply filter_other_one.
    + reflexivity.
    + destruct Hc as [Hc1 Hc2]. split.
      * destruct r0 as [|b r1]; [exact I|]. unfold stable in *.
        destruct (Hr0 b (or_introl eq_refl)) as [Hb1 Hb2].
        rewrite (T1 b Hb1 Hb2), T2. now apply stable_grow.
      * apply (chain_impl (stable st)); [|exact Hc2].
        intros x z Hx Hz. unfold stable.
        destruct (Hr0 x Hx) as [X1 X2]. destruct (Hr0 z Hz) as [Z1 Z2].
        now rewrite (T1 x X1 X2), (T1 z Z1 Z2).
    + apply Forall_forall. intros x Hx. rewrite Forall_forall in Hs.
      assert (X1 : In x (rev (last :: r0) ++ curr_p :: ps)).
      { apply in_or_app. right. now right. }
      rewrite (T1 x X1); [now apply Hs|].
      intros E. apply (NoDup_app_disjoint _ _ last ND).
      * apply -> in_rev. now left.
      * right. now rewrite <- E.
Qed.

Lemma inv_loop (ps : list nat) (m : merging) (r : list nat) :
  inv m r ps -> exists r', inv (merge_loop ps m) r' [].
Proof.
  revert m r. induction ps as [|curr_p ps IH]; intros m r H.
  - now exists r.
  - destruct (inv_step m r ps curr_p H) as [r' H']. apply (IH _ r' H').
Qed.

End Pass.

(** *** The claim *)

(** C7, as the specification states it, holds for every sequence of
    paragraphs.  A paragraph of forty digits is not merged into the paragraph
    before it (it matches the numeric marker) and, being too long for a
    heading, takes the paragraph after it; what it has become no longer
    matches the marker, and a second pass merges it into the paragraph before
    it. *)
Lemma C7_second_pass_merges_again :
  let once := merge_paragraphs Sample.the_doc Sample.forty_digits in
  let twice := merge_paragraphs Sample.the_doc once in
  well_formed Sample.forty_digits = true
  /\ Sample.body_texts once = [u"hello"; repeat 0x31%N 40 ++ u" abc"]
  /\ Sample.body_texts twice = [u"hello " ++ repeat 0x31%N 40 ++ u" abc"]
  /\ Docx.children "w:p" 0 once = [10; 20]
  /\ Docx.children "w:p" 0 twice = [10]
  /\ trees twice <> trees once.
Proof.
  repeat split; try reflexivity.
  intros H. apply (f_equal (fun l => List.length (nodes l))) in H.
  vm_compute in H. discriminate.
Qed.

Lemma forallb_Forall {A : Type} (f : A -> bool) (l : list A) :
  forallb f l = true -> Forall (fun a => f a = true) l.
Proof. intros H. apply Forall_forall. now apply forallb_forall. Qed.

(** C7, amended.  For a well-formed document in which no body paragraph has
    a trimmed text of forty or more characters that are all decimal digits,
    a second run of the merger changes nothing: the trees are those the
    first run left, no identity is handed out, and it reports no merge. *)
Theorem C7_second_merge_changes_nothing (d : document) (st : state) :
  well_formed st = true ->
  no_long_number d st = true ->
  let once := merge_paragraphs d st in
  let twice := merge_paragraphs d once in
  trees twice = trees once
  /\ fresh twice = fresh once
  /\ out twice
     = out once
       ++ match Docx.children "w:p" (body d) st with
          | [] => [Print MergingSplitParagraphs]
          | _ :: _ => [Print MergingSplitParagraphs; Print (Merged 0)]
          end.
Proof.
  intros Hwf Hshort once twice. apply well_formed_Wf in Hwf.
  unfold no_long_number in Hshort. apply forallb_Forall in Hshort.
  unfold twice, once, merge_paragraphs.
  set (st0 := print MergingSplitParagraphs st).
  change (Docx.children "w:p" (body d) st0) with (Docx.children "w:p" (body d) st).
  destruct (Docx.children "w:p" (body d) st) as [|first rest] eqn:K.
  - change (Docx.children "w:p" (body d) (print MergingSplitParagraphs st0))
      with (Docx.children "w:p" (body d) st).
    rewrite K. repeat split.
  - assert (I0 : inv d (Merging first 0 st0) [first] rest).
    { split; cbn [doc last_p].
      - exact Hwf.
      - exact K.
      - reflexivity.
      - split; exact I.
      - apply Forall_cons_iff in Hshort as [_ Hshort].
        apply (Forall_impl _ (fun p (H : negb (long_number (Py.strip (Docx.text_of p st))) = true)
                                => proj1 (negb_true_iff _) H) Hshort). }
    destruct (inv_loop d rest _ _ I0) as [r [Hw Hk Hl Hc _]].
    set (mf := merge_loop rest (Merging first 0 st0)) in *.
    set (st1 := print MergingSplitParagraphs (print (Merged (merged_count mf)) (doc mf))).
    change (Docx.children "w:p" (body d) st1)
      with (Docx.children "w:p" (body d) (doc mf)).
    rewrite Hk, app_nil_r.
    destruct (rev r) as [|first' rest'] eqn:R.
    { exfalso. apply (f_equal (@rev nat)) in R. rewrite rev_involutive in R.
      rewrite R in Hl. discriminate. }
    assert (Er : r = rev rest' ++ [first']).
    { rewrite <- (rev_involutive r), R. reflexivity. }
    assert (Q : chain (quiet st1) (rev rest' ++ [first'])).
    { rewrite <- Er. apply (chain_impl (stable (doc mf))); [|exact Hc].
      intros a b _ _ S. exact (stable_is_quiet (doc mf) a b S). }
    assert (L : merge_loop rest' (Merging first' 0 st1)
                = Merging (hd first' (rev rest')) 0 st1).
    { rewrite <- (rev_involutive rest') at 1. apply quiet_run, Q. }
    rewrite L. cbn [doc merged_count]. repeat split.
    unfold st1. cbn [out print emit]. now rewrite <- !app_assoc.
Qed.

Lemma C7_second_merge_changes_nothing_witness :
  let once := merge_paragraphs Sample.the_doc Sample.scenario in
  let twice := merge_paragraphs Sample.the_doc once in
  trees twice = trees once
  /\ fresh twice = fresh once
  /\ out twice = out once ++ [Print MergingSplitParagraphs; Print (Merged 0)].
Proof.
  apply (C7_second_merge_changes_nothing Sample.the_doc Sample.scenario); reflexivity.
Defined.

(** ** The order of the translation calls *)

Lemma preserves_refl (st : state) : preserves st st.
Proof. intros q y H. exists y. auto. Qed.

Lemma preserves_trans (st1 st2 st3 : state) :
  preserves st1 st2 -> preserves st2 st3 -> preserves st1 st3.
Proof.
  intros H1 H2 q y Hy.
  destruct (H1 q y Hy) as [y' [Hy' [T1 C1]]].
  destruct (H2 q y' Hy') as [y'' [Hy'' [T2 C2]]].
  exists y''. split; [exact Hy''|]. split; [congruence|].
  intros Hn t Ht. rewrite C2; [now apply C1 | congruence | exact Ht].
Qed.

Lemma preserves_same (st st' st'' : state) :
  trees st'' = trees st' -> preserves st st' -> preserves st st''.
Proof. intros E H q y Hy. rewrite E. now apply H. Qed.

Lemma preserves_is_paragraph (st st' : state) (q : nat) :
  preserves st st' -> is_paragraph q st = true -> is_paragraph q st' = true.
Proof.
  intros K H. destruct (is_paragraph_find q st H) as [y [Hy Ty]].
  destruct (K q y Hy) as [y' [Hy' [T _]]].
  apply (find_is_paragraph q st' y' Hy'). congruence.
Qed.

Lemma preserves_children (st st' : state) (t : string) (q : nat) (y : elem) :
  preserves st st' -> find_in q (trees st) = Some y -> tag y <> "w:p" -> t <> "w:p" ->
  Docx.children t q st' = Docx.children t q st.
Proof.
  intros K Hy Ty Ht. destruct (K q y Hy) as [y' [Hy' [_ C]]].
  unfold Docx.children. rewrite Hy', Hy. now apply C.
Qed.

Section Processed.
Variable translator : nat -> Py.str -> option Py.str.

Lemma preserves_translate (p : nat) (st : state) :
  Wf st -> is_paragraph p st = true ->
  preserves st (translate_paragraph_element translator p st).
Proof.
  intros Hwf Hp q y Hy.
  destruct (translated_find translator st p Hwf Hp q y Hy) as [y' [Hy' [T [_ C]]]].
  exists y'. split; [exact Hy'|]. split; [exact T|].
  intros Hn. apply C. intros ->.
  destruct (is_paragraph_find p st Hp) as [e [He Te]]. congruence.
Qed.

Lemma process_paragraph_cases (p : nat) (st : state) :
  (Py.strip (Docx.text_of p st) = [] /\ process_paragraph translator p st = st)
  \/ (Py.strip (Docx.text_of p st) <> []
      /\ process_paragraph translator p st
         = sleep (translate_paragraph_element translator p st)).
Proof.
  unfold process_paragraph.
  destruct (Py.strip (Docx.text_of p st)) as [|c s]; [left | right]; split;
    try reflexivity; discriminate.
Qed.

Lemma process_Wf (p : nat) (st : state) :
  Wf st -> is_paragraph p st = true -> Wf (process_paragraph translator p st).
Proof.
  intros Hwf Hp. destruct (process_paragraph_cases p st) as [[_ ->]|[_ ->]];
    [exact Hwf|]. apply Wf_sleep. now apply translated_Wf.
Qed.

Lemma process_preserves (p : nat) (st : state) :
  Wf st -> is_paragraph p st = true -> preserves st (process_paragraph translator p st).
Proof.
  intros Hwf Hp. destruct (process_paragraph_cases p st) as [[_ ->]|[_ ->]];
    [apply preserves_refl|].
  apply (preserves_same st (translate_paragraph_element translator p st)); [reflexivity|].
  now apply preserves_translate.
Qed.

Lemma process_text (p q : nat) (st : state) :
  Wf st -> is_paragraph p st = true -> q <> p -> is_paragraph q st = true ->
  Docx.text_of q (process_paragraph translator p st) = Docx.text_of q st.
Proof.
  intros Hwf Hp Hq Hpq. destruct (process_paragraph_cases p st) as [[_ ->]|[_ ->]];
    [reflexivity|].
  change (Docx.text_of q (sleep (translate_paragraph_element translator p st)))
    with (Docx.text_of q (translate_paragraph_element translator p st)).
  now apply translated_text.
Qed.

Lemma calls_of_app (a b : list event) : calls_of (a ++ b) = calls_of a ++ calls_of b.
Proof. apply flat_map_app. Qed.

Lemma outcome_calls (p : nat) (st st' : state) (e : elem) :
  outcome translator p st e st' ->
  calls_of (out st')
  = calls_of (out st) ++ [text_to_translate (Py.strip (Docx.Paragraph_text e))].
Proof.
  intros O. destruct O as [text Ht|r text Ht Hh|r st2 text Ht Hh Hi|r text Ht Hh Hi].
  - cbn [out print emit called]. now rewrite !calls_of_app, app_nil_r.
  - assert (E : out (Docx.set_text p
                       (text_to_translate text ++ u"(" ++ Py.strip r ++ u"):")
                       (called (text_to_translate text) st))
                = out (called (text_to_translate text) st)).
    { unfold Docx.set_text. now destruct (find_in p _). }
    rewrite E. cbn [out called]. now rewrite calls_of_app.
  - unfold Docx.insert_next in Hi. destruct (parent_in p _); [|discriminate].
    injection Hi as <-. cbn [out alloc set_trees called]. now rewrite calls_of_app.
  - cbn [out print emit called]. now rewrite !calls_of_app, app_nil_r.
Qed.

Lemma process_calls (p : nat) (st : state) :
  calls_of (out (process_paragraph translator p st))
  = calls_of (out st) ++ requests [p] st.
Proof.
  unfold requests. cbn [map filter].
  destruct (process_paragraph_cases p st) as [[E ->]|[E ->]].
  - rewrite E. cbn. now rewrite app_nil_r.
  - rewrite (is_empty_false _ E). cbn [negb map].
    cbn [out sleep emit]. rewrite calls_of_app. cbn [calls_of flat_map]. rewrite app_nil_r.
    unfold Docx.text_of in *.
    destruct (find_in p (trees st)) as [e|] eqn:He; [|now contradiction E].
    apply (outcome_calls p st _ e). now apply translate_outcome.
Qed.

Lemma requests_cons (p : nat) (ps : list nat) (st : state) :
  requests (p :: ps) st = requests [p] st ++ requests ps st.
Proof.
  unfold requests. cbn [map filter].
  destruct (negb (Py.is_empty (Py.strip (Docx.text_of p st)))); reflexivity.
Qed.

Lemma requests_same (ps : list nat) (st st' : state) :
  (forall q, In q ps -> Docx.text_of q st' = Docx.text_of q st) ->
  requests ps st' = requests ps st.
Proof.
  intros H. unfold requests. do 2 f_equal. apply map_ext_in.
  intros q Hq. now rewrite (H q Hq).
Qed.

(** A list of distinct paragraphs: the state stays well formed, preserves its
    elements, and the texts sent are those of the units of the list as they
    were when the list was taken. *)
Lemma list_processed (ps : list nat) (st : state) :
  Wf st -> NoDup ps -> Forall (fun p => is_paragraph p st = true) ps ->
  let st' := process_paragraph_list translator ps st in
  Wf st' /\ preserves st st'
  /\ calls_of (out st') = calls_of (out st) ++ requests ps st.
Proof.
  revert st. induction ps as [|p ps IH]; intros st Hwf Hnd Hp.
  - cbn. split; [exact Hwf|]. split; [apply preserves_refl | now rewrite app_nil_r].
  - apply NoDup_cons_iff in Hnd as [Hnp Hnd]. apply Forall_cons_iff in Hp as [Hp Hps].
    unfold process_paragraph_list. rewrite for_each_cons.
    set (st1 := process_paragraph translator p st).
    assert (W1 : Wf st1) by now apply process_Wf.
    assert (K1 : preserves st st1) by now apply process_preserves.
    assert (P1 : Forall (fun q => is_paragraph q st1 = true) ps).
    { apply (Forall_impl _ (fun q => preserves_is_paragraph st st1 q K1) Hps). }
    destruct (IH st1 W1 Hnd P1) as [W [K C]].
    split; [exact W|]. split; [now apply (preserves_trans st st1)|].
    unfold process_paragraph_list in C. rewrite C, (requests_cons p ps st).
    unfold st1 at 1. rewrite process_calls, <- app_assoc. do 2 f_equal.
    apply requests_same. intros q Hq. rewrite Forall_forall in Hps.
    apply process_text; try assumption; [|now apply Hps].
    intros ->. contradiction.
Qed.

Lemma children_paragraphs (c : nat) (st : state) :
  Wf st -> Forall (fun p => is_paragraph p st = true) (Docx.children "w:p" c st).
Proof.
  intros Hwf. apply Forall_forall. intros p Hp.
  destruct (child_find _ _ _ _ Hwf Hp) as [k [Hk Tk]].
  now apply (find_is_paragraph p st k).
Qed.

Lemma visited (c : nat) (st : state) :
  Wf st ->
  Wf (visit translator c st) /\ preserves st (visit translator c st)
  /\ calls_of (out (visit translator c st))
     = calls_of (out st) ++ requests (Docx.children "w:p" c st) st.
Proof.
  intros Hwf. apply (list_processed _ st Hwf).
  - now apply NoDup_children.
  - now apply children_paragraphs.
Qed.

Lemma visited_all (cs : list nat) (st : state) :
  Wf st ->
  Wf (visit_all translator cs st) /\ preserves st (visit_all translator cs st)
  /\ calls_of (out (visit_all translator cs st))
     = calls_of (out st) ++ calls_over translator cs st.
Proof.
  revert st. induction cs as [|c cs IH]; intros st Hwf.
  - cbn. split; [exact Hwf|]. split; [apply preserves_refl | now rewrite app_nil_r].
  - unfold visit_all. rewrite for_each_cons.
    destruct (visited c st Hwf) as [W1 [K1 C1]].
    destruct (IH _ W1) as [W [K C]].
    split; [exact W|]. split; [now apply (preserves_trans st (visit translator c st))|].
    unfold visit_all in C. rewrite C, C1. cbn [calls_over]. now rewrite <- app_assoc.
Qed.

End Processed.

(** *** The merger makes no call and keeps the tags *)

Lemma merge_step_state (curr_p : nat) (m : merging) :
  Wf (doc m) ->
  Wf (doc (merge_step curr_p m))
  /\ persists (doc m) (doc (merge_step curr_p m))
  /\ calls_of (out (doc (merge_step curr_p m))) = calls_of (out (doc m)).
Proof.
  intros Hwf.
  destruct (quiet_texts (trimmed (last_p m) (doc m)) (trimmed curr_p (doc m))) eqn:Q.
  - rewrite (step_quiet curr_p m Q). cbn [doc].
    split; [exact Hwf|]. split; [|reflexivity]. intros q y H. now exists y.
  - destruct (step_loud curr_p m Q) as [_ [Hl [_ E]]]. rewrite E. clear E. cbv zeta.
    destruct (text_of_nonempty _ _ Hl) as [a Ha].
    set (joined := Py.rstrip _ ++ _). set (st1 := Docx.set_text (last_p m) joined (doc m)).
    assert (W1 : Wf st1) by apply (set_text_Wf (doc m) (last_p m) joined a Hwf Ha).
    assert (P1 : persists (doc m) st1).
    { intros q y Hy. eexists.
      split; [apply (set_text_find (doc m) (last_p m) joined a Hwf Ha q y Hy)|].
      now apply tag_update. }
    assert (O1 : out st1 = out (doc m))
      by apply (set_text_out (doc m) (last_p m) joined a Ha).
    destruct (Docx.remove curr_p st1) as [st2|] eqn:R; cbn [doc].
    + split; [apply (remove_Wf st1 st2 curr_p W1 R)|]. split.
      * intros q y Hy. destruct (P1 q y Hy) as [y' [Hy' T]]. eexists.
        split; [apply (remove_find st1 st2 curr_p W1 R q y' Hy')|].
        now rewrite tag_prune.
      * now rewrite (remove_out st1 st2 curr_p R), O1.
    + split; [exact W1|]. split; [exact P1|].
      cbn [out print emit]. rewrite calls_of_app, O1. cbn. now rewrite app_nil_r.
Qed.

Lemma merge_loop_state (ps : list nat) (m : merging) :
  Wf (doc m) ->
  Wf (doc (merge_loop ps m))
  /\ persists (doc m) (doc (merge_loop ps m))
  /\ calls_of (out (doc (merge_loop ps m))) = calls_of (out (doc m)).
Proof.
  revert m. induction ps as [|p ps IH]; intros m Hwf.
  - split; [exact Hwf|]. split; [|reflexivity]. intros q y H. now exists y.
  - destruct (merge_step_state p m Hwf) as [W1 [P1 C1]].
    destruct (IH _ W1) as [W [P C]]. unfold merge_loop in *. cbn [fold_left].
    split; [exact W|]. split; [|congruence].
    intros q y Hy. destruct (P1 q y Hy) as [y' [Hy' T']].
    destruct (P q y' Hy') as [y'' [Hy'' T'']]. exists y''. split; congruence.
Qed.

Lemma merged_state (d : document) (st : state) :
  Wf st ->
  Wf (merge_paragraphs d st)
  /\ persists st (merge_paragraphs d st)
  /\ calls_of (out (merge_paragraphs d st)) = calls_of (out st).
Proof.
  intros Hwf. unfold merge_paragraphs.
  set (st0 := print MergingSplitParagraphs st).
  assert (C0 : calls_of (out st0) = calls_of (out st)).
  { unfold st0. cbn [out print emit]. rewrite calls_of_app. cbn. now rewrite app_nil_r. }
  destruct (Docx.children "w:p" (body d) st0) as [|first rest].
  - split; [exact Hwf|]. split; [|exact C0]. intros q y H. now exists y.
  - destruct (merge_loop_state rest (Merging first 0 st0) Hwf) as [W [P C]].
    cbn [doc] in W, P, C. split; [exact W|]. split; [exact P|].
    cbn [out print emit]. rewrite calls_of_app, C, C0. cbn. now rewrite app_nil_r.
Qed.

Lemma persists_is_body (d : document) (st st' : state) :
  persists st st' -> is_body d st = true -> is_body d st' = true.
Proof.
  unfold is_body. intros P H.
  destruct (find_in (body d) (trees st)) as [y|] eqn:E; [|discriminate].
  destruct (P _ y E) as [y' [-> T]]. apply has_tag_true in H.
  apply has_tag_true. congruence.
Qed.

(** *** The loops over sections and tables *)

Lemma for_each_app {A : Type} (l1 l2 : list A) (f : A -> state -> state) (st : state) :
  for_each (l1 ++ l2) f st = for_each l2 f (for_each l1 f st).
Proof. apply fold_left_app. Qed.

Lemma for_each_kept {A : Type} (K : state -> Prop) (l : list A)
  (f : A -> state -> state) :
  (forall a s, K s -> K (f a s)) -> forall s, K s -> K (for_each l f s).
Proof.
  intros Hf. induction l as [|a l IH]; intros s Hs; [exact Hs|].
  rewrite for_each_cons. apply IH. now apply Hf.
Qed.

(** A loop whose turns are loops over lists that do not depend on the
    state is one loop over the lists put end to end. *)
Lemma for_each_flat {A : Type} (K : state -> Prop) (l : list A)
  (F : A -> state -> state) (h : A -> list nat) (f : nat -> state -> state) :
  (forall c s, K s -> K (f c s)) ->
  (forall a, In a l -> forall s, K s -> F a s = for_each (h a) f s) ->
  forall s, K s -> for_each l F s = for_each (flat_map h l) f s.
Proof.
  intros Hf. induction l as [|a l IH]; intros HF s Hs; [reflexivity|].
  rewrite for_each_cons. cbn [flat_map]. rewrite for_each_app.
  rewrite (HF a (or_introl eq_refl) s Hs). apply IH.
  - intros b Hb. apply HF. now right.
  - now apply for_each_kept.
Qed.

Section Phases.
Variable translator : nat -> Py.str -> option Py.str.
Variable d : document.

Lemma sections_visited (st : state) :
  translate_headers_footers translator d st
  = visit_all translator (section_regions d) st.
Proof.
  unfold translate_headers_footers, visit_all, section_regions.
  revert st. induction (sections d) as [|s l IH]; intros st; [reflexivity|].
  rewrite for_each_cons. cbn [flat_map app]. rewrite !for_each_cons. apply IH.
Qed.

(** The state the tables are to be read in. *)
Variable st0 : state.
Hypothesis st0_wf : Wf st0.

Let K (s : state) : Prop := Wf s /\ preserves st0 s.

Lemma K_visit (c : nat) (s : state) : K s -> K (visit translator c s).
Proof.
  intros [W P]. destruct (visited translator c s W) as [W' [P' _]].
  split; [exact W' | now apply (preserves_trans st0 s)].
Qed.

Lemma row_visited (table row : nat) (s : state) :
  In row (Docx.children "w:tr" table st0) -> K s ->
  translate_row translator row s
  = for_each (Docx.children "w:tc" row st0) (visit translator) s.
Proof.
  intros Hr [W P]. unfold translate_row.
  destruct (child_find _ _ _ _ st0_wf Hr) as [k [Hk Tk]].
  rewrite (preserves_children st0 s "w:tc" row k P Hk); [reflexivity | |discriminate].
  rewrite Tk. discriminate.
Qed.

Lemma table_visited (table : nat) (s : state) :
  In table (Docx.children "w:tbl" (body d) st0) -> K s ->
  translate_table translator table s
  = for_each (flat_map (fun row => Docx.children "w:tc" row st0)
                       (Docx.children "w:tr" table st0))
             (visit translator) s.
Proof.
  intros Ht Ks. assert (Ks' := Ks). destruct Ks' as [W P]. unfold translate_table.
  destruct (child_find _ _ _ _ st0_wf Ht) as [k [Hk Tk]].
  rewrite (preserves_children st0 s "w:tr" table k P Hk);
    [| rewrite Tk; discriminate | discriminate].
  apply (for_each_flat K); [exact K_visit | | exact Ks].
  intros row Hr s' Ks'. now apply (row_visited table).
Qed.

Hypothesis st0_body : is_body d st0 = true.

(** The nested loops over tables, rows and cells visit the cells in
    row-major order, as they are listed in [st0]. *)
Lemma tables_visited (s : state) :
  K s ->
  translate_tables translator d s
  = visit_all translator (cells_row_major d st0) s.
Proof.
  intros Ks. assert (Ks' := Ks). destruct Ks' as [W P].
  unfold translate_tables, visit_all, cells_row_major.
  unfold is_body in st0_body.
  destruct (find_in (body d) (trees st0)) as [b|] eqn:Hb; [|discriminate].
  apply has_tag_true in st0_body.
  rewrite (preserves_children st0 s "w:tbl" (body d) b P Hb);
    [| rewrite st0_body; discriminate | discriminate].
  apply (for_each_flat K); [exact K_visit | | exact Ks].
  intros table Ht s' Ks'. now apply table_visited.
Qed.

End Phases.

(** *** The loop over the text boxes *)

Lemma nodes_iter (l : list elem) (y z : elem) :
  In y (nodes l) -> In z (iter y) -> In z (nodes l).
Proof.
  intros Hy Hz. apply in_flat_map in Hy as [r [Hr Hy]]. apply in_flat_map.
  exists r. split; [exact Hr|]. clear - Hy Hz.
  induction r as [i t x ks IH] using elem_ind.
  simpl in Hy. destruct Hy as [<-|Hy]; [exact Hz|].
  apply in_flat_map in Hy as [k [Hk Hy]]. rewrite Forall_forall in IH.
  simpl. right. apply in_flat_map. exists k. split; [exact Hk | now apply IH].
Qed.

Lemma NoDup_map_filter {A B : Type} (g : A -> B) (f : A -> bool) (l : list A) :
  NoDup (map g l) -> NoDup (map g (filter f l)).
Proof.
  induction l as [|a l IH]; [intros _; constructor|].
  cbn [map filter]. intros H. apply NoDup_cons_iff in H as [H1 H2].
  destruct (f a); [|now apply IH]. cbn [map]. constructor; [|now apply IH].
  intros Hin. apply H1. apply in_map_iff in Hin as [b [E Hb]].
  apply filter_In in Hb as [Hb _]. rewrite <- E. now apply in_map.
Qed.

Lemma txbx_paragraphs_distinct (txbx : nat) (st : state) :
  Wf st ->
  NoDup (txbx_paragraphs txbx st)
  /\ Forall (fun p => is_paragraph p st = true) (txbx_paragraphs txbx st).
Proof.
  intros Hwf. unfold txbx_paragraphs.
  destruct (find_in txbx (trees st)) as [e|] eqn:E; [|split; constructor].
  apply find_in_Some in E as [He _]. split.
  - apply NoDup_map_filter. rewrite <- ids_iter.
    apply (NoDup_node _ e (proj1 Hwf) He).
  - apply Forall_forall. intros p Hp. apply in_map_iff in Hp as [k [<- Hk]].
    apply filter_In in Hk as [Hk Tk]. apply has_tag_true in Tk.
    apply (find_is_paragraph (nid k) st k); [|exact Tk].
    apply find_in_unique; [apply Hwf | now apply (nodes_iter _ e k)].
Qed.

(** Once the iterator is exhausted, more turns change nothing: a run that
    finishes is the same for every larger bound. *)
Lemma text_box_loop_fuel (translator : nat -> Py.str -> option Py.str)
  (fuel more : nat) (d : document) (next : option nat) (n : nat) (st : state) :
  snd (text_box_loop translator fuel d next n st) = true ->
  text_box_loop translator (fuel + more) d next n st
  = text_box_loop translator fuel d next n st.
Proof.
  revert next n st. induction fuel as [|fuel IH]; intros next n st.
  - discriminate.
  - cbn [Nat.add text_box_loop]. destruct next as [txbx|]; [|reflexivity]. apply IH.
Qed.

Lemma translate_and_format_fuel (translator : nat -> Py.str -> option Py.str)
  (fuel more : nat) (d : document) (st : state) :
  snd (translate_and_format translator fuel d st) = true ->
  translate_and_format translator (fuel + more) d st
  = translate_and_format translator fuel d st.
Proof.
  unfold translate_and_format, translate_text_boxes.
  set (st4 := print TranslatingTextBoxes _).
  intros H.
  assert (F := text_box_loop_fuel translator fuel more d (next_txbx d None st4) 0 st4).
  destruct (text_box_loop translator fuel d (next_txbx d None st4) 0 st4)
    as [[s n] f] eqn:E.
  cbn [snd] in H, F. now rewrite (F H).
Qed.

(** *** The body, the headers and footers, the tables *)

(** For a well-formed document, the texts sent to the translator before the
    loop over the text boxes starts are, in this order: those of the units
    of the body (the paragraphs of the body after merging that have text,
    in document order); then, for each section in turn, those of the units
    of its header and then of its footer, each listed when it is reached;
    then those of the units of the cells of the tables of the body, the
    cells taken row by row as they are after merging.  The merger sends
    nothing.  (As in the model of the script, the sections have a header
    and a footer and the tables have no merged cells.) *)
Lemma calls_before_text_boxes
  (translator : nat -> Py.str -> option Py.str) (d : document) (st : state) :
  well_formed st = true ->
  is_body d st = true ->
  let merged := merge_paragraphs d st in
  let st1 := print TranslatingBody merged in
  let st2 := print TranslatingHeadersFooters (visit_all translator [body d] st1) in
  let st3 := print TranslatingTables
               (visit_all translator (section_regions d) st2) in
  let st4 := print TranslatingTextBoxes
               (visit_all translator (cells_row_major d merged) st3) in
  (forall fuel, translate_and_format translator fuel d st
                = translate_text_boxes translator fuel d st4)
  /\ calls_of (out st4)
     = calls_of (out st)
       ++ requests (Docx.children "w:p" (body d) merged) merged
       ++ calls_over translator (section_regions d) st2
       ++ calls_over translator (cells_row_major d merged) st3.
Proof.
  intros Hwf Hbody merged st1 st2 st3 st4. apply well_formed_Wf in Hwf.
  destruct (merged_state d st Hwf) as [Wm [Pm Cm]]. fold merged in Wm, Pm, Cm.
  assert (Bm : is_body d merged = true) by apply (persists_is_body d st merged Pm Hbody).
  assert (W1 : Wf st1) by exact Wm.
  destruct (visited_all translator [body d] st1 W1) as [Wb [Pb Cb]].
  assert (W2 : Wf st2) by exact Wb.
  destruct (visited_all translator (section_regions d) st2 W2) as [Ws [Ps Cs]].
  assert (W3 : Wf st3) by exact Ws.
  assert (P3 : preserves merged st3).
  { apply (preserves_same merged (visit_all translator (section_regions d) st2));
      [reflexivity|].
    apply (preserves_trans merged st2); [|exact Ps].
    apply (preserves_same merged (visit_all translator [body d] st1)); [reflexivity|].
    apply (preserves_trans merged st1); [|exact Pb].
    apply (preserves_same merged merged); [reflexivity | apply preserves_refl]. }
  destruct (visited_all translator (cells_row_major d merged) st3 W3) as [Wt [_ Ct]].
  split.
  - intros fuel. unfold translate_and_format. fold merged. fold st1.
    change (translate_body translator d st1) with (visit_all translator [body d] st1).
    fold st2. rewrite (sections_visited translator d st2). fold st3.
    rewrite (tables_visited translator d merged Wm Bm st3 (conj W3 P3)).
    reflexivity.
  - assert (C4 : calls_of (out st4)
                 = calls_of (out (visit_all translator (cells_row_major d merged) st3))).
    { unfold st4. cbn [out print emit]. rewrite calls_of_app. cbn. now rewrite app_nil_r. }
    assert (C3 : calls_of (out st3)
                 = calls_of (out (visit_all translator (section_regions d) st2))).
    { unfold st3. cbn [out print emit]. rewrite calls_of_app. cbn. now rewrite app_nil_r. }
    assert (C2 : calls_of (out st2)
                 = calls_of (out (visit_all translator [body d] st1))).
    { unfold st2. cbn [out print emit]. rewrite calls_of_app. cbn. now rewrite app_nil_r. }
    assert (C1 : calls_of (out st1) = calls_of (out merged)).
    { unfold st1. cbn [out print emit]. rewrite calls_of_app. cbn. now rewrite app_nil_r. }
    rewrite C4, Ct, C3, Cs, C2, Cb, C1, Cm.
    cbn [calls_over]. rewrite app_nil_r, <- !app_assoc. reflexivity.
Qed.

(** The run on a document with all four kinds of units: the body, the
    header, the footer, the cells row by row, the text box; the iterator
    over the text boxes is exhausted. *)
Example whole_document_order :
  let run := translate_and_format (Sample.answers u"Text") 5 Sample.whole_doc
               Sample.whole in
  calls_of (out (fst run))
  = [u"正文。"; u"结论"; u"页眉"; u"页脚"; u"甲"; u"乙"; u"丙"; u"框"]
  /\ snd run = true.
Proof. vm_compute. split; reflexivity. Qed.

(** A text box inside a text box is found as well.  Its paragraph is a unit
    of the outer region and of the inner one: it is sent with the outer
    region, and again with the inner one, where the translation that was
    inserted after it is sent too. *)
Example nested_text_boxes_order :
  let run := translate_and_format (Sample.answers u"Text") 5 Sample.the_doc
               Sample.nested in
  calls_of (out (fst run)) = [u"外"; u"内"; u"内"; u"Text"]
  /\ snd run = true.
Proof. vm_compute. split; reflexivity. Qed.

(** *** The claim *)

(** C8.  The loop over the text boxes does not come to every content
    region of the body.  The body below holds three of them, [13], [18]
    inside [13], and [33], whose only paragraph reads 乙.  The paragraph of
    [13] is header-style and anchors [18]: glossing it takes its runs, and
    [18] with them, out of the tree while the iterator already holds [18]
    as the element it gives next.  From [18] the iterator finds nothing
    more, and the loop ends after two turns.  The run is complete, four
    texts were sent and 乙 is not one of them; [33] is in the body when the
    run ends as it was when it started, and its paragraph still reads 乙 and
    has no translation after it. *)
Theorem C8_text_box_is_never_visited :
  let d := Sample.the_doc in
  let st := Sample.three_boxes in
  let run := translate_and_format (Sample.answers u"Text") 5 d st in
  well_formed st = true
  /\ is_body d st = true
  /\ body_text_boxes d st = [13; 18; 33]
  /\ map (fun p => Docx.text_of p st) (txbx_paragraphs 33 st) = [u"乙"]
  /\ snd run = true
  /\ calls_of (out (fst run)) = [u"外"; u"内"; u"内"; u"Text"]
  /\ body_text_boxes d (fst run) = [13; 33]
  /\ map (fun p => Docx.text_of p (fst run)) (txbx_paragraphs 33 (fst run)) = [u"乙"]
  /\ List.last (out (fst run)) Sleep = Print (ProcessedTextBoxes 2).
Proof. vm_compute. repeat split; reflexivity. Qed.
(** * Further properties *)

(** ** The log of a run *)

Lemma entries_app (a b : list event) : entries a -> entries b -> entries (a ++ b).
Proof.
  intros Ha Hb. induction Ha; cbn [app]; try (constructor; assumption). exact Hb.
Qed.

Lemma added_app (st st' : state) (evs : list event) :
  out st' = out st ++ evs -> added st st' = evs.
Proof.
  intros E. unfold added. rewrite E.
  rewrite skipn_app, skipn_all, Nat.sub_diag. reflexivity.
Qed.

Lemma extends_refl (st : state) : extends st st.
Proof. exists []. split; [now rewrite app_nil_r | constructor]. Qed.

Lemma extends_trans (s1 s2 s3 : state) : extends s1 s2 -> extends s2 s3 -> extends s1 s3.
Proof.
  intros [a [Ea Ha]] [b [Eb Hb]]. exists (a ++ b). split.
  - now rewrite Eb, Ea, app_assoc.
  - now apply entries_app.
Qed.

Lemma extends_print (m : message) (st st' : state) :
  extends st st' -> extends st (print m st').
Proof.
  intros H. apply (extends_trans st st'); [exact H|].
  exists [Print m]. split; [reflexivity | repeat constructor].
Qed.

Lemma extends_same (st st' st'' : state) :
  out st'' = out st' -> extends st st' -> extends st st''.
Proof. intros E [a [Ea Ha]]. exists a. now rewrite E. Qed.

Lemma out_set_text (p : nat) (s : Py.str) (st : state) :
  out (Docx.set_text p s st) = out st.
Proof. unfold Docx.set_text. now destruct (find_in p (trees st)). Qed.

Lemma out_remove (i : nat) (st st' : state) :
  Docx.remove i st = Some st' -> out st' = out st.
Proof.
  unfold Docx.remove. destruct (parent_in i (trees st)); [|discriminate].
  destruct (find_in i (trees st)); [|discriminate]. now intros [= <-].
Qed.

Lemma out_insert_next (i : nat) (new : elem) (st st' : state) :
  Docx.insert_next i new st = Some st' -> out st' = out st.
Proof.
  unfold Docx.insert_next. destruct (parent_in i (trees st)); [|discriminate].
  now intros [= <-].
Qed.

Section Log.

Variable translator : nat -> Py.str -> option Py.str.

(** What one turn of [process_paragraph_list] adds to the log. *)
Lemma process_paragraph_log (p : nat) (st : state) :
  let text := Py.strip (Docx.text_of p st) in
  out (process_paragraph translator p st)
  = out st ++
    (if Py.is_empty text then []
     else match translator (calls st) (text_to_translate text) with
          | None => [Translate (text_to_translate text);
                     Print (ErrorTranslating (firstn 20 text)); Sleep]
          | Some result_text =>
            if is_header_colon text then [Translate (text_to_translate text); Sleep]
            else match parent_in p (trees st) with
                 | Some _ => [Translate (text_to_translate text); Sleep]
                 | None => [Translate (text_to_translate text);
                            Print (ErrorTranslating (firstn 20 text)); Sleep]
                 end
          end).
Proof.
  intros text. unfold process_paragraph. fold text.
  destruct (Py.is_empty text) eqn:E; [now rewrite app_nil_r|].
  unfold translate_paragraph_element. unfold text, Docx.text_of in *.
  destruct (find_in p (trees st)) as [e|] eqn:F; [|discriminate].
  rewrite E.
  destruct (translator (calls st) _) as [r|]; [|cbn; now rewrite <- !app_assoc].
  destruct (is_header_colon _).
  - cbn [sleep emit out]. rewrite out_set_text. cbn. now rewrite <- !app_assoc.
  - unfold Docx.insert_next. cbn [trees called].
    destruct (parent_in p (trees st)); cbn; now rewrite <- !app_assoc.
Qed.

Lemma process_paragraph_extends (p : nat) (st : state) :
  extends st (process_paragraph translator p st).
Proof.
  eexists. split; [apply process_paragraph_log|]. cbv zeta.
  destruct (Py.is_empty _) eqn:E; [constructor|].
  assert (Hne : Py.strip (Docx.text_of p st) <> []).
  { intros H. rewrite H in E. discriminate. }
  destruct (translator _ _); [|apply entries_failed; [exact Hne | constructor]].
  destruct (is_header_colon _); [apply entries_unit; [exact Hne | constructor]|].
  destruct (parent_in p (trees st));
    [apply entries_unit | apply entries_failed]; (exact Hne || constructor).
Qed.

Lemma for_each_extends {A : Type} (f : A -> state -> state) (l : list A) :
  (forall a s, extends s (f a s)) -> forall s, extends s (for_each l f s).
Proof.
  intros H. unfold for_each. induction l as [|a l IH]; intros s; cbn [fold_left].
  - apply extends_refl.
  - apply (extends_trans s (f a s)); [apply H | apply IH].
Qed.

Lemma list_extends (ps : list nat) (st : state) :
  extends st (process_paragraph_list translator ps st).
Proof. apply for_each_extends. apply process_paragraph_extends. Qed.

Lemma merge_step_extends (curr_p : nat) (m : merging) :
  extends (doc m) (doc (merge_step curr_p m)).
Proof.
  unfold merge_step. cbv zeta.
  destruct (Py.is_empty _); [apply extends_refl|].
  destruct (Py.is_empty _); [apply extends_refl|].
  destruct (_ && _); [|apply extends_refl].
  destruct (Docx.remove _ _) as [st2|] eqn:R; cbn [doc].
  - apply (extends_same _ (doc m)); [|apply extends_refl].
    now rewrite (out_remove _ _ _ R), out_set_text.
  - apply extends_print. apply (extends_same _ (doc m)); [|apply extends_refl].
    apply out_set_text.
Qed.

Lemma merge_loop_extends (ps : list nat) (m : merging) :
  extends (doc m) (doc (merge_loop ps m)).
Proof.
  revert m. unfold merge_loop. induction ps as [|p ps IH]; intros m; cbn [fold_left].
  - apply extends_refl.
  - apply (extends_trans _ (doc (merge_step p m))); [apply merge_step_extends | apply IH].
Qed.

Lemma merge_extends (d : document) (st : state) : extends st (merge_paragraphs d st).
Proof.
  unfold merge_paragraphs.
  destruct (Docx.children "w:p" (body d) (print MergingSplitParagraphs st)) as [|first rest].
  - apply extends_print, extends_refl.
  - apply extends_print.
    apply (extends_trans _ (print MergingSplitParagraphs st));
      [apply extends_print, extends_refl|].
    apply (merge_loop_extends rest (Merging first 0 (print MergingSplitParagraphs st))).
Qed.

Lemma text_box_loop_extends (fuel : nat) (d : document) (next : option nat)
  (n : nat) (st : state) :
  extends st (fst (fst (text_box_loop translator fuel d next n st))).
Proof.
  revert next n st. induction fuel as [|fuel IH]; intros next n st; cbn [text_box_loop].
  - apply extends_refl.
  - destruct next as [txbx|]; [|apply extends_refl].
    eapply extends_trans; [|apply IH].
    apply for_each_extends, process_paragraph_extends.
Qed.

(** The log of a run, after what was there before, is made of messages and
    of the entries of the units. *)
Lemma run_extends (fuel : nat) (d : document) (st : state) :
  extends st (fst (translate_and_format translator fuel d st)).
Proof.
  unfold translate_and_format, translate_text_boxes.
  set (st4 := print TranslatingTextBoxes _).
  assert (H4 : extends st st4).
  { unfold st4. apply extends_print.
    eapply extends_trans; [|apply for_each_extends; intros table s;
      apply for_each_extends; intros row s'; apply for_each_extends;
      intros cell s''; apply list_extends].
    apply extends_print.
    eapply extends_trans; [|apply for_each_extends; intros section s;
      unfold translate_section;
      eapply extends_trans; apply list_extends].
    apply extends_print.
    eapply extends_trans; [|apply list_extends].
    apply extends_print, merge_extends. }
  assert (L := text_box_loop_extends fuel d (next_txbx d None st4) 0 st4).
  destruct (text_box_loop translator fuel d (next_txbx d None st4) 0 st4) as [[s n] f].
  cbn [fst] in *. apply extends_print. now apply (extends_trans st st4).
Qed.

End Log.

Lemma entries_paced (evs : list event) : entries evs -> paced false evs = true.
Proof. intros H. induction H; cbn; assumption || reflexivity. Qed.

(** X1.  Whatever the document and the translator, a run only adds to the
    log, and in what it adds calls and sleeps come in turn: after each call
    of the translator, failed or not, the script sleeps once before the next
    call, and it sleeps at no other time. *)
Theorem calls_and_sleeps_alternate
  (translator : nat -> Py.str -> option Py.str)
  (fuel : nat) (d : document) (st : state) :
  let st' := fst (translate_and_format translator fuel d st) in
  firstn (List.length (out st)) (out st') = out st
  /\ paced false (added st st') = true.
Proof.
  intros st'. destruct (run_extends translator fuel d st) as [evs [E H]].
  fold st' in E. rewrite (added_app st st' evs E), E. split.
  - rewrite firstn_app, Nat.sub_diag, firstn_all. cbn. apply app_nil_r.
  - now apply entries_paced.
Qed.

(** *** The texts that are sent *)

Lemma rstrip_chars_prefix (chars s : Py.str) :
  exists w, s = Py.rstrip_chars chars s ++ w.
Proof.
  unfold Py.rstrip_chars.
  destruct (drop_while_suffix (fun c => Py.mem c chars) (rev s)) as [pre H].
  exists (rev pre). rewrite <- rev_app_distr, <- H. symmetry. apply rev_involutive.
Qed.

Lemma rstrip_chars_last (chars s : Py.str) (c : Py.char) :
  Py.last (Py.rstrip_chars chars s) = Some c -> Py.mem c chars = false.
Proof.
  unfold Py.rstrip_chars, Py.last. rewrite rev_involutive.
  assert (H := drop_while_is_stopped (fun c => Py.mem c chars) (rev s)).
  destruct (Py.drop_while _ (rev s)) as [|a l]; [discriminate|].
  cbn in *. now intros [= <-].
Qed.

Lemma endswith_last (s : Py.str) (c : Py.char) :
  Py.endswith s [c] = true -> Py.last s = Some c.
Proof.
  intros H. apply endswith_iff in H as [r ->]. unfold Py.last.
  now rewrite rev_app_distr.
Qed.

Lemma text_to_translate_no_colon (text : Py.str) :
  is_header_colon (text_to_translate text) = false.
Proof.
  unfold is_header_colon. apply orb_false_iff. split.
  - destruct (Py.endswith _ [0xFF1A%N]) eqn:E; [|reflexivity].
    apply endswith_last, rstrip_chars_last in E. discriminate.
  - destruct (Py.endswith _ u":") eqn:E; [|reflexivity].
    apply (endswith_last _ 58%N), rstrip_chars_last in E. discriminate.
Qed.

Lemma text_to_translate_stops (x : Py.str) :
  stops Py.isspace (text_to_translate (Py.strip x)).
Proof.
  assert (S := strip_stops x).
  destruct (rstrip_chars_prefix (0xFF1A%N :: u":") (Py.strip x)) as [w E].
  unfold text_to_translate.
  destruct (Py.rstrip_chars _ (Py.strip x)) as [|c r]; [exact I|].
  rewrite E in S. exact S.
Qed.

(** X2.  No text that a run sends to the translator ends with a colon,
    fullwidth or ASCII, and none begins with whitespace. *)
Theorem sent_texts_are_trimmed_of_colons
  (translator : nat -> Py.str -> option Py.str)
  (fuel : nat) (d : document) (st : state) :
  Forall (fun text => is_header_colon text = false /\ stops Py.isspace text)
         (calls_of (added st (fst (translate_and_format translator fuel d st)))).
Proof.
  destruct (run_extends translator fuel d st) as [evs [E H]].
  rewrite (added_app _ _ evs E). clear E.
  induction H; cbn; try assumption; try constructor; try assumption;
    (split; [apply text_to_translate_no_colon | apply text_to_translate_stops]).
Qed.

(** ** A translator that is down *)

Lemma for_each_trees {A : Type} (f : A -> state -> state) (l : list A) :
  (forall a s, trees (f a s) = trees s) -> forall s, trees (for_each l f s) = trees s.
Proof.
  intros H. unfold for_each. induction l as [|a l IH]; intros s; cbn [fold_left].
  - reflexivity.
  - now rewrite IH, H.
Qed.

Section Down.

Variable translator : nat -> Py.str -> option Py.str.
Hypothesis down : forall n text, translator n text = None.

Lemma process_paragraph_down (p : nat) (st : state) :
  trees (process_paragraph translator p st) = trees st.
Proof.
  unfold process_paragraph. destruct (Py.is_empty _); [reflexivity|].
  unfold translate_paragraph_element.
  destruct (find_in p (trees st)); [|reflexivity].
  destruct (Py.is_empty _); [reflexivity|]. now rewrite down.
Qed.

Lemma list_down (ps : list nat) (st : state) :
  trees (process_paragraph_list translator ps st) = trees st.
Proof. apply for_each_trees, process_paragraph_down. Qed.

Lemma text_box_loop_down (fuel : nat) (d : document) (next : option nat)
  (n : nat) (st : state) :
  trees (fst (fst (text_box_loop translator fuel d next n st))) = trees st.
Proof.
  revert next n st. induction fuel as [|fuel IH]; intros next n st; cbn [text_box_loop].
  - reflexivity.
  - destruct next as [txbx|]; [|reflexivity].
    rewrite IH. apply for_each_trees, process_paragraph_down.
Qed.

End Down.

(** X3.  In a document whose sections all have a header and a footer to
    read, when every call of the translator raises, the run changes nothing
    after the merger: the trees at the end are those the merger left.  (In
    a document without a header or a footer the script itself has one
    added, by asking for its paragraphs.) *)
Theorem failing_translator_leaves_merged_document
  (translator : nat -> Py.str -> option Py.str)
  (fuel : nat) (d : document) (st : state) :
  has_headers_footers d st = true ->
  (forall n text, translator n text = None) ->
  trees (fst (translate_and_format translator fuel d st))
  = trees (merge_paragraphs d st).
Proof.
  intros _ down. unfold translate_and_format, translate_text_boxes.
  set (st4 := print TranslatingTextBoxes _).
  assert (L := text_box_loop_down translator down fuel d (next_txbx d None st4) 0 st4).
  destruct (text_box_loop translator fuel d (next_txbx d None st4) 0 st4) as [[s n] f].
  cbn [fst] in *. cbn [print emit trees]. rewrite L. unfold st4.
  cbn [print emit trees].
  unfold translate_tables.
  rewrite for_each_trees.
  2:{ intros table s0. unfold translate_table. apply for_each_trees.
      intros row s1. unfold translate_row. apply for_each_trees.
      intros cell s2. apply (list_down translator down). }
  cbn [print emit trees]. unfold translate_headers_footers.
  rewrite for_each_trees.
  2:{ intros section s0. unfold translate_section.
      now rewrite !(list_down translator down). }
  cbn [print emit trees]. unfold translate_body. now rewrite (list_down translator down).
Qed.

Lemma failing_translator_leaves_merged_document_witness :
  trees (fst (translate_and_format Sample.raises 5 Sample.whole_doc Sample.whole))
  = trees (merge_paragraphs Sample.whole_doc Sample.whole).
Proof.
  apply (failing_translator_leaves_merged_document Sample.raises 5
           Sample.whole_doc Sample.whole); reflexivity.
Defined.

(** ** One pass of the merger *)

Section MergePass.

Variable d : document.

Lemma basic_in (m : merging) (r ps : list nat) (x : nat) :
  basic d m r ps -> In x (rev r ++ ps) -> In x (Docx.children "w:p" (body d) (doc m)).
Proof. intros [_ K _] H. now rewrite K. Qed.

Lemma basic_last_in (m : merging) (r ps : list nat) :
  basic d m r ps -> In (last_p m) (rev r).
Proof.
  intros [_ _ L]. destruct r as [|a r]; [discriminate|]. injection L as <-.
  apply -> in_rev. now left.
Qed.

Lemma basic_distinct (m : merging) (r ps : list nat) :
  basic d m r ps -> NoDup (rev r ++ ps).
Proof. intros [W K _]. rewrite <- K. now apply NoDup_children. Qed.

(** The paragraphs to come are not the last retained one. *)
Lemma basic_todo (m : merging) (r ps : list nat) (x : nat) :
  basic d m r ps -> In x ps -> x <> last_p m.
Proof.
  intros B Hx E. apply (NoDup_app_disjoint _ _ (last_p m) (basic_distinct _ _ _ B)).
  - now apply (basic_last_in m r ps).
  - now rewrite <- E.
Qed.

Lemma merge_step_cases (m : merging) (r ps : list nat) (curr_p : nat) :
  basic d m r (curr_p :: ps) ->
  (quiet_texts (trimmed (last_p m) (doc m)) (trimmed curr_p (doc m)) = true
   /\ merge_step curr_p m = Merging curr_p (merged_count m) (doc m))
  \/ exists st2,
       merge_step curr_p m = Merging (last_p m) (S (merged_count m)) st2
       /\ effect d m curr_p r ps st2.
Proof.
  intros B. assert (B' := B). destruct B' as [Hwf Hk Hl].
  set (last := last_p m) in *. set (st := doc m) in *.
  assert (ND := basic_distinct _ _ _ B).
  assert (Hlast : In last (Docx.children "w:p" (body d) st)).
  { apply (basic_in m r (curr_p :: ps) last B). apply in_or_app. left.
    apply (basic_last_in m r (curr_p :: ps) B). }
  assert (Hcurr : In curr_p (Docx.children "w:p" (body d) st)).
  { apply (basic_in m r (curr_p :: ps) curr_p B). apply in_or_app. right. now left. }
  destruct (quiet_texts (trimmed last st) (trimmed curr_p st)) eqn:Q.
  - left. split; [reflexivity|]. now apply step_quiet.
  - right. destruct (step_loud curr_p m Q) as [Ht [Hlt [Hh E]]].
    fold st last in Ht, Hlt, Hh, E. rewrite E. clear E. cbv zeta.
    change (Py.rstrip (Docx.text_of last st)
            ++ separator (trimmed last st) (trimmed curr_p st)
            ++ Py.lstrip (trimmed curr_p st)) with (joined_text m curr_p).
    set (joined := joined_text m curr_p). set (st1 := Docx.set_text last joined st).
    destruct (child_find _ _ _ _ Hwf Hlast) as [a [Ha Ta]].
    destruct (child_find _ _ _ _ Hwf Hcurr) as [c [Hc Tc]].
    destruct (children_find _ _ _ _ Hcurr) as [y [_ [Hy _]]].
    assert (Hb : body d <> last) by apply (child_other _ _ _ _ Hwf Hlast).
    assert (W1 : Wf st1) by apply (set_text_Wf st last joined a Hwf Ha).
    assert (K1 : Docx.children "w:p" (body d) st1 = rev r ++ curr_p :: ps).
    { unfold st1.
      rewrite (set_text_children st last joined a Hwf Ha "w:p" (body d) y Hb Hy).
      exact Hk. }
    assert (HB1 : In curr_p (Docx.children "w:p" (body d) st1)).
    { rewrite K1. apply in_or_app. right. now left. }
    destruct (remove_child st1 (body d) curr_p "w:p" HB1) as [st2 Hrm].
    rewrite Hrm. exists st2. split; [reflexivity|].
    assert (P1 : is_paragraph curr_p st1 = true).
    { apply (set_text_is_paragraph st last joined a Hwf Ha).
      apply (find_is_paragraph curr_p st c Hc Tc). }
    split.
    + exact Q.
    + apply (remove_Wf st1 st2 curr_p W1 Hrm).
    + rewrite (remove_children st1 st2 curr_p W1 Hrm "w:p" (body d) _
                 (set_text_find st last joined a Hwf Ha (body d) y Hy)).
      rewrite K1. now apply filter_other_one.
    + rewrite (out_remove _ _ _ Hrm). apply out_set_text.
    + fold last.
      rewrite (remove_text st1 st2 curr_p W1 Hrm P1 last _
                 (set_text_find st last joined a Hwf Ha last a Ha)).
      apply (text_of_set_text last joined st a Ha).
    + intros q k Hq. fold last st joined.
      apply (remove_find st1 st2 curr_p W1 Hrm q).
      apply (set_text_find st last joined a Hwf Ha q k Hq).
    + intros q k Hq Hne. fold last st in Hq, Hne |- *.
      rewrite (remove_text st1 st2 curr_p W1 Hrm P1 q _
                 (set_text_find st last joined a Hwf Ha q k Hq)).
      apply (set_text_other st last joined a Hwf Ha Ta q k Hne Hq).
    + intros q Hq. apply (remove_is_paragraph st1 st2 curr_p W1 Hrm).
      now apply (set_text_is_paragraph st last joined a Hwf Ha).
Qed.

Lemma basic_quiet (m : merging) (r ps : list nat) (curr_p : nat) :
  basic d m r (curr_p :: ps) ->
  basic d (Merging curr_p (merged_count m) (doc m)) (curr_p :: r) ps.
Proof.
  intros [W K L]. split; cbn [doc last_p]; [exact W | | reflexivity].
  rewrite K. cbn [rev]. now rewrite <- app_assoc.
Qed.

Lemma basic_loud (m : merging) (r ps : list nat) (curr_p : nat) (st2 : state) :
  basic d m r (curr_p :: ps) -> effect d m curr_p r ps st2 ->
  basic d (Merging (last_p m) (S (merged_count m)) st2) r ps.
Proof.
  intros [W K L] E. split; cbn [doc last_p];
    [apply (eff_wf _ _ _ _ _ _ E) | apply (eff_kids _ _ _ _ _ _ E) | exact L].
Qed.

(** A property that each kind of turn keeps holds when the loop ends. *)
Lemma pass_induction (P : merging -> list nat -> list nat -> Prop) :
  (forall m r ps curr_p,
     basic d m r (curr_p :: ps) -> P m r (curr_p :: ps) ->
     quiet_texts (trimmed (last_p m) (doc m)) (trimmed curr_p (doc m)) = true ->
     P (Merging curr_p (merged_count m) (doc m)) (curr_p :: r) ps) ->
  (forall m r ps curr_p st2,
     basic d m r (curr_p :: ps) -> P m r (curr_p :: ps) ->
     effect d m curr_p r ps st2 ->
     P (Merging (last_p m) (S (merged_count m)) st2) r ps) ->
  forall ps m r, basic d m r ps -> P m r ps ->
  exists r', basic d (merge_loop ps m) r' [] /\ P (merge_loop ps m) r' [].
Proof.
  intros Hq Hl. induction ps as [|curr_p ps IH]; intros m r B H.
  - exists r. now split.
  - change (merge_loop (curr_p :: ps) m) with (merge_loop ps (merge_step curr_p m)).
    destruct (merge_step_cases m r ps curr_p B) as [[Q ->]|[st2 [-> E]]].
    + apply (IH _ (curr_p :: r)); [now apply basic_quiet | now apply Hq].
    + apply (IH _ r); [now apply (basic_loud m r ps curr_p) | now apply (Hl m r ps curr_p st2)].
Qed.

(** The same for [merge_paragraphs] on a body with a first paragraph. *)
Lemma merged_pass (P : merging -> list nat -> list nat -> Prop)
  (st : state) (first : nat) (rest : list nat) :
  (forall m r ps curr_p,
     basic d m r (curr_p :: ps) -> P m r (curr_p :: ps) ->
     quiet_texts (trimmed (last_p m) (doc m)) (trimmed curr_p (doc m)) = true ->
     P (Merging curr_p (merged_count m) (doc m)) (curr_p :: r) ps) ->
  (forall m r ps curr_p st2,
     basic d m r (curr_p :: ps) -> P m r (curr_p :: ps) ->
     effect d m curr_p r ps st2 ->
     P (Merging (last_p m) (S (merged_count m)) st2) r ps) ->
  Wf st ->
  Docx.children "w:p" (body d) st = first :: rest ->
  P (Merging first 0 (print MergingSplitParagraphs st)) [first] rest ->
  exists m r,
    merge_paragraphs d st = print (Merged (merged_count m)) (doc m)
    /\ basic d m r [] /\ P m r [].
Proof.
  intros Hq Hl Hwf K H0.
  set (m0 := Merging first 0 (print MergingSplitParagraphs st)).
  assert (B0 : basic d m0 [first] rest).
  { split; [now apply Wf_print | exact K | reflexivity]. }
  destruct (pass_induction P Hq Hl rest m0 [first] B0 H0) as [r [B H]].
  exists (merge_loop rest m0), r. split; [|now split].
  unfold merge_paragraphs.
  change (Docx.children "w:p" (body d) (print MergingSplitParagraphs st))
    with (Docx.children "w:p" (body d) st).
  now rewrite K.
Qed.

End MergePass.

(** *** What the merger reports *)

Lemma merged_empty (d : document) (st : state) :
  Docx.children "w:p" (body d) st = [] ->
  merge_paragraphs d st = print MergingSplitParagraphs st.
Proof.
  intros K. unfold merge_paragraphs.
  change (Docx.children "w:p" (body d) (print MergingSplitParagraphs st))
    with (Docx.children "w:p" (body d) st).
  now rewrite K.
Qed.

(** X4.  In a well-formed document no removal fails.  The merger prints its
    two messages and nothing else, and the number it reports is the number of
    paragraphs that are gone from the body; on a body without paragraphs it
    prints the first message only. *)
Theorem merged_count_is_exact (d : document) (st : state) :
  well_formed st = true ->
  let st' := merge_paragraphs d st in
  let before := Docx.children "w:p" (body d) st in
  let after := Docx.children "w:p" (body d) st' in
  out st'
  = out st ++ Print MergingSplitParagraphs
      :: match before with
         | [] => []
         | _ :: _ => [Print (Merged (List.length before - List.length after))]
         end.
Proof.
  intros Hwf st' before after. apply well_formed_Wf in Hwf.
  destruct before as [|first rest] eqn:K.
  - unfold st'. now rewrite (merged_empty d st K).
  - set (st0 := print MergingSplitParagraphs st).
    destruct (merged_pass d
                (fun m r ps =>
                   out (doc m) = out st0
                   /\ merged_count m + List.length (rev r ++ ps)
                      = List.length (first :: rest))
                st first rest) as [m [r [E [B [Ho Hc]]]]].
    + intros m r ps c _ [Ho Hc] _. cbn [doc merged_count]. split; [exact Ho|].
      cbn [rev]. now rewrite <- app_assoc.
    + intros m r ps c st2 _ [Ho Hc] X. cbn [doc merged_count]. split.
      * now rewrite (eff_out _ _ _ _ _ _ X).
      * rewrite length_app in *. cbn [List.length] in *. lia.
    + exact Hwf.
    + exact K.
    + split; reflexivity.
    + unfold after, st'. rewrite E.
      change (Docx.children "w:p" (body d) (print (Merged (merged_count m)) (doc m)))
        with (Docx.children "w:p" (body d) (doc m)).
      rewrite (basic_kids _ _ _ _ B), app_nil_r in *.
      cbn [print emit out]. rewrite Ho. unfold st0. cbn [print emit out].
      rewrite <- app_assoc. cbn [app]. repeat f_equal. lia.
Qed.

Lemma merged_count_is_exact_witness :
  out (merge_paragraphs Sample.the_doc Sample.scenario)
  = [Print MergingSplitParagraphs; Print (Merged 1)].
Proof.
  apply (merged_count_is_exact Sample.the_doc Sample.scenario). reflexivity.
Defined.

(** *** The order of the paragraphs *)

Lemma filter_filter {A : Type} (f g : A -> bool) (l : list A) :
  filter f (filter g l) = filter (fun x => g x && f x) l.
Proof.
  induction l as [|a l IH]; cbn [filter]; [reflexivity|].
  destruct (g a); cbn [filter andb]; [destruct (f a)|]; now rewrite IH.
Qed.

Lemma filter_members (f : nat -> bool) (l : list nat) :
  filter (fun p => existsb (Nat.eqb p) (filter f l)) l = filter f l.
Proof.
  apply filter_ext_in. intros p Hp.
  destruct (f p) eqn:F.
  - apply existsb_exists. exists p. split; [|apply Nat.eqb_refl].
    apply filter_In. now split.
  - destruct (existsb _ _) eqn:E; [|reflexivity].
    apply existsb_exists in E as [x [Hx E]]. apply Nat.eqb_eq in E. subst x.
    apply filter_In in Hx as [_ Hx]. congruence.
Qed.

(** X5.  The merger only takes paragraphs out of the body: those that are
    left are in the order they were in, and the first paragraph is always
    left. *)
Theorem merger_keeps_order (d : document) (st : state) :
  well_formed st = true ->
  let before := Docx.children "w:p" (body d) st in
  let after := Docx.children "w:p" (body d) (merge_paragraphs d st) in
  after = filter (fun p => existsb (Nat.eqb p) after) before
  /\ hd_error after = hd_error before.
Proof.
  intros Hwf before after. apply well_formed_Wf in Hwf.
  assert (G : exists gone,
             after = filter (fun p => negb (existsb (Nat.eqb p) gone)) before
             /\ hd_error after = hd_error before).
  { destruct before as [|first rest] eqn:K.
    - exists []. unfold after. rewrite (merged_empty d st K).
      change (Docx.children "w:p" (body d) (print MergingSplitParagraphs st))
        with (Docx.children "w:p" (body d) st).
      fold before. rewrite K. now split.
    - destruct (merged_pass d
                  (fun m r ps =>
                     (exists gone,
                        rev r ++ ps
                        = filter (fun p => negb (existsb (Nat.eqb p) gone)) (first :: rest))
                     /\ hd_error (rev r ++ ps) = Some first)
                  st first rest) as [m [r [E [B [[gone Hg] Hh]]]]].
      + intros m r ps c _ H _. cbn [rev]. now rewrite <- app_assoc.
      + intros m r ps c st2 B [[gone Hg] Hh] X. split.
        * exists (c :: gone).
          rewrite <- (filter_other_one c (rev r) ps (basic_distinct d _ _ _ B)).
          rewrite Hg, filter_filter. apply filter_ext. intros x.
          unfold other. cbn [existsb]. now rewrite negb_orb, andb_comm.
        * assert (L := basic_last_in d _ _ _ B).
          destruct (rev r) as [|a l]; [contradiction|]. exact Hh.
      + exact Hwf.
      + exact K.
      + split; [|reflexivity]. exists []. symmetry. apply filter_id_in.
        intros a _. reflexivity.
      + exists gone. unfold after. rewrite E.
        change (Docx.children "w:p" (body d) (print (Merged (merged_count m)) (doc m)))
          with (Docx.children "w:p" (body d) (doc m)).
        now rewrite (basic_kids _ _ _ _ B). }
  destruct G as [gone [G H]]. split; [|exact H].
  clearbody after. subst after. symmetry. apply filter_members.
Qed.

Lemma merger_keeps_order_witness :
  let before := Docx.children "w:p" 0 Sample.scenario in
  let after := Docx.children "w:p" 0 (merge_paragraphs Sample.the_doc Sample.scenario) in
  after = filter (fun p => existsb (Nat.eqb p) after) before
  /\ hd_error after = hd_error before.
Proof.
  apply (merger_keeps_order Sample.the_doc Sample.scenario). reflexivity.
Defined.

(** *** A removal that raises *)





(** *** Paragraphs the merger leaves alone *)

Lemma loud_not_closed (last_text text : Py.str) :
  quiet_texts last_text text = false -> closed last_text = false.
Proof.
  unfold quiet_texts, closed. intros H.
  rewrite !orb_false_iff in *. tauto.
Qed.

Lemma loud_not_anchored (last_text text : Py.str) :
  quiet_texts last_text text = false -> anchored text = false.
Proof.
  unfold quiet_texts, anchored. intros H.
  rewrite !orb_false_iff in *. tauto.
Qed.

(** X6.  Nothing is merged into a paragraph whose trimmed text is empty,
    ends with a terminator or is a short numbered line: the merger leaves its
    text as it is. *)
Theorem closed_paragraph_keeps_text (d : document) (st : state) (q : nat) :
  well_formed st = true ->
  is_paragraph q st = true ->
  closed (Py.strip (Docx.text_of q st)) = true ->
  Docx.text_of q (merge_paragraphs d st) = Docx.text_of q st.
Proof.
  intros Hwf Hq Hc. apply well_formed_Wf in Hwf.
  destruct (Docx.children "w:p" (body d) st) as [|first rest] eqn:K.
  - now rewrite (merged_empty d st K).
  - destruct (merged_pass d
                (fun m _ _ =>
                   is_paragraph q (doc m) = true
                   /\ Docx.text_of q (doc m) = Docx.text_of q st)
                st first rest) as [m [r [E [_ [_ H]]]]].
    + intros m r ps c _ H _. exact H.
    + intros m r ps c st2 _ [Hp Ht] X. split; [now apply (eff_par _ _ _ _ _ _ X)|].
      destruct (is_paragraph_find _ _ Hp) as [y [Hy _]].
      rewrite <- Ht. apply (eff_text _ _ _ _ _ _ X q y Hy).
      intros ->. assert (L := loud_not_closed _ _ (eff_loud _ _ _ _ _ _ X)).
      unfold trimmed in L. rewrite Ht in L. congruence.
    + exact Hwf.
    + exact K.
    + split; [exact Hq | reflexivity].
    + rewrite E. exact H.
Qed.

Lemma closed_paragraph_keeps_text_witness :
  Docx.text_of 10 (merge_paragraphs Sample.the_doc Sample.cjk_full_stop)
  = Docx.text_of 10 Sample.cjk_full_stop.
Proof.
  apply (closed_paragraph_keeps_text Sample.the_doc Sample.cjk_full_stop 10);
    reflexivity.
Defined.

(** X7.  A paragraph of the body whose trimmed text is empty or begins with
    a numeric marker is never taken out by the merger. *)
Theorem anchored_paragraph_is_kept (d : document) (st : state) (q : nat) :
  well_formed st = true ->
  In q (Docx.children "w:p" (body d) st) ->
  anchored (Py.strip (Docx.text_of q st)) = true ->
  In q (Docx.children "w:p" (body d) (merge_paragraphs d st)).
Proof.
  intros Hwf Hq Ha. apply well_formed_Wf in Hwf.
  destruct (Docx.children "w:p" (body d) st) as [|first rest] eqn:K; [destruct Hq|].
  destruct (merged_pass d
              (fun m r ps =>
                 In q (rev r ++ ps)
                 /\ (In q ps -> Docx.text_of q (doc m) = Docx.text_of q st))
              st first rest) as [m [r [E [B [H _]]]]].
  - intros m r ps c _ [Hi Ht] _. cbn [doc rev]. rewrite <- app_assoc. split; [exact Hi|].
    intros Hp. apply Ht. now right.
  - intros m r ps c st2 B [Hi Ht] X. cbn [doc].
    assert (Hqc : q <> c).
    { intros ->. assert (L := loud_not_anchored _ _ (eff_loud _ _ _ _ _ _ X)).
      unfold trimmed in L. rewrite (Ht (or_introl eq_refl)) in L. congruence. }
    split.
    + apply in_app_or in Hi as [Hi|[Hi|Hi]]; apply in_or_app;
        [now left | congruence | now right].
    + intros Hp.
      assert (Hin : In q (Docx.children "w:p" (body d) (doc m))).
      { apply (basic_in d m r (c :: ps) q B). apply in_or_app. right. now right. }
      destruct (child_find _ _ _ _ (basic_wf _ _ _ _ B) Hin) as [k [Hk _]].
      rewrite <- (Ht (or_intror Hp)). apply (eff_text _ _ _ _ _ _ X q k Hk).
      apply (basic_todo d m r (c :: ps) q B). now right.
  - exact Hwf.
  - exact K.
  - split; [exact Hq | reflexivity].
  - rewrite E.
    change (Docx.children "w:p" (body d) (print (Merged (merged_count m)) (doc m)))
      with (Docx.children "w:p" (body d) (doc m)).
    now rewrite (basic_kids _ _ _ _ B).
Qed.

Lemma anchored_paragraph_is_kept_witness :
  In 30 (Docx.children "w:p" 0 (merge_paragraphs Sample.the_doc Sample.scenario)).
Proof.
  apply (anchored_paragraph_is_kept Sample.the_doc Sample.scenario 30);
    [reflexivity | simpl; tauto | reflexivity].
Defined.

(** *** What the merger does not reach *)

Lemma holds_false (p : nat) (y : elem) : holds p y = false -> ~ In p (ids y).
Proof.
  unfold holds. intros H Hin.
  assert (E : existsb (Nat.eqb p) (ids y) = true).
  { apply existsb_exists. exists p. split; [exact Hin | apply Nat.eqb_refl]. }
  congruence.
Qed.

Lemma merged_apart (d : document) (st : state) (q : nat) :
  Wf st -> apart d q st = true ->
  find_in q (trees (merge_paragraphs d st)) = find_in q (trees st).
Proof.
  intros Hwf Ha. unfold apart in Ha.
  destruct (find_in q (trees st)) as [y|] eqn:Hy; [|discriminate].
  rewrite forallb_forall in Ha.
  assert (Hout : forall p, In p (Docx.children "w:p" (body d) st) -> ~ In p (ids y)).
  { intros p Hp. apply holds_false. apply negb_true_iff. now apply Ha. }
  destruct (Docx.children "w:p" (body d) st) as [|first rest] eqn:K.
  - now rewrite (merged_empty d st K).
  - destruct (merged_pass d
                (fun m r ps =>
                   find_in q (trees (doc m)) = Some y
                   /\ forall x, In x (rev r ++ ps) -> In x (first :: rest))
                st first rest) as [m [r [E [_ [H _]]]]].
    + intros m r ps c _ H _. cbn [doc rev]. now rewrite <- app_assoc.
    + intros m r ps c st2 B [Hf Hs] X. cbn [doc]. split.
      * rewrite (eff_find _ _ _ _ _ _ X q y Hf).
        rewrite update_notin, prune_notin; [reflexivity | |]; apply Hout, Hs.
        -- apply in_or_app. right. now left.
        -- apply in_or_app. left. apply (basic_last_in d m r (c :: ps) B).
      * intros x Hx. apply Hs. apply in_app_or in Hx as [Hx|Hx]; apply in_or_app;
          [now left | right; now right].
    + exact Hwf.
    + exact K.
    + split; [exact Hy|]. intros x Hx. exact Hx.
    + rewrite E. exact H.
Qed.

(** X8.  The merger changes the paragraphs of the body and nothing else: an
    element that is no paragraph of the body and has none inside it (a
    header, a footer, a table) is after the pass what it was before. *)
Theorem merger_touches_body_paragraphs_only (d : document) (st : state) (q : nat) :
  well_formed st = true ->
  apart d q st = true ->
  find_in q (trees (merge_paragraphs d st)) = find_in q (trees st).
Proof. intros Hwf. apply merged_apart. now apply well_formed_Wf. Qed.

Lemma merger_touches_body_paragraphs_only_witness :
  find_in 70 (trees (merge_paragraphs Sample.whole_doc Sample.whole))
  = find_in 70 (trees Sample.whole).
Proof.
  apply (merger_touches_body_paragraphs_only Sample.whole_doc Sample.whole 70);
    reflexivity.
Defined.

Lemma flat_map_disjoint {A B : Type} (f : A -> list B) (l : list A) (a b : A) (x : B) :
  NoDup (flat_map f l) -> In a l -> In b l -> a <> b ->
  In x (f a) -> ~ In x (f b).
Proof.
  induction l as [|c l IH]; [intros _ []|]. cbn [flat_map]. intros ND Ha Hb Hne Hx Hy.
  assert (D := NoDup_app_disjoint _ _ x ND).
  destruct Ha as [->|Ha], Hb as [->|Hb].
  - now apply Hne.
  - apply (D Hx). apply in_flat_map. now exists b.
  - apply (D Hy). apply in_flat_map. now exists a.
  - apply (IH (NoDup_app_remove_l _ _ ND) Ha Hb Hne Hx Hy).
Qed.

(** A child of the body that is no paragraph has no paragraph of the body
    inside it. *)
Lemma body_child_apart (d : document) (st : state) (t : string) (T : nat) :
  Wf st -> t <> "w:p" -> In T (Docx.children t (body d) st) ->
  apart d T st = true.
Proof.
  intros Hwf Ht HT.
  destruct (children_find _ _ _ _ HT) as [y [k [Hy [Hk [Nk Tk]]]]].
  assert (Hn := proj1 (find_in_Some _ _ _ Hy)).
  assert (Fk : find_in T (trees st) = Some k).
  { rewrite <- Nk. apply find_in_unique; [apply Hwf|].
    apply (nodes_iter _ y k Hn). apply (iter_kid y k k Hk), iter_self. }
  unfold apart. rewrite Fk. apply forallb_forall. intros p Hp.
  unfold Docx.children in Hp. rewrite Hy in Hp.
  apply in_map_iff in Hp as [c [Nc Hc]]. apply filter_In in Hc as [Hc Tc].
  apply has_tag_true in Tc.
  apply negb_true_iff. destruct (holds p k) eqn:H; [|reflexivity]. exfalso.
  apply existsb_exists in H as [i [Hi E]]. apply Nat.eqb_eq in E. subst i.
  assert (NDy := NoDup_node _ y (proj1 Hwf) Hn).
  rewrite ids_unfold in NDy. apply NoDup_cons_iff in NDy as [_ NDy].
  apply (flat_map_disjoint ids (kids y) c k p NDy Hc Hk).
  - intros ->. congruence.
  - rewrite <- Nc. apply ids_root.
  - exact Hi.
Qed.

(** X9.  The tables of the body, with everything in them, are after the
    merger what they were before. *)
Theorem merger_leaves_tables (d : document) (st : state) (table : nat) :
  well_formed st = true ->
  In table (Docx.children "w:tbl" (body d) st) ->
  find_in table (trees (merge_paragraphs d st)) = find_in table (trees st).
Proof.
  intros Hwf H. apply well_formed_Wf in Hwf. apply (merged_apart d st table Hwf).
  apply (body_child_apart d st "w:tbl" table Hwf); [discriminate | exact H].
Qed.

Lemma merger_leaves_tables_witness :
  find_in 30 (trees (merge_paragraphs Sample.whole_doc Sample.whole))
  = find_in 30 (trees Sample.whole).
Proof.
  apply (merger_leaves_tables Sample.whole_doc Sample.whole 30);
    [reflexivity | simpl; tauto].
Defined.

(** *** The text the merger keeps *)

Lemma squash_app (a b : Py.str) : squash (a ++ b) = squash a ++ squash b.
Proof. apply filter_app. Qed.

Lemma squash_rev (s : Py.str) : squash (rev s) = rev (squash s).
Proof.
  unfold squash. induction s as [|c s IH]; [reflexivity|].
  cbn [rev filter]. rewrite filter_app, IH. cbn [filter].
  destruct (negb (Py.isspace c)); [reflexivity | apply app_nil_r].
Qed.

Lemma squash_lstrip (s : Py.str) : squash (Py.lstrip s) = squash s.
Proof.
  unfold Py.lstrip, squash. induction s as [|c s IH]; [reflexivity|].
  cbn [Py.drop_while filter]. destruct (Py.isspace c) eqn:E; [exact IH|].
  cbn [filter negb]. now rewrite E.
Qed.

Lemma squash_rstrip (s : Py.str) : squash (Py.rstrip s) = squash s.
Proof.
  unfold Py.rstrip. rewrite squash_rev.
  change (Py.drop_while Py.isspace (rev s)) with (Py.lstrip (rev s)).
  now rewrite squash_lstrip, squash_rev, rev_involutive.
Qed.

Lemma squash_strip (s : Py.str) : squash (Py.strip s) = squash s.
Proof. unfold Py.strip. now rewrite squash_rstrip, squash_lstrip. Qed.

Lemma squash_separator (last_text text : Py.str) :
  squash (separator last_text text) = [].
Proof. unfold separator. now destruct (ascii_join last_text text). Qed.

Lemma flat_map_map {A B C : Type} (f : B -> list C) (g : A -> B) (l : list A) :
  flat_map f (map g l) = flat_map (fun a => f (g a)) l.
Proof. induction l as [|a l IH]; cbn; [reflexivity | now rewrite IH]. Qed.

(** X10.  The merger neither loses nor invents text: the texts of the
    paragraphs of the body, read one after the other without their
    whitespace, are the same before and after the pass. *)
Theorem merger_conserves_text (d : document) (st : state) :
  well_formed st = true ->
  flat_map squash (paragraph_texts d (merge_paragraphs d st))
  = flat_map squash (paragraph_texts d st).
Proof.
  intros Hwf. apply well_formed_Wf in Hwf. unfold paragraph_texts.
  rewrite !flat_map_map.
  destruct (Docx.children "w:p" (body d) st) as [|first rest] eqn:K.
  - rewrite (merged_empty d st K).
    change (Docx.children "w:p" (body d) (print MergingSplitParagraphs st))
      with (Docx.children "w:p" (body d) st).
    now rewrite K.
  - destruct (merged_pass d
                (fun m r ps =>
                   flat_map (fun p => squash (Docx.text_of p (doc m))) (rev r ++ ps)
                   = flat_map (fun p => squash (Docx.text_of p st)) (first :: rest))
                st first rest) as [m [r [E [B H]]]].
    + intros m r ps c _ H _. cbn [doc rev]. now rewrite <- app_assoc.
    + intros m r ps c st2 B H X. cbn [doc]. rewrite <- H. clear H.
      assert (L := basic_last _ _ _ _ B).
      destruct r as [|last r0]; [discriminate|]. injection L as L.
      assert (ND := basic_distinct d _ _ _ B).
      assert (Hsame : forall x, In x (rev r0 ++ ps) ->
                squash (Docx.text_of x st2) = squash (Docx.text_of x (doc m))).
      { intros x Hx.
        assert (Hin : In x (Docx.children "w:p" (body d) (doc m))).
        { apply (basic_in d m (last :: r0) (c :: ps) x B). cbn [rev].
          rewrite <- app_assoc. apply in_app_or in Hx as [Hx|Hx]; apply in_or_app;
            [now left | right; right; now right]. }
        destruct (child_find _ _ _ _ (basic_wf _ _ _ _ B) Hin) as [k [Hk _]].
        f_equal. apply (eff_text _ _ _ _ _ _ X x k Hk).
        rewrite <- L. intros ->. cbn [rev] in ND. rewrite <- app_assoc in ND.
        apply NoDup_remove_2 in ND. apply ND.
        apply in_app_or in Hx as [Hx|Hx]; apply in_or_app;
          [now left | right; now right]. }
      cbn [rev]. rewrite <- !app_assoc, !flat_map_app. cbn [app flat_map].
      rewrite (flat_map_ext_in _ (fun p => squash (Docx.text_of p (doc m))) (rev r0)).
      2:{ intros x Hx. apply Hsame. apply in_or_app. now left. }
      rewrite (flat_map_ext_in (fun p => squash (Docx.text_of p st2))
                 (fun p => squash (Docx.text_of p (doc m))) ps).
      2:{ intros x Hx. apply Hsame. apply in_or_app. now right. }
      rewrite !app_nil_r. f_equal. rewrite app_assoc. f_equal.
      rewrite L, (eff_last _ _ _ _ _ _ X). unfold joined_text, trimmed.
      now rewrite !squash_app, squash_rstrip, squash_separator, squash_lstrip,
        squash_strip.
    + exact Hwf.
    + exact K.
    + reflexivity.
    + rewrite E.
      change (Docx.children "w:p" (body d) (print (Merged (merged_count m)) (doc m)))
        with (Docx.children "w:p" (body d) (doc m)).
      rewrite (basic_kids _ _ _ _ B), app_nil_r.
      rewrite app_nil_r in H. exact H.
Qed.

Lemma merger_conserves_text_witness :
  flat_map squash
    (paragraph_texts Sample.the_doc (merge_paragraphs Sample.the_doc Sample.hello_world))
  = flat_map squash (paragraph_texts Sample.the_doc Sample.hello_world).
Proof.
  apply (merger_conserves_text Sample.the_doc Sample.hello_world). reflexivity.
Defined.

(** *** A body the merger leaves as it is *)

Lemma chain_all (R : nat -> nat -> Prop) (r : list nat) :
  (forall a b, In a r -> R a b) -> chain R r.
Proof.
  induction r as [|b r IH]; intros H; [exact I|]. split.
  - destruct r as [|a r]; [exact I|]. apply H. right. now left.
  - apply IH. intros a c Ha. apply H. now right.
Qed.

(** X11.  When every paragraph of the body has a trimmed text that is
    empty, ends with a terminator or is a short numbered line, the merger
    changes nothing and reports no merge. *)
Theorem punctuated_body_is_untouched (d : document) (st : state) :
  Forall (fun p => closed (Py.strip (Docx.text_of p st)) = true)
         (Docx.children "w:p" (body d) st) ->
  trees (merge_paragraphs d st) = trees st
  /\ out (merge_paragraphs d st)
     = out st ++ Print MergingSplitParagraphs
         :: match Docx.children "w:p" (body d) st with
            | [] => []
            | _ :: _ => [Print (Merged 0)]
            end.
Proof.
  intros H. destruct (Docx.children "w:p" (body d) st) as [|first rest] eqn:K.
  - rewrite (merged_empty d st K). now split.
  - unfold merge_paragraphs.
    change (Docx.children "w:p" (body d) (print MergingSplitParagraphs st))
      with (Docx.children "w:p" (body d) st).
    rewrite K. set (st0 := print MergingSplitParagraphs st).
    assert (Q : merge_loop rest (Merging first 0 st0)
                = Merging (hd first (rev rest)) 0 st0).
    { rewrite <- (rev_involutive rest) at 1. apply quiet_run.
      apply chain_all. intros a b Ha. unfold quiet, quiet_texts.
      assert (Hin : In a (first :: rest)).
      { apply in_app_or in Ha as [Ha|[<-|[]]]; [right; now apply in_rev | now left]. }
      rewrite Forall_forall in H. specialize (H a Hin).
      unfold closed in H. unfold trimmed.
      change (Docx.text_of a st0) with (Docx.text_of a st).
      rewrite !orb_true_iff in *. tauto. }
    rewrite Q. cbn [doc merged_count]. split; [reflexivity|].
    cbn [print emit out]. unfold st0. cbn [print emit out].
    now rewrite <- app_assoc.
Qed.

Lemma punctuated_body_is_untouched_witness :
  trees (merge_paragraphs Sample.the_doc Sample.punctuated)
  = trees Sample.punctuated
  /\ out (merge_paragraphs Sample.the_doc Sample.punctuated)
     = [Print MergingSplitParagraphs; Print (Merged 0)].
Proof.
  apply (punctuated_body_is_untouched Sample.the_doc Sample.punctuated).
  repeat constructor.
Defined.

(** ** A sequence of paragraphs translated *)

Lemma flat_map_follow_notin (p n : nat) (l : list nat) :
  ~ In p l -> flat_map (fun i => if Nat.eqb i p then [i; n] else [i]) l = l.
Proof.
  induction l as [|a l IH]; [reflexivity|]. intros H. cbn [flat_map].
  destruct (Nat.eqb a p) eqn:E.
  - apply Nat.eqb_eq in E. subst a. contradiction H. now left.
  - cbn [app]. f_equal. apply IH. intros Hin. apply H. now right.
Qed.

Lemma flat_map_follow_one (p n : nat) (l1 l2 : list nat) :
  NoDup (l1 ++ p :: l2) ->
  flat_map (fun i => if Nat.eqb i p then [i; n] else [i]) (l1 ++ p :: l2)
  = l1 ++ p :: n :: l2.
Proof.
  intros ND. rewrite flat_map_app. cbn [flat_map]. rewrite Nat.eqb_refl.
  assert (N := NoDup_remove_2 _ _ _ ND).
  rewrite !flat_map_follow_notin; [reflexivity | |]; intros H; apply N, in_or_app;
    [now right | now left].
Qed.

(** *** Paragraphs without hyperlinks *)

Lemma no_hyperlink_find (p : nat) (st : state) (e : elem) :
  find_in p (trees st) = Some e ->
  no_hyperlink p st = forallb (fun c => negb (has_tag "w:hyperlink" c)) (kids e).
Proof.
  intros H. unfold no_hyperlink, Docx.children. rewrite H.
  induction (kids e) as [|k ks IH]; [reflexivity|]. cbn [filter forallb].
  destruct (has_tag "w:hyperlink" k); cbn [map negb andb]; [reflexivity | exact IH].
Qed.

Lemma set_text_find_same (p : nat) (s : Py.str) (st : state) (e : elem) :
  find_in p (trees st) = Some e ->
  find_in p (trees (Docx.set_text p s st)) = Some (Docx.rewritten (fresh st) s e).
Proof.
  intros He. unfold Docx.set_text. rewrite He. cbn [trees alloc set_trees].
  apply (find_in_update_same p (Docx.rewritten (fresh st) s)); [|exact He].
  intros y. reflexivity.
Qed.

(** A paragraph whose text was assigned has its [w:pPr] children and a run. *)
Lemma rewritten_plain (n : nat) (s : Py.str) (e : elem) :
  forallb (fun c => negb (has_tag "w:hyperlink" c)) (kids (Docx.rewritten n s e)) = true.
Proof.
  unfold Docx.rewritten, Docx.with_kids. cbn [kids]. rewrite forallb_app.
  apply andb_true_iff. split; [|reflexivity].
  apply forallb_forall. intros k Hk. apply filter_In in Hk as [_ Hk].
  unfold Docx.is_pPr in Hk. apply has_tag_true in Hk. unfold has_tag. now rewrite Hk.
Qed.

(** The copy has the children of the original whose tag does not end in
    [r], and a run. *)
Lemma translation_plain (n : nat) (e : elem) (s : Py.str) :
  forallb (fun c => negb (has_tag "w:hyperlink" c)) (kids e) = true ->
  forallb (fun c => negb (has_tag "w:hyperlink" c))
          (kids (translation_paragraph n e s)) = true.
Proof.
  intros H. unfold translation_paragraph, Docx.with_kids. cbv zeta. cbn [kids].
  rewrite forallb_app. apply andb_true_iff. split; [|reflexivity].
  apply forallb_forall. intros k Hk. apply filter_In in Hk as [Hk _].
  rewrite kids_shift in Hk. apply in_map_iff in Hk as [c [<- Hc]].
  rewrite forallb_forall in H. specialize (H c Hc). unfold has_tag in *.
  now rewrite tag_shift.
Qed.

Section Plain.

Variable translator : nat -> Py.str -> option Py.str.

(** One turn of the loop leaves the paragraphs of [container] without
    hyperlinks: the paragraph it is for, the one it inserts, the others. *)
Lemma process_plain (container p : nat) (st : state) :
  Wf st ->
  In p (Docx.children "w:p" container st) ->
  no_hyperlinks container st = true ->
  no_hyperlinks container (process_paragraph translator p st) = true.
Proof.
  intros Hwf Hp Hplain.
  assert (Pall := children_paragraphs container st Hwf). rewrite Forall_forall in Pall.
  assert (Pp := Pall p Hp).
  destruct (process_paragraph_cases translator p st) as [[_ ->]|[E1 ->]];
    [exact Hplain|].
  set (st' := translate_paragraph_element translator p st).
  change (forallb (fun q => no_hyperlink q st') (Docx.children "w:p" container st')
          = true).
  unfold no_hyperlinks in Hplain. rewrite forallb_forall in Hplain.
  destruct (child_find _ _ _ _ Hwf Hp) as [e [He Te]].
  destruct (children_find _ _ _ _ Hp) as [y [_ [Hy _]]].
  assert (Pe : forallb (fun c => negb (has_tag "w:hyperlink" c)) (kids e) = true).
  { rewrite <- (no_hyperlink_find p st e He). now apply Hplain. }
  assert (Others : forall q, In q (Docx.children "w:p" container st) -> q <> p ->
                     no_hyperlink q st' = true).
  { intros q Hq Hne. destruct (child_find _ _ _ _ Hwf Hq) as [z [Hz _]].
    unfold no_hyperlink, st'.
    rewrite (translated_children translator st p Hwf Pp "w:hyperlink" q z Hne);
      [apply (Hplain q Hq) | discriminate | exact Hz]. }
  set (text := Py.strip (Docx.text_of p st)) in *.
  assert (Et : text = Py.strip (Docx.Paragraph_text e)).
  { unfold text, Docx.text_of. now rewrite He. }
  apply forallb_forall.
  destruct (translator (calls st) (text_to_translate text)) as [r|] eqn:F.
  - destruct (is_header_colon text) eqn:H.
    + (* the gloss *)
      assert (E : st' = Docx.set_text p
                          (text_to_translate text ++ u"(" ++ Py.strip r ++ u"):")
                          (called (text_to_translate text) st)).
      { unfold st', translate_paragraph_element. rewrite He, <- Et.
        now rewrite (is_empty_false _ E1), F, H. }
      rewrite E.
      rewrite (set_text_children (called (text_to_translate text) st) p _ e Hwf He
                 "w:p" container y (child_other _ _ _ _ Hwf Hp) Hy).
      intros q Hq. destruct (Nat.eq_dec q p) as [->|Hne].
      * rewrite (no_hyperlink_find p _ _
                   (set_text_find_same p _ (called (text_to_translate text) st) e He)).
        apply rewritten_plain.
      * rewrite <- E. now apply Others.
    + (* the translation is inserted *)
      rewrite Et in E1, H, F.
      destruct (plain_paragraph_translation translator p container st e r
                  Hwf Hp He E1 H F) as [C [Fp [Fn _]]].
      fold st' in C, Fp, Fn. rewrite C. intros q Hq.
      apply in_flat_map in Hq as [i [Hi Hq]].
      destruct (Nat.eqb i p) eqn:Eip.
      * apply Nat.eqb_eq in Eip. subst i. destruct Hq as [<-|[<-|[]]].
        -- now rewrite (no_hyperlink_find p st' e Fp).
        -- rewrite (no_hyperlink_find _ st' _ Fn). now apply translation_plain.
      * apply Nat.eqb_neq in Eip. destruct Hq as [<-|[]]. now apply Others.
  - (* the call failed *)
    assert (E : trees st' = trees st).
    { unfold st', translate_paragraph_element. rewrite He, <- Et.
      now rewrite (is_empty_false _ E1), F. }
    intros q Hq. unfold Docx.children in Hq. rewrite E in Hq.
    unfold no_hyperlink, Docx.children. rewrite E. now apply Hplain.
Qed.

End Plain.

Section Rendered.

Variable translator : nat -> Py.str -> option Py.str.
Variable f : Py.str -> option Py.str.
Hypothesis answers : forall n text, translator n text = f text.

(** One turn of the loop, for a paragraph of [container]. *)
Lemma process_rendered (container p : nat) (st : state) (pre todo : list nat) :
  Wf st ->
  Docx.children "w:p" container st = pre ++ p :: todo ->
  let st' := process_paragraph translator p st in
  Wf st'
  /\ (forall q, In q (pre ++ todo) -> Docx.text_of q st' = Docx.text_of q st)
  /\ exists new,
       Docx.children "w:p" container st' = pre ++ p :: new ++ todo
       /\ map (fun q => Docx.text_of q st') (p :: new)
          = rendered f (Docx.text_of p st).
Proof.
  intros Hwf K st'.
  assert (ND := NoDup_children "w:p" container st Hwf). rewrite K in ND.
  assert (Hp : In p (Docx.children "w:p" container st)).
  { rewrite K. apply in_or_app. right. now left. }
  assert (Pall := children_paragraphs container st Hwf). rewrite Forall_forall in Pall.
  assert (Pp := Pall p Hp).
  split; [now apply process_Wf|]. split.
  { intros q Hq. apply process_text; [exact Hwf | exact Pp | |].
    - intros ->. apply (NoDup_remove_2 _ _ _ ND). exact Hq.
    - apply Pall. rewrite K. apply in_app_or in Hq as [Hq|Hq]; apply in_or_app;
        [now left | right; now right]. }
  destruct (child_find _ _ _ _ Hwf Hp) as [e [He Te]].
  destruct (children_find _ _ _ _ Hp) as [y [_ [Hy _]]].
  unfold rendered. cbv zeta.
  destruct (process_paragraph_cases translator p st) as [[E1 E2]|[E1 E2]].
  - exists []. fold st'. unfold st'. rewrite E2, E1. cbn. split; [exact K | reflexivity].
  - unfold st'. rewrite E2.
    rewrite (is_empty_false _ E1).
    change (Docx.children "w:p" container (sleep ?s))
      with (Docx.children "w:p" container s).
    set (text := Py.strip (Docx.text_of p st)) in *.
    assert (Et : text = Py.strip (Docx.Paragraph_text e)).
    { unfold text, Docx.text_of. now rewrite He. }
    destruct (f (text_to_translate text)) as [r|] eqn:F.
    + destruct (is_header_colon text) eqn:H.
      * (* the gloss *)
        assert (E : translate_paragraph_element translator p st
                    = Docx.set_text p
                        (text_to_translate text ++ u"(" ++ Py.strip r ++ u"):")
                        (called (text_to_translate text) st)).
        { unfold translate_paragraph_element. rewrite He, <- Et.
          now rewrite (is_empty_false _ E1), answers, F, H. }
        exists []. rewrite E. split.
        -- rewrite (set_text_children (called (text_to_translate text) st) p _ e Hwf He
                      "w:p" container y (child_other _ _ _ _ Hwf Hp) Hy).
           exact K.
        -- cbn [map].
           change (Docx.text_of p (sleep ?s)) with (Docx.text_of p s).
           now rewrite (text_of_set_text p _ (called (text_to_translate text) st) e He).
      * (* the translation is inserted *)
        rewrite Et in E1, H, F.
        assert (A : translator (calls st)
                      (text_to_translate (Py.strip (Docx.Paragraph_text e))) = Some r)
          by now rewrite answers.
        destruct (plain_paragraph_translation translator p container st e r
                    Hwf Hp He E1 H A) as [C [Fp [Fn Tn]]].
        exists [nid (translation_paragraph (fresh st) e (Re.sub_numbering (Py.strip r)))].
        split.
        -- rewrite C, K. now apply flat_map_follow_one.
        -- cbn [map].
           change (Docx.text_of ?q (sleep ?s)) with (Docx.text_of q s).
           rewrite Tn. f_equal. unfold Docx.text_of. now rewrite Fp, He.
    + (* the call failed *)
      assert (E : trees (translate_paragraph_element translator p st) = trees st).
      { unfold translate_paragraph_element. rewrite He, <- Et.
        now rewrite (is_empty_false _ E1), answers, F. }
      exists []. unfold Docx.children, Docx.text_of. cbn [trees sleep emit map].
      rewrite E. split; [exact K | reflexivity].
Qed.

Lemma list_rendered (container : nat) (todo : list nat) :
  forall (st : state) (pre : list nat),
  Wf st ->
  Docx.children "w:p" container st = pre ++ todo ->
  let st' := process_paragraph_list translator todo st in
  exists pre',
    Docx.children "w:p" container st' = pre ++ pre'
    /\ map (fun q => Docx.text_of q st') pre'
       = flat_map (rendered f) (map (fun q => Docx.text_of q st) todo)
    /\ forall q, In q pre -> Docx.text_of q st' = Docx.text_of q st.
Proof.
  induction todo as [|p todo IH]; intros st pre Hwf K; cbv zeta.
  - exists []. cbn. rewrite app_nil_r in *. now split.
  - change (process_paragraph_list translator (p :: todo) st)
      with (process_paragraph_list translator todo (process_paragraph translator p st)).
    destruct (process_rendered container p st pre todo Hwf K)
      as [W [Hsame [new [K1 T1]]]].
    set (st1 := process_paragraph translator p st) in *.
    assert (K1' : Docx.children "w:p" container st1 = (pre ++ p :: new) ++ todo).
    { rewrite K1, <- app_assoc. reflexivity. }
    destruct (IH st1 (pre ++ p :: new) W K1') as [pre' [K2 [T2 S2]]].
    exists (p :: new ++ pre'). split; [|split].
    + rewrite K2, <- app_assoc. reflexivity.
    + change (flat_map (rendered f) (map (fun q => Docx.text_of q st) (p :: todo)))
        with (rendered f (Docx.text_of p st)
              ++ flat_map (rendered f) (map (fun q => Docx.text_of q st) todo)).
      rewrite <- T1.
      change (p :: new ++ pre') with ((p :: new) ++ pre').
      rewrite map_app. apply f_equal2.
      * apply map_ext_in. intros q Hq. apply S2. apply in_or_app. now right.
      * rewrite T2. f_equal. apply map_ext_in. intros q Hq. apply Hsame.
        apply in_or_app. now right.
    + intros q Hq. rewrite S2; [|apply in_or_app; now left].
      apply Hsame. apply in_or_app. now left.
Qed.

Lemma list_plain (container : nat) (todo : list nat) :
  forall (st : state) (pre : list nat),
  Wf st ->
  Docx.children "w:p" container st = pre ++ todo ->
  no_hyperlinks container st = true ->
  no_hyperlinks container (process_paragraph_list translator todo st) = true.
Proof.
  induction todo as [|p todo IH]; intros st pre Hwf K H; [exact H|].
  change (process_paragraph_list translator (p :: todo) st)
    with (process_paragraph_list translator todo (process_paragraph translator p st)).
  destruct (process_rendered container p st pre todo Hwf K) as [W [_ [new [K1 _]]]].
  apply (IH _ (pre ++ p :: new)); [exact W | |].
  - rewrite K1, <- app_assoc. reflexivity.
  - apply process_plain; [exact Hwf | | exact H].
    rewrite K. apply in_or_app. right. now left.
Qed.

End Rendered.

(** X12.  With a translator whose answer depends on the text only, and in
    a container (the body, a cell, a header, a footer) none of whose
    paragraphs has a hyperlink among its children, the paragraphs of the
    container are after [process_paragraph_list] the paragraphs it had, each
    rendered in its place: left as it was when it has no text or its call
    raised, rewritten as the gloss when it is header-style, followed by its
    cleaned translation otherwise.  The paragraphs of the container are
    without hyperlinks afterwards as well. *)
Theorem paragraphs_are_rendered_in_place
  (translator : nat -> Py.str -> option Py.str) (f : Py.str -> option Py.str)
  (container : nat) (st : state) :
  well_formed st = true ->
  (forall n text, translator n text = f text) ->
  no_hyperlinks container st = true ->
  let st' := process_paragraph_list translator
               (Docx.children "w:p" container st) st in
  texts_in container st' = flat_map (rendered f) (texts_in container st)
  /\ no_hyperlinks container st' = true.
Proof.
  intros Hwf Hf Hplain st'. apply well_formed_Wf in Hwf. split.
  - destruct (list_rendered translator f Hf container
                (Docx.children "w:p" container st) st [] Hwf eq_refl)
      as [pre' [K [T _]]].
    unfold texts_in. fold st' in K, T. rewrite K. cbn [app]. exact T.
  - apply (list_plain translator f Hf container
             (Docx.children "w:p" container st) st [] Hwf eq_refl Hplain).
Qed.

Lemma paragraphs_are_rendered_in_place_witness :
  let st' := process_paragraph_list (Sample.answers u"2. Item")
               (Docx.children "w:p" 0 Sample.scenario) Sample.scenario in
  texts_in 0 st'
  = flat_map (rendered (fun _ => Some u"2. Item")) (texts_in 0 Sample.scenario)
  /\ no_hyperlinks 0 st' = true.
Proof.
  apply (paragraphs_are_rendered_in_place (Sample.answers u"2. Item")
           (fun _ => Some u"2. Item") 0 Sample.scenario); reflexivity.
Defined.

(** ** A paragraph of colons only *)

Lemma drop_while_none_left (g : Py.char -> bool) (s : Py.str) :
  forallb g s = true -> Py.drop_while g s = [].
Proof.
  induction s as [|c s IH]; [reflexivity|]. cbn [forallb Py.drop_while].
  intros H. apply andb_true_iff in H as [-> H]. now apply IH.
Qed.

Lemma colons_only (text : Py.str) :
  text <> [] ->
  forallb (fun c => Py.mem c (0xFF1A%N :: u":")) text = true ->
  text_to_translate text = [] /\ is_header_colon text = true.
Proof.
  intros Hne H. split.
  - unfold text_to_translate, Py.rstrip_chars.
    rewrite drop_while_none_left; [reflexivity|]. now rewrite forallb_rev.
  - rewrite <- forallb_rev in H. unfold is_header_colon, Py.endswith.
    destruct (rev text) as [|c l] eqn:E.
    + apply (f_equal (@rev _)) in E. rewrite rev_involutive in E. contradiction.
    + cbn [forallb] in H. apply andb_true_iff in H as [H _].
      change (Py.mem c (0xFF1A%N :: u":"))
        with ((c =? 0xFF1A)%N || ((c =? 58)%N || false)) in H.
      rewrite orb_false_r in H.
      change (rev [0xFF1A%N]) with [0xFF1A%N]. change (rev u":") with [58%N].
      destruct l; cbn [Py.startswith]; now rewrite !andb_true_r.
Qed.

(** X14.  For a paragraph whose trimmed text is made of colons only, the
    translator is called with the empty text; when it answers, the paragraph
    is left with the answer in parentheses and an ASCII colon, and when it
    raises the error is printed. *)
Theorem colons_are_sent_as_empty_text
  (translator : nat -> Py.str -> option Py.str) (p : nat) (st : state) :
  let text := Py.strip (Docx.text_of p st) in
  let st' := translate_paragraph_element translator p st in
  text <> [] ->
  forallb (fun c => Py.mem c (0xFF1A%N :: u":")) text = true ->
  match translator (calls st) [] with
  | Some translation =>
    out st' = out st ++ [Translate []]
    /\ Docx.text_of p st' = u"(" ++ Py.strip translation ++ u"):"
  | None =>
    out st' = out st ++ [Translate []; Print (ErrorTranslating (firstn 20 text))]
    /\ trees st' = trees st
  end.
Proof.
  intros text st' Hne H. destruct (colons_only text Hne H) as [E Hh].
  destruct (text_of_nonempty p st Hne) as [e He].
  assert (Et : text = Py.strip (Docx.Paragraph_text e)).
  { unfold text, Docx.text_of. now rewrite He. }
  unfold st', translate_paragraph_element. rewrite He, <- Et.
  rewrite (is_empty_false _ Hne), E, Hh.
  destruct (translator (calls st) []) as [r|].
  - split.
    + now rewrite out_set_text.
    + apply (text_of_set_text p _ (called [] st) e He).
  - split; [|reflexivity]. cbn. now rewrite <- app_assoc.
Qed.

Lemma colons_are_sent_as_empty_text_witness :
  let st := Sample.loaded [Sample.paragraph 10 u" ：: "] in
  let st' := translate_paragraph_element (Sample.answers u"x") 10 st in
  out st' = [Translate []] /\ Docx.text_of 10 st' = u"(x):".
Proof.
  apply (colons_are_sent_as_empty_text (Sample.answers u"x") 10
           (Sample.loaded [Sample.paragraph 10 u" ：: "]));
    [discriminate | reflexivity].
Defined.

(** ** The two patterns *)

(** X15.  On a trimmed text the numeric marker holds exactly when the text
    is made of decimal digits only, or begins with decimal digits that a dot
    follows. *)
Theorem marker_on_trimmed_text (s : Py.str) :
  starts_with_number (Py.strip s) = true <->
  exists digits rest,
    Py.strip s = digits ++ rest
    /\ digits <> [] /\ forallb Py.isdecimal digits = true
    /\ (rest = [] \/ exists r, rest = 46%N :: r).
Proof.
  unfold starts_with_number. rewrite match_number_iff. split.
  - intros [ws [ds [rest [E [Fw [Hne [Fd Hr]]]]]]].
    assert (S := strip_stops s). assert (L := strip_last s).
    destruct ws as [|w ws].
    + exists ds, rest. cbn [app] in E. repeat split; try assumption.
      destruct Hr as [Hr|[Hr|Hr]]; [now right | now left|]. exfalso.
      rewrite E, Hr, rev_app_distr in L. cbn in L. discriminate.
    + exfalso. rewrite E in S. cbn in S, Fw.
      apply andb_true_iff in Fw as [Fw _]. congruence.
  - intros [ds [rest [E [Hne [Fd Hr]]]]].
    exists [], ds, rest. repeat split; try assumption.
    destruct Hr as [->|Hr]; [right; now left | now left].
Qed.

(** X16.  The cleanup of a translation only takes a prefix away: what it
    removes is a run of digits and dots and the whitespace after it, and it
    removes nothing when the translation begins with neither. *)
Theorem cleanup_removes_a_prefix (s : Py.str) :
  exists run ws,
    s = run ++ ws ++ Re.sub_numbering s
    /\ forallb Re.digit_or_dot run = true
    /\ forallb Py.isspace ws = true
    /\ (run = [] -> ws = []).
Proof.
  unfold Re.sub_numbering. destruct s as [|c s]; [exists [], []; now repeat split|].
  destruct (Re.digit_or_dot c) eqn:D.
  - destruct (drop_while_split Re.digit_or_dot (c :: s)) as [run [E F]].
    destruct (drop_while_split Py.isspace (Py.drop_while Re.digit_or_dot (c :: s)))
      as [ws [E' F']].
    exists run, ws. repeat split; try assumption.
    + rewrite <- E'. exact E.
    + intros ->. cbn [app] in E. cbn [Py.drop_while] in E. rewrite D in E.
      exfalso. assert (L := f_equal (@List.length _) E). cbn [List.length] in L.
      destruct (drop_while_suffix Re.digit_or_dot s) as [pre Hs].
      rewrite Hs in L at 1. rewrite length_app in L. lia.
  - exists [], []. now repeat split.
Qed.

(** ** The loop over the text boxes comes to an end *)

(** *** Nesting *)

Lemma nesting_unfold (e : elem) :
  nesting e
  = (if has_tag "w:txbxContent" e then 1 else 0) + list_max (map nesting (kids e)).
Proof. destruct e. reflexivity. Qed.

Lemma list_max_in (l : list nat) (x : nat) : In x l -> x <= list_max l.
Proof.
  intros H. assert (F := proj1 (list_max_le l (list_max l)) (Nat.le_refl _)).
  rewrite Forall_forall in F. now apply F.
Qed.

Lemma list_max_map_le {A : Type} (f g : A -> nat) (l : list A) :
  (forall a, In a l -> f a <= g a) ->
  list_max (map f l) <= list_max (map g l).
Proof.
  intros H. apply list_max_le, Forall_forall. intros x Hx.
  apply in_map_iff in Hx as [a [<- Ha]].
  apply (Nat.le_trans _ (g a)); [now apply H|].
  apply list_max_in, in_map, Ha.
Qed.

Lemma list_max_incl (l l' : list nat) : incl l l' -> list_max l <= list_max l'.
Proof.
  intros H. apply list_max_le, Forall_forall. intros x Hx.
  apply list_max_in, H, Hx.
Qed.

Lemma nesting_kid (e k : elem) : In k (kids e) -> nesting k <= nesting e.
Proof.
  intros H. rewrite (nesting_unfold e).
  assert (L := list_max_in (map nesting (kids e)) (nesting k) (in_map nesting _ _ H)).
  lia.
Qed.

Lemma nesting_sub (e y : elem) : In y (iter e) -> nesting y <= nesting e.
Proof.
  induction e as [i t x ks IH] using elem_ind. intros H.
  simpl in H. destruct H as [<-|H]; [apply Nat.le_refl|].
  apply in_flat_map in H as [k [Hk H]]. rewrite Forall_forall in IH.
  apply (Nat.le_trans _ (nesting k)); [now apply IH|].
  now apply (nesting_kid (Elem i t x ks) k).
Qed.

(** What is inside a text box is nested less deep than the box. *)
Lemma nesting_inside (e k y : elem) :
  has_tag "w:txbxContent" e = true -> In k (kids e) -> In y (iter k) ->
  nesting y < nesting e.
Proof.
  intros T Hk Hy. rewrite (nesting_unfold e), T.
  assert (L1 := nesting_sub k y Hy).
  assert (L2 := list_max_in (map nesting (kids e)) (nesting k) (in_map nesting _ _ Hk)).
  lia.
Qed.

Lemma nesting_shift (n : nat) (e : elem) : nesting (shift n e) = nesting e.
Proof.
  induction e as [i t x ks IH] using elem_ind.
  rewrite !nesting_unfold. cbn [shift kids tag has_tag]. f_equal.
  rewrite map_map. f_equal. apply map_ext_in. intros k Hk.
  rewrite Forall_forall in IH. now apply IH.
Qed.

Lemma nesting_with_kids (ks : list elem) (e : elem) :
  list_max (map nesting ks) <= list_max (map nesting (kids e)) ->
  nesting (Docx.with_kids ks e) <= nesting e.
Proof.
  intros H. rewrite (nesting_unfold e), nesting_unfold.
  unfold Docx.with_kids, has_tag. cbn [kids tag].
  destruct (String.eqb (tag e) "w:txbxContent"); lia.
Qed.

Lemma nesting_run (n : nat) (s : Py.str) : nesting (Docx.new_run n s) = 0.
Proof. reflexivity. Qed.

Lemma nesting_rewritten (n : nat) (s : Py.str) (e : elem) :
  nesting (Docx.rewritten n s e) <= nesting e.
Proof.
  unfold Docx.rewritten. apply nesting_with_kids.
  rewrite map_app, list_max_app. cbn [map]. rewrite nesting_run. cbn [list_max fold_right].
  rewrite Nat.max_0_r. apply list_max_incl. intros x Hx.
  apply in_map_iff in Hx as [k [<- Hk]]. apply filter_In in Hk as [Hk _].
  now apply in_map.
Qed.

Lemma nesting_translation (n : nat) (e : elem) (cleaned : Py.str) :
  nesting (translation_paragraph n e cleaned) <= nesting e.
Proof.
  unfold translation_paragraph. cbv zeta.
  apply (Nat.le_trans _ (nesting (shift n e))); [|now rewrite nesting_shift].
  set (c := shift n e).
  set (c1 := Docx.with_kids (filter (fun child => negb (tag_endswith_r child)) (kids c)) c).
  apply (Nat.le_trans _ (nesting c1)).
  - apply nesting_with_kids. rewrite map_app, list_max_app. cbn. lia.
  - unfold c1. apply nesting_with_kids. apply list_max_incl. intros x Hx.
    apply in_map_iff in Hx as [k [<- Hk]]. apply filter_In in Hk as [Hk _].
    now apply in_map.
Qed.

Lemma nesting_update (p : nat) (g : elem -> elem) (y : elem) :
  (forall x, nesting (g x) <= nesting x) ->
  nesting (update p g y) <= nesting y.
Proof.
  intros Hg. induction y as [i t x ks IH] using elem_ind.
  destruct (Nat.eq_dec i p) as [E|E].
  - rewrite (update_at p g (Elem i t x ks) E). apply Hg.
  - rewrite (update_off p g (Elem i t x ks) E). rewrite !nesting_unfold.
    cbn [kids tag has_tag nid text]. apply Nat.add_le_mono_l.
    rewrite map_map. apply list_max_map_le. intros k Hk.
    rewrite Forall_forall in IH. now apply IH.
Qed.

Lemma nesting_graft (p : nat) (new y : elem) :
  (forall k, In k (iter y) -> nid k = p -> nesting new <= nesting k) ->
  nesting (graft p new y) <= nesting y.
Proof.
  induction y as [i t x ks IH] using elem_ind. intros H.
  rewrite graft_unfold, !nesting_unfold. cbn [kids tag has_tag nid text].
  apply Nat.add_le_mono_l. apply list_max_le, Forall_forall. intros n Hn.
  apply in_map_iff in Hn as [z [<- Hz]]. unfold insert_after in Hz.
  apply in_flat_map in Hz as [k' [Hk' Hz]].
  apply in_map_iff in Hk' as [k [<- Hk]].
  rewrite Forall_forall in IH.
  assert (Hle : nesting (graft p new k) <= nesting k).
  { apply (IH k Hk). intros z' Hz' E. apply H; [|exact E].
    apply (iter_kid (Elem i t x ks) k z' Hk Hz'). }
  assert (Hm : nesting k <= list_max (map nesting ks))
    by apply list_max_in, in_map, Hk.
  destruct (has_id p (graft p new k)) eqn:Hp.
  - destruct Hz as [<-|[<-|[]]]; [lia|].
    apply (Nat.le_trans _ (nesting k)); [|exact Hm].
    apply H.
    + apply (iter_kid (Elem i t x ks) k k Hk), iter_self.
    + unfold has_id in Hp. apply Nat.eqb_eq in Hp. now rewrite nid_graft in Hp.
  - destruct Hz as [<-|[]]. lia.
Qed.

(** *** Document order *)

Lemma subseq_refl {A : Type} (l : list A) : subseq l l.
Proof. induction l; constructor; assumption. Qed.

Lemma subseq_nil_l {A : Type} (l : list A) : subseq [] l.
Proof. induction l; constructor; assumption. Qed.

Lemma subseq_trans {A : Type} (a b c : list A) :
  subseq a b -> subseq b c -> subseq a c.
Proof.
  intros Hab Hbc. revert a Hab. induction Hbc; intros a' Hab.
  - exact Hab.
  - constructor. now apply IHHbc.
  - inversion Hab; subst.
    + constructor. now apply IHHbc.
    + apply subseq_keep. now apply IHHbc.
Qed.

Lemma subseq_app {A : Type} (a a' b b' : list A) :
  subseq a b -> subseq a' b' -> subseq (a ++ a') (b ++ b').
Proof.
  intros H H'. induction H; cbn [app]; try (constructor; assumption). exact H'.
Qed.

Lemma subseq_in {A : Type} (a b : list A) (x : A) : subseq a b -> In x a -> In x b.
Proof.
  intros H. induction H; intros Hx.
  - exact Hx.
  - right. now apply IHsubseq.
  - destruct Hx as [->|Hx]; [now left | right; now apply IHsubseq].
Qed.

Lemma subseq_filter {A : Type} (f : A -> bool) (l : list A) : subseq (filter f l) l.
Proof.
  induction l as [|a l IH]; cbn [filter]; [constructor|].
  destruct (f a); constructor; exact IH.
Qed.

Lemma subseq_filter_mono {A : Type} (f : A -> bool) (a b : list A) :
  subseq a b -> subseq (filter f a) (filter f b).
Proof.
  intros H. induction H; cbn [filter].
  - constructor.
  - destruct (f x); [constructor|]; exact IHsubseq.
  - destruct (f x); [apply subseq_keep|]; exact IHsubseq.
Qed.

Lemma subseq_flat_map {A B : Type} (f g : A -> list B) (l : list A) :
  (forall a, In a l -> subseq (f a) (g a)) ->
  subseq (flat_map f l) (flat_map g l).
Proof.
  induction l as [|a l IH]; intros H; cbn [flat_map]; [constructor|].
  apply subseq_app; [apply H; now left | apply IH; intros b Hb; apply H; now right].
Qed.

Lemma subseq_flat_map_filter {A B : Type} (f : A -> list B) (keep : A -> bool)
  (l : list A) :
  subseq (flat_map f (filter keep l)) (flat_map f l).
Proof.
  induction l as [|a l IH]; cbn [flat_map filter]; [constructor|].
  destruct (keep a); cbn [flat_map].
  - apply subseq_app; [apply subseq_refl | exact IH].
  - apply (subseq_app [] _ (f a) _); [apply subseq_nil_l | exact IH].
Qed.

Lemma subseq_flat_map_elem {A B : Type} (f : A -> list B) (l : list A) (a : A) :
  In a l -> subseq (f a) (flat_map f l).
Proof.
  induction l as [|b l IH]; [intros []|]. cbn [flat_map]. intros [->|H].
  - rewrite <- (app_nil_r (f a)) at 1. apply subseq_app;
      [apply subseq_refl | apply subseq_nil_l].
  - apply (subseq_app [] _ (f b) _); [apply subseq_nil_l | now apply IH].
Qed.

Lemma filter_flat_map {A B : Type} (f : B -> bool) (g : A -> list B) (l : list A) :
  filter f (flat_map g l) = flat_map (fun a => filter f (g a)) l.
Proof.
  induction l as [|a l IH]; cbn [flat_map]; [reflexivity|].
  now rewrite filter_app, IH.
Qed.

Lemma flat_map_nested {A B C : Type} (f : B -> list C) (g : A -> list B) (l : list A) :
  flat_map f (flat_map g l) = flat_map (fun a => flat_map f (g a)) l.
Proof.
  induction l as [|a l IH]; cbn [flat_map]; [reflexivity|].
  now rewrite flat_map_app, IH.
Qed.

Lemma after_id_in (a b : nat) (l : list nat) : In b (after_id a l) -> In b l.
Proof.
  induction l as [|i l IH]; [intros []|]. cbn [after_id].
  destruct (Nat.eqb i a); intros H; right; [exact H | now apply IH].
Qed.

Lemma after_id_has (a b : nat) (l : list nat) : In b (after_id a l) -> In a l.
Proof.
  induction l as [|i l IH]; [intros []|]. cbn [after_id].
  destruct (Nat.eqb i a) eqn:E; intros H.
  - left. now apply Nat.eqb_eq.
  - right. now apply IH.
Qed.

Lemma after_id_not_self (a : nat) (l : list nat) : NoDup l -> ~ In a (after_id a l).
Proof.
  induction l as [|i l IH]; [intros _ []|]. intros ND. cbn [after_id].
  apply NoDup_cons_iff in ND as [N ND].
  destruct (Nat.eqb i a) eqn:E.
  - apply Nat.eqb_eq in E. now subst i.
  - now apply IH.
Qed.

Lemma after_id_NoDup (a : nat) (l : list nat) : NoDup l -> NoDup (after_id a l).
Proof.
  induction l as [|i l IH]; [intros _; constructor|]. intros ND. cbn [after_id].
  apply NoDup_cons_iff in ND as [N ND].
  destruct (Nat.eqb i a); [exact ND | now apply IH].
Qed.

(** Leaving members out does not change what comes after what. *)
Lemma after_id_subseq (a b : nat) (l' l : list nat) :
  subseq l' l -> In b (after_id a l') -> In b (after_id a l).
Proof.
  intros H. induction H; cbn [after_id].
  - intros [].
  - intros Hb. destruct (Nat.eqb x a).
    + apply (subseq_in _ _ b H). now apply (after_id_in a).
    + now apply IHsubseq.
  - destruct (Nat.eqb x a).
    + apply (subseq_in _ _ b H).
    + exact IHsubseq.
Qed.

Lemma after_id_filter (f : nat -> bool) (a b : nat) (l : list nat) :
  f a = true -> f b = true -> In b (after_id a l) -> In b (after_id a (filter f l)).
Proof.
  intros Fa Fb. induction l as [|i l IH]; [intros []|]. cbn [after_id filter].
  destruct (Nat.eqb i a) eqn:E.
  - apply Nat.eqb_eq in E. subst i. rewrite Fa. cbn [after_id]. rewrite Nat.eqb_refl.
    intros H. apply filter_In. now split.
  - intros H. destruct (f i); [cbn [after_id]; rewrite E|]; now apply IH.
Qed.

Lemma after_id_trans (c n b : nat) (l : list nat) :
  NoDup l -> In n (after_id c l) -> In b (after_id n l) -> In b (after_id c l).
Proof.
  induction l as [|i l IH]; [intros _ []|]. intros ND. cbn [after_id].
  apply NoDup_cons_iff in ND as [N ND].
  assert (Hn : forall x, In n x -> (forall y, In y x -> In y l) -> Nat.eqb i n = false).
  { intros x Hx Hs. apply Nat.eqb_neq. intros ->. apply N. now apply Hs. }
  destruct (Nat.eqb i c).
  - intros Hc. rewrite (Hn l Hc (fun y H => H)). apply after_id_in.
  - intros Hc. rewrite (Hn _ Hc (fun y => after_id_in c y l)). now apply IH.
Qed.

Lemma after_ids (c : nat) (l : list elem) :
  map nid (after c l) = after_id c (map nid l).
Proof.
  induction l as [|e l IH]; [reflexivity|]. cbn [after after_id map].
  unfold has_id. destruct (Nat.eqb (nid e) c); [reflexivity | exact IH].
Qed.

(** The identities of a subtree are among those of the tree, in the same
    order. *)
Lemma ids_sub_subseq (t y : elem) : In y (iter t) -> subseq (ids y) (ids t).
Proof.
  induction t as [i tg x ks IH] using elem_ind. intros H.
  simpl in H. destruct H as [<-|H]; [apply subseq_refl|].
  apply in_flat_map in H as [k [Hk H]]. rewrite Forall_forall in IH.
  rewrite (ids_unfold (Elem i tg x ks)). constructor. cbn [kids].
  apply (subseq_trans _ (ids k)); [now apply IH|].
  now apply (subseq_flat_map_elem ids ks k).
Qed.

Section Old.

Variable n : nat.

Lemma filter_old_all (l : list nat) : Forall (fun i => i < n) l -> filter (old n) l = l.
Proof.
  intros H. apply filter_id_in. intros i Hi. rewrite Forall_forall in H.
  apply Nat.ltb_lt. now apply H.
Qed.

Lemma filter_old_none (l : list nat) : Forall (fun i => n <= i) l -> filter (old n) l = [].
Proof.
  induction l as [|i l IH]; [reflexivity|]. intros H.
  apply Forall_cons_iff in H as [Hi H]. cbn [filter]. unfold old at 1.
  destruct (Nat.ltb_spec i n); [lia | now apply IH].
Qed.

Lemma old_fresh : old n n = false /\ old n (S n) = false.
Proof. unfold old. split; apply Nat.ltb_ge; lia. Qed.

Lemma subseq_filter_cons (f : nat -> bool) (i : nat) (a b : list nat) :
  subseq (filter f a) b -> subseq (filter f (i :: a)) (i :: b).
Proof.
  intros H. cbn [filter]. destruct (f i); constructor; exact H.
Qed.

Lemma ids_update_subseq (p : nat) (s : Py.str) (t : elem) :
  subseq (filter (old n) (ids (update p (Docx.rewritten n s) t))) (ids t).
Proof.
  induction t as [i tg x ks IH] using elem_ind.
  destruct (Nat.eq_dec i p) as [E|E].
  - rewrite (update_at p _ (Elem i tg x ks) E).
    unfold Docx.rewritten, Docx.with_kids. cbn [nid tag text kids].
    rewrite !ids_unfold. cbn [nid kids]. apply subseq_filter_cons.
    rewrite ids_of_app, filter_app.
    change (ids_of [Docx.new_run n s]) with [n; S n].
    cbn [filter]. destruct old_fresh as [-> ->]. rewrite app_nil_r.
    apply (subseq_trans _ (ids_of (filter Docx.is_pPr ks))); [apply subseq_filter|].
    apply subseq_flat_map_filter.
  - rewrite (update_off p _ (Elem i tg x ks) E). rewrite !ids_unfold.
    cbn [nid kids]. apply subseq_filter_cons.
    unfold ids_of. rewrite filter_flat_map, flat_map_map.
    apply subseq_flat_map. intros k Hk. rewrite Forall_forall in IH. now apply IH.
Qed.

Lemma ids_graft_subseq (p : nat) (new t : elem) :
  Forall (fun i => n <= i) (ids new) ->
  subseq (filter (old n) (ids (graft p new t))) (ids t).
Proof.
  intros Hnew. induction t as [i tg x ks IH] using elem_ind.
  rewrite graft_unfold, !ids_unfold. cbn [nid kids]. apply subseq_filter_cons.
  unfold ids_of, insert_after.
  rewrite flat_map_nested, filter_flat_map, flat_map_map.
  apply subseq_flat_map. intros k Hk. rewrite Forall_forall in IH.
  destruct (has_id p (graft p new k)); cbn [flat_map]; rewrite ?app_nil_r.
  - rewrite filter_app, (filter_old_none _ Hnew), app_nil_r. now apply IH.
  - now apply IH.
Qed.

End Old.

(** *** One text box translated *)

Lemma filter_old_le (n0 n : nat) (l : list nat) :
  n0 <= n -> filter (old n0) (filter (old n) l) = filter (old n0) l.
Proof.
  intros H. rewrite filter_filter. apply filter_ext. intros i. unfold old.
  destruct (Nat.ltb_spec i n0), (Nat.ltb_spec i n); try reflexivity; lia.
Qed.

Lemma order_compose (n0 n : nat) (a b c : list nat) :
  n0 <= n ->
  subseq (filter (old n) a) b -> subseq (filter (old n0) b) c ->
  subseq (filter (old n0) a) c.
Proof.
  intros H Hab Hbc. rewrite <- (filter_old_le n0 n a H).
  apply (subseq_trans _ (filter (old n0) b)); [|exact Hbc].
  now apply subseq_filter_mono.
Qed.

Lemma existsb_map_nid (f : elem -> elem) (i : nat) (l : list elem) :
  (forall x, nid (f x) = nid x) ->
  existsb (has_id i) (map f l) = existsb (has_id i) l.
Proof.
  intros H. induction l as [|a l IH]; [reflexivity|]. cbn [map existsb].
  unfold has_id at 1 3. now rewrite H, IH.
Qed.

Lemma nodes_tree (l : list elem) (z : elem) :
  In z (nodes l) -> exists t, In t l /\ In z (iter t).
Proof. intros H. apply in_flat_map in H. exact H. Qed.

Lemma iter_trans (t y z : elem) : In y (iter t) -> In z (iter y) -> In z (iter t).
Proof.
  intros Hy Hz. assert (H := nodes_iter [t] y z).
  unfold nodes in H. cbn [flat_map] in H. rewrite app_nil_r in H. now apply H.
Qed.

Lemma grown_refl (s0 : state) (H : nat) : Wf s0 -> grown s0 H s0.
Proof.
  intros W. split.
  - exact W.
  - apply Nat.le_refl.
  - intros q y Hq. exists y. repeat split; [exact Hq | apply Nat.le_refl].
  - intros z Hz Hn. exfalso. destruct W as [_ F]. rewrite Forall_forall in F.
    assert (L : nid z < fresh s0).
    { apply F. rewrite ids_of_nodes. now apply in_map. }
    lia.
  - intros t' Ht. exists t'. split; [exact Ht | apply subseq_filter].
  - intros i Hi. exact Hi.
Qed.

Lemma grown_same (s0 : state) (H : nat) (s s' : state) :
  grown s0 H s -> trees s' = trees s -> fresh s' = fresh s -> grown s0 H s'.
Proof.
  intros [W F O N T R] Et Ef. split; rewrite ?Et, ?Ef; try assumption.
  unfold Wf in *. now rewrite Et, Ef.
Qed.

Lemma grown_set_text (s0 : state) (H : nat) (s : state) (p : nat) (txt : Py.str)
  (e : elem) :
  grown s0 H s -> 0 < H -> find_in p (trees s) = Some e ->
  grown s0 H (Docx.set_text p txt s).
Proof.
  intros [W F O N T R] HH He.
  assert (Et := set_text_trees s p txt e He).
  assert (Hnid : forall x, nid (update p (Docx.rewritten (fresh s) txt) x) = nid x).
  { intros x. apply nid_update. intros y. reflexivity. }
  split.
  - apply (set_text_Wf s p txt e W He).
  - unfold Docx.set_text. rewrite He. cbn. lia.
  - intros q y Hq. destruct (O q y Hq) as [y' [Hy' [Ty Ny]]].
    exists (update p (Docx.rewritten (fresh s) txt) y'). split; [|split].
    + apply (set_text_find s p txt e W He q y' Hy').
    + rewrite tag_update; [exact Ty | intros x; reflexivity].
    + apply (Nat.le_trans _ (nesting y')); [|exact Ny].
      apply nesting_update. intros x. apply nesting_rewritten.
  - intros z Hz Hn. rewrite Et in Hz.
    assert (P := nodes_update p (Docx.rewritten (fresh s) txt)
                   (fun ks => filter Docx.is_pPr ks ++ [Docx.new_run (fresh s) txt])
                   (fun ks => filter (fun k => negb (Docx.is_pPr k)) ks)
                   [Docx.new_run (fresh s) txt]
                   (g_kids s txt) (h_perm s txt) (trees s) (proj1 W)).
    unfold lost_in, won_in in P. rewrite He in P.
    apply (Permutation_in _ P) in Hz. apply in_app_or in Hz as [Hz|Hz].
    + apply in_map_iff in Hz as [y [<- Hy]]. rewrite Hnid in Hn.
      apply (Nat.le_lt_trans _ (nesting y)); [|now apply N].
      apply nesting_update. intros x. apply nesting_rewritten.
    + cbn in Hz. destruct Hz as [<-|[<-|[]]]; exact HH.
  - intros t' Ht. rewrite Et in Ht. apply in_app_or in Ht as [Ht|Ht].
    + apply in_map_iff in Ht as [t1 [<- Ht1]].
      destruct (T t1 Ht1) as [t [Ht0 S]]. exists t. split; [exact Ht0|].
      apply (order_compose (fresh s0) (fresh s) _ (ids t1)); [exact F | | exact S].
      apply ids_update_subseq.
    + apply filter_In in Ht as [Ht _].
      apply find_in_Some in He as [He _].
      destruct (nodes_tree _ _ He) as [t1 [Ht1 Hi]].
      destruct (T t1 Ht1) as [t [Ht0 S]]. exists t. split; [exact Ht0|].
      apply (subseq_trans _ (filter (old (fresh s0)) (ids t1))); [|exact S].
      apply subseq_filter_mono, ids_sub_subseq.
      apply (iter_trans t1 e t' Hi). apply (iter_kid e t' t' Ht), iter_self.
  - intros i Hi. rewrite Et, existsb_app, (existsb_map_nid _ i _ Hnid).
    now rewrite (R i Hi).
Qed.

Lemma grown_insert (s0 : state) (H : nat) (s s'' : state) (p : nat) (e : elem)
  (cleaned : Py.str) :
  let new := translation_paragraph (fresh s) e cleaned in
  grown s0 H s -> find_in p (trees s) = Some e -> nesting e < H ->
  Docx.insert_next p new s = Some s'' ->
  grown s0 H (alloc (2 + fresh s) s'').
Proof.
  intros new [W F O N T R] He Hn Hins.
  destruct (Wf_found s p e W He) as [Hd Ho].
  assert (ND : NoDup (ids new)) by apply (new_distinct (fresh s) e cleaned Hd Ho).
  assert (NR := new_range (fresh s) e cleaned Hd Ho). fold new in NR.
  assert (NF : Forall (fun i => fresh s <= i) (ids new)).
  { apply Forall_forall. intros i Hi. now apply NR in Hi. }
  assert (Et := insert_trees s s'' p new Hins).
  assert (Ef := insert_fresh s s'' p new Hins).
  assert (Hnew : nesting new <= nesting e) by apply nesting_translation.
  assert (Hg : forall y, In y (nodes (trees s)) -> nesting (graft p new y) <= nesting y).
  { intros y Hy. apply nesting_graft. intros k Hk Ek.
    assert (Hk' : In k (nodes (trees s))) by apply (nodes_iter _ y k Hy Hk).
    assert (Fk := find_in_unique (trees s) k (proj1 W) Hk'). rewrite Ek, He in Fk.
    injection Fk as <-. exact Hnew. }
  split.
  - apply (insert_Wf s s'' p new W ND NF Hins). apply Forall_forall.
    intros i Hi. apply NR in Hi. lia.
  - cbn [alloc fresh]. lia.
  - intros q y Hq. destruct (O q y Hq) as [y' [Hy' [Ty Ny]]].
    exists (graft p new y'). split; [|split].
    + cbn [alloc trees]. apply (insert_find s s'' p new W ND NF Hins q y' Hy').
    + now rewrite tag_graft.
    + apply (Nat.le_trans _ (nesting y')); [|exact Ny].
      apply Hg. now apply find_in_Some in Hy' as [Hy' _].
  - intros z Hz Hz'. cbn [alloc trees] in Hz. rewrite Et in Hz.
    assert (P := nodes_graft p new (trees s) (proj1 W) (insert_roots s s'' p new W Hins)).
    rewrite (insert_grown s s'' p new Hins) in P.
    apply (Permutation_in _ P) in Hz. apply in_app_or in Hz as [Hz|Hz].
    + apply in_map_iff in Hz as [y [<- Hy]]. rewrite nid_graft in Hz'.
      apply (Nat.le_lt_trans _ (nesting y)); [now apply Hg | now apply N].
    + unfold nodes in Hz. cbn [flat_map] in Hz. rewrite app_nil_r in Hz.
      apply (Nat.le_lt_trans _ (nesting new)); [now apply nesting_sub | lia].
  - intros t' Ht. cbn [alloc trees] in Ht. rewrite Et in Ht.
    apply in_map_iff in Ht as [t1 [<- Ht1]].
    destruct (T t1 Ht1) as [t [Ht0 S]]. exists t. split; [exact Ht0|].
    apply (order_compose (fresh s0) (fresh s) _ (ids t1)); [exact F | | exact S].
    now apply ids_graft_subseq.
  - intros i Hi. cbn [alloc trees]. rewrite Et, existsb_map_nid; [now apply R|].
    intros x. apply nid_graft.
Qed.

Section Grown.

Variable translator : nat -> Py.str -> option Py.str.

Lemma grown_translate (s0 : state) (H : nat) (s : state) (p : nat) :
  grown s0 H s -> 0 < H ->
  (forall e, find_in p (trees s) = Some e -> nesting e < H) ->
  grown s0 H (translate_paragraph_element translator p s).
Proof.
  intros G HH Hp. unfold translate_paragraph_element.
  destruct (find_in p (trees s)) as [e|] eqn:He; [|exact G].
  destruct (Py.is_empty _); [exact G|].
  set (text := Py.strip (Docx.Paragraph_text e)).
  assert (G1 : grown s0 H (called (text_to_translate text) s))
    by now apply (grown_same s0 H s).
  destruct (translator (calls s) (text_to_translate text)) as [r|].
  - destruct (is_header_colon text).
    + apply (grown_set_text s0 H _ p _ e G1 HH He).
    + destruct (Docx.insert_next p _ _) as [s''|] eqn:I.
      * apply (grown_insert s0 H (called (text_to_translate text) s) s'' p e
                 (Re.sub_numbering (Py.strip r)) G1 He (Hp e eq_refl) I).
      * now apply (grown_same s0 H (called (text_to_translate text) s)).
  - now apply (grown_same s0 H s).
Qed.

Lemma grown_process (s0 : state) (H : nat) (s : state) (p : nat) :
  grown s0 H s -> 0 < H ->
  (forall e, find_in p (trees s) = Some e -> nesting e < H) ->
  grown s0 H (process_paragraph translator p s).
Proof.
  intros G HH Hp. unfold process_paragraph.
  destruct (Py.is_empty _); [exact G|].
  apply (grown_same s0 H (translate_paragraph_element translator p s));
    [now apply grown_translate | reflexivity | reflexivity].
Qed.

Lemma grown_list (s0 : state) (H : nat) (ps : list nat) :
  0 < H ->
  (forall p, In p ps ->
     exists e, find_in p (trees s0) = Some e /\ nesting e < H) ->
  forall s, grown s0 H s ->
  grown s0 H (for_each ps (process_paragraph translator) s).
Proof.
  intros HH. unfold for_each. induction ps as [|p ps IH]; intros Hps s G; [exact G|].
  cbn [fold_left]. apply IH; [intros q Hq; apply Hps; now right|].
  apply grown_process; [exact G | exact HH|].
  intros e He. destruct (Hps p (or_introl eq_refl)) as [e0 [He0 Hn]].
  destruct (grown_old _ _ _ G p e0 He0) as [e' [He' [_ Hle]]].
  assert (e' = e) by congruence. subst e'. lia.
Qed.

End Grown.

(** *** The walk *)

Lemma tree_unique (l : list elem) (a b : elem) (x : nat) :
  NoDup (ids_of l) -> In a l -> In b l -> In x (ids a) -> In x (ids b) -> a = b.
Proof.
  unfold ids_of. induction l as [|c l IH]; [intros _ []|]. cbn [flat_map].
  intros ND Ha Hb Hx Hy.
  assert (D := NoDup_app_disjoint _ _ x ND).
  destruct Ha as [->|Ha], Hb as [->|Hb].
  - reflexivity.
  - exfalso. apply (D Hx). apply in_flat_map. now exists b.
  - exfalso. apply (D Hy). apply in_flat_map. now exists a.
  - apply (IH (NoDup_app_remove_l _ _ ND) Ha Hb Hx Hy).
Qed.

Lemma holds_true (i : nat) (e : elem) : holds i e = true <-> In i (ids e).
Proof.
  unfold holds. rewrite existsb_exists. split.
  - intros [x [Hx E]]. apply Nat.eqb_eq in E. now subst x.
  - intros H. exists i. split; [exact H | apply Nat.eqb_refl].
Qed.

Lemma rooted_body (d : document) (s : state) :
  Wf s -> rooted d s = true ->
  exists b, In b (trees s) /\ nid b = body d /\ find_in (body d) (trees s) = Some b.
Proof.
  intros W R. unfold rooted in R. apply existsb_exists in R as [b [Hb E]].
  unfold has_id in E. apply Nat.eqb_eq in E. exists b. repeat split; try assumption.
  rewrite <- E. apply find_in_unique; [apply W | now apply nodes_root].
Qed.

(** The walk from [a] goes through what comes after [a] in the tree [a] is
    in. *)
Lemma walk_tree (d : document) (s : state) (a : nat) :
  Wf s -> rooted d s = true ->
  walk d (Some a) s = []
  \/ exists t, In t (trees s) /\ walk d (Some a) s = after a (iter t).
Proof.
  intros W R. destruct (rooted_body d s W R) as [b [Hb [_ Fb]]].
  unfold walk. rewrite Fb. destruct (holds a b).
  - right. now exists b.
  - destruct (List.find (holds a) (trees s)) as [t|] eqn:F; [|now left].
    right. exists t. split; [|reflexivity]. now apply find_some in F.
Qed.

Lemma walk_in_tree (d : document) (s : state) (a : nat) (t : elem) :
  Wf s -> rooted d s = true -> In t (trees s) -> In a (ids t) ->
  walk d (Some a) s = after a (iter t).
Proof.
  intros W R Ht Ha. destruct (rooted_body d s W R) as [b [Hb [_ Fb]]].
  unfold walk. rewrite Fb. destruct (holds a b) eqn:Hab.
  - apply holds_true in Hab.
    now rewrite (tree_unique (trees s) b t a (proj1 W) Hb Ht Hab Ha).
  - destruct (List.find (holds a) (trees s)) as [t2|] eqn:F.
    + apply find_some in F as [Ht2 H2]. apply holds_true in H2.
      now rewrite (tree_unique (trees s) t2 t a (proj1 W) Ht2 Ht H2 Ha).
    + exfalso. assert (N := find_none _ _ F t Ht).
      apply holds_true in Ha. congruence.
Qed.

Lemma tree_distinct (s : state) (t : elem) : Wf s -> In t (trees s) -> NoDup (ids t).
Proof. intros W Ht. apply (NoDup_flat_map_elem ids (trees s) t (proj1 W) Ht). Qed.

Lemma after_sub (a : nat) (l : list elem) (z : elem) : In z (after a l) -> In z l.
Proof.
  induction l as [|e l IH]; [intros []|]. cbn [after].
  destruct (has_id a e); intros H; right; [exact H | now apply IH].
Qed.

Lemma find_hd {A : Type} (f : A -> bool) (l : list A) :
  List.find f l = hd_error (filter f l).
Proof.
  induction l as [|a l IH]; [reflexivity|]. cbn [List.find filter].
  destruct (f a); [reflexivity | exact IH].
Qed.

Lemma next_is_first (d : document) (s : state) (cur : nat) :
  next_txbx d (Some cur) s = hd_error (boxes_later d s cur).
Proof.
  unfold next_txbx, boxes_later. rewrite find_hd.
  now destruct (filter _ _).
Qed.

(** A box the walk has yet to come to, in terms of identities. *)
Lemma boxes_later_in (d : document) (s : state) (a i : nat) :
  Wf s -> rooted d s = true ->
  In i (boxes_later d s a) ->
  exists t z, In t (trees s) /\ In i (after_id a (ids t))
              /\ find_in i (trees s) = Some z /\ tag z = "w:txbxContent".
Proof.
  intros W R H. unfold boxes_later in H.
  apply in_map_iff in H as [z [<- Hz]]. apply filter_In in Hz as [Hz Tz].
  destruct (walk_tree d s a W R) as [E|[t [Ht E]]]; rewrite E in Hz; [destruct Hz|].
  exists t, z. repeat split.
  - exact Ht.
  - rewrite ids_iter, <- after_ids. now apply in_map.
  - apply find_in_unique; [apply W|].
    apply (nodes_iter _ t z (nodes_root _ _ Ht)). now apply (after_sub a).
  - now apply has_tag_true.
Qed.

Lemma boxes_later_intro (d : document) (s : state) (a i : nat) (t z : elem) :
  Wf s -> rooted d s = true ->
  In t (trees s) -> In i (after_id a (ids t)) ->
  find_in i (trees s) = Some z -> tag z = "w:txbxContent" ->
  In i (boxes_later d s a).
Proof.
  intros W R Ht Hi Fz Tz.
  assert (Ha := after_id_has a i _ Hi).
  unfold boxes_later. rewrite (walk_in_tree d s a t W R Ht Ha).
  rewrite ids_iter, <- after_ids in Hi. apply in_map_iff in Hi as [z' [E Hz']].
  assert (F' : find_in (nid z') (trees s) = Some z').
  { apply find_in_unique; [apply W|].
    apply (nodes_iter _ t z' (nodes_root _ _ Ht)). now apply (after_sub a). }
  rewrite E, Fz in F'. injection F' as <-.
  apply in_map_iff. exists z. split; [exact E|]. apply filter_In.
  split; [exact Hz' | now apply has_tag_true].
Qed.

Lemma boxes_later_distinct (d : document) (s : state) (a : nat) :
  Wf s -> rooted d s = true -> NoDup (a :: boxes_later d s a).
Proof.
  intros W R. unfold boxes_later.
  destruct (walk_tree d s a W R) as [E|[t [Ht E]]]; rewrite E.
  - repeat constructor. intros [].
  - assert (ND := tree_distinct s t W Ht).
    assert (M : map nid (after a (iter t)) = after_id a (ids t))
      by now rewrite ids_iter, after_ids.
    constructor.
    + intros H. apply in_map_iff in H as [z [Ez Hz]]. apply filter_In in Hz as [Hz _].
      apply (after_id_not_self a (ids t) ND). rewrite <- M, <- Ez.
      apply in_map. now rewrite Ez.
    + apply NoDup_map_filter. rewrite M. now apply after_id_NoDup.
Qed.

(** *** One turn of the loop *)

Lemma deep_incl (s' s : state) (j : nat) (l' l : list nat) :
  NoDup l' ->
  (forall i, In i l' -> j <= height_of s' i -> In i l /\ j <= height_of s i) ->
  deep s' j l' <= deep s j l.
Proof.
  intros ND H. unfold deep. apply NoDup_incl_length; [now apply NoDup_filter|].
  intros i Hi. apply filter_In in Hi as [Hi Hj]. apply Nat.leb_le in Hj.
  destruct (H i Hi Hj) as [Hl Hh]. apply filter_In. split; [exact Hl|].
  now apply Nat.leb_le.
Qed.

Lemma deep_cons (s : state) (j i : nat) (l : list nat) :
  deep s j (i :: l) = (if Nat.leb j (height_of s i) then 1 else 0) + deep s j l.
Proof. unfold deep. cbn [filter]. now destruct (Nat.leb j (height_of s i)). Qed.

Lemma box_nesting (y : elem) : tag y = "w:txbxContent" -> 0 < nesting y.
Proof.
  intros T. rewrite nesting_unfold. apply has_tag_true in T. rewrite T. lia.
Qed.

Section Turn.

Variable translator : nat -> Py.str -> option Py.str.
Variable d : document.
Variable st : state.
Variable c : nat.
Variable yc : elem.
Hypothesis st_wf : Wf st.
Hypothesis st_rooted : rooted d st = true.
Hypothesis c_found : find_in c (trees st) = Some yc.
Hypothesis c_box : tag yc = "w:txbxContent".

Lemma turn_paragraphs (p : nat) :
  In p (txbx_paragraphs c st) ->
  exists e, find_in p (trees st) = Some e /\ nesting e < nesting yc.
Proof.
  unfold txbx_paragraphs. rewrite c_found. intros H.
  apply in_map_iff in H as [e [<- He]]. apply filter_In in He as [He Te].
  apply has_tag_true in Te. exists e.
  assert (Hy := proj1 (find_in_Some _ _ _ c_found)). split.
  - apply find_in_unique; [apply st_wf | now apply (nodes_iter _ yc e)].
  - rewrite iter_unfold in He. destruct He as [<-|He]; [congruence|].
    destruct (nodes_tree _ _ He) as [k [Hk Hi]].
    apply (nesting_inside yc k e); [now apply has_tag_true | exact Hk | exact Hi].
Qed.

Lemma turn_grown :
  grown st (nesting yc)
        (for_each (txbx_paragraphs c st) (process_paragraph translator) st).
Proof.
  apply grown_list; [now apply box_nesting | apply turn_paragraphs|].
  now apply grown_refl.
Qed.

Variable n1 : nat.
Hypothesis n1_next : next_txbx d (Some c) st = Some n1.

Lemma turn_next_later : In n1 (boxes_later d st c).
Proof.
  rewrite next_is_first in n1_next.
  destruct (boxes_later d st c) as [|a l]; [discriminate|].
  injection n1_next as ->. now left.
Qed.

Lemma turn_ready :
  ready d (for_each (txbx_paragraphs c st) (process_paragraph translator) st) n1.
Proof.
  assert (G := turn_grown).
  destruct (boxes_later_in d st c n1 st_wf st_rooted turn_next_later)
    as [t [z [_ [_ [Fz Tz]]]]].
  destruct (grown_old _ _ _ G n1 z Fz) as [y' [Fy [Ty _]]].
  split; [apply (grown_wf _ _ _ G)|]. split.
  - apply (grown_roots _ _ _ G). exact st_rooted.
  - exists y'. split; [exact Fy | congruence].
Qed.

(** The boxes the loop is at or has yet to come to after the turn, nested
    as deep as [c] or deeper, were to come after [c] before the turn, nested
    at least as deep. *)
Lemma turn_deep (j : nat) :
  nesting yc <= j ->
  let st' := for_each (txbx_paragraphs c st) (process_paragraph translator) st in
  deep st' j (n1 :: boxes_later d st' n1) <= deep st j (boxes_later d st c).
Proof.
  intros Hj st'. assert (G := turn_grown). fold st' in G.
  destruct turn_ready as [W' [R' [y1 [F1 T1]]]]. fold st' in W', R', F1.
  destruct (boxes_later_in d st c n1 st_wf st_rooted turn_next_later)
    as [tc [z1 [Htc [A1 [Fz1 Tz1]]]]].
  apply deep_incl; [now apply boxes_later_distinct|].
  intros i Hi Hh.
  (* the box in the state after the turn *)
  assert (Z' : exists z', find_in i (trees st') = Some z' /\ tag z' = "w:txbxContent").
  { destruct Hi as [<-|Hi]; [now exists y1|].
    destruct (boxes_later_in d st' n1 i W' R' Hi) as [t' [z' [_ [_ [Fz Tz]]]]].
    now exists z'. }
  destruct Z' as [z' [Fz' Tz']].
  assert (Hz' : height_of st' i = nesting z') by (unfold height_of; now rewrite Fz').
  (* it is not new *)
  assert (Hold : i < fresh st).
  { destruct (Nat.lt_ge_cases i (fresh st)) as [L|L]; [exact L|]. exfalso.
    apply find_in_Some in Fz' as [Hn En]. rewrite <- En in L.
    assert (N := grown_new _ _ _ G z' Hn L). lia. }
  (* it came after [c] *)
  assert (A : In i (after_id c (ids tc))).
  { destruct Hi as [<-|Hi]; [exact A1|].
    destruct (boxes_later_in d st' n1 i W' R' Hi) as [t' [z'' [Ht' [Ai _]]]].
    destruct (grown_order _ _ _ G t' Ht') as [t0 [Ht0 S]].
    assert (O1 : old (fresh st) n1 = true).
    { apply Nat.ltb_lt. destruct st_wf as [_ F]. rewrite Forall_forall in F.
      apply F. rewrite ids_of_nodes. apply find_in_Some in Fz1 as [Hn <-].
      now apply in_map. }
    assert (Oi : old (fresh st) i = true) by now apply Nat.ltb_lt.
    assert (A0 := after_id_subseq n1 i _ _ S
                    (after_id_filter (old (fresh st)) n1 i _ O1 Oi Ai)).
    assert (E : t0 = tc).
    { apply (tree_unique (trees st) t0 tc n1 (proj1 st_wf) Ht0 Htc).
      - now apply (after_id_has n1 i).
      - now apply (after_id_in c). }
    subst t0.
    apply (after_id_trans c n1 i (ids tc) (tree_distinct st tc st_wf Htc) A1 A0). }
  (* the box in the state before the turn *)
  assert (Hi0 := after_id_in c i _ A). rewrite ids_iter in Hi0.
  apply in_map_iff in Hi0 as [z0 [E0 Hz0]].
  assert (F0 : find_in i (trees st) = Some z0).
  { rewrite <- E0. apply find_in_unique; [apply st_wf|].
    apply (nodes_iter _ tc z0 (nodes_root _ _ Htc) Hz0). }
  destruct (grown_old _ _ _ G i z0 F0) as [y' [Fy [Ty Ny]]].
  assert (y' = z') by congruence. subst y'.
  split.
  - apply (boxes_later_intro d st c i tc z0 st_wf st_rooted Htc A F0). congruence.
  - unfold height_of. rewrite F0. lia.
Qed.

Lemma turn_load :
  let st' := for_each (txbx_paragraphs c st) (process_paragraph translator) st in
  flt (load d st' n1) (load d st c).
Proof.
  intros st'. exists (nesting yc).
  assert (Hc : height_of st c = nesting yc) by (unfold height_of; now rewrite c_found).
  unfold load. split.
  - rewrite (deep_cons st (nesting yc) c), Hc, Nat.leb_refl.
    assert (L := turn_deep (nesting yc) (Nat.le_refl _)). fold st' in L. cbv zeta in L.
    lia.
  - intros j Hj. rewrite (deep_cons st j c), Hc.
    assert (L := turn_deep j (Nat.lt_le_incl _ _ Hj)). fold st' in L. cbv zeta in L.
    lia.
Qed.

End Turn.

(** *** The loop ends *)

Lemma flt_support (f' f : nat -> nat) (B : nat) :
  flt f' f -> (forall j, B < j -> f j = 0) -> forall j, B < j -> f' j = 0.
Proof.
  intros [h [Hlt Hle]] Hs j Hj. destruct (Nat.lt_ge_cases h j) as [L|L].
  - assert (A := Hle j L). rewrite (Hs j Hj) in A. lia.
  - assert (A := Hs h (Nat.lt_le_trans _ _ _ Hj L)). lia.
Qed.

Lemma flt_ext (f' g f : nat -> nat) :
  flt f' g -> (forall j, g j = f j) -> flt f' f.
Proof.
  intros [h [Hlt Hle]] E. exists h. split; [now rewrite <- E|].
  intros j Hj. rewrite <- E. now apply Hle.
Qed.

(** [flt] is well founded on the functions that are zero from some depth
    on. *)
Lemma flt_Acc (B : nat) :
  forall f, (forall j, B < j -> f j = 0) -> Acc flt f.
Proof.
  induction B as [|B IHB].
  - intros f. remember (f 0) as a eqn:Ea. revert f Ea.
    induction a as [a IHa] using lt_wf_ind. intros f Ea Hs.
    constructor. intros f' Hf'. assert (Hs' := flt_support f' f 0 Hf' Hs).
    destruct Hf' as [h [Hlt _]]. destruct h as [|h].
    + apply (IHa (f' 0)); [lia | reflexivity | exact Hs'].
    + rewrite (Hs (S h)) in Hlt; lia.
  - set (top := S B).
    set (cut := fun (f : nat -> nat) j => if Nat.eqb j top then 0 else f j).
    assert (Hcut : forall f, (forall j, top < j -> f j = 0) ->
                             forall j, B < j -> cut f j = 0).
    { intros f Hs j Hj. unfold cut. destruct (Nat.eqb_spec j top); [reflexivity|].
      apply Hs. unfold top. lia. }
    assert (Lift : forall a g, Acc flt g ->
              forall f, f top = a -> (forall j, j <> top -> f j = g j) ->
                        g top = 0 -> (forall j, top < j -> f j = 0) -> Acc flt f).
    { induction a as [a IHa] using lt_wf_ind. intros g Hg.
      induction Hg as [g _ IHg]. intros f Ea Eg Hg0 Hs.
      constructor. intros f' Hf'. assert (Hs' := flt_support f' f top Hf' Hs).
      destruct (Nat.lt_ge_cases (f' top) a) as [L|L].
      - apply (IHa (f' top) L (cut f') (IHB _ (Hcut f' Hs')) f'); try reflexivity.
        + intros j Hj. unfold cut. now destruct (Nat.eqb_spec j top).
        + unfold cut. now rewrite Nat.eqb_refl.
        + exact Hs'.
      - destruct Hf' as [h [Hlt Hle]].
        assert (Hh : h < top).
        { destruct (Nat.lt_trichotomy h top) as [A|[A|A]]; [exact A| |].
          - subst h. lia.
          - rewrite (Hs h A) in Hlt. lia. }
        assert (Et : f' top = a).
        { assert (A := Hle top Hh). lia. }
        apply (IHg (cut f')).
        + exists h. split.
          * unfold cut. destruct (Nat.eqb_spec h top); [lia|].
            rewrite <- Eg; [exact Hlt | lia].
          * intros j Hj. unfold cut. destruct (Nat.eqb_spec j top); [lia|].
            rewrite <- (Eg j n). now apply Hle.
        + exact Et.
        + intros j Hj. unfold cut. now destruct (Nat.eqb_spec j top).
        + unfold cut. now rewrite Nat.eqb_refl.
        + exact Hs'. }
    intros f Hs.
    apply (Lift (f top) (cut f) (IHB _ (Hcut f Hs)) f); try reflexivity.
    + intros j Hj. unfold cut. now destruct (Nat.eqb_spec j top).
    + unfold cut. now rewrite Nat.eqb_refl.
    + exact Hs.
Qed.

Lemma deep_zero (s : state) (j : nat) (l : list nat) :
  list_max (map (height_of s) l) < j -> deep s j l = 0.
Proof.
  intros H. unfold deep.
  assert (E : filter (fun i => Nat.leb j (height_of s i)) l = []).
  { induction l as [|i l IH]; [reflexivity|]. cbn [map list_max fold_right] in H.
    cbn [filter]. destruct (Nat.leb_spec j (height_of s i)); [lia|].
    apply IH. unfold list_max. lia. }
  now rewrite E.
Qed.

Lemma load_Acc (d : document) (s : state) (c : nat) : Acc flt (load d s c).
Proof.
  apply (flt_Acc (list_max (map (height_of s) (c :: boxes_later d s c)))).
  intros j Hj. now apply deep_zero.
Qed.

Section Ends.

Variable translator : nat -> Py.str -> option Py.str.
Variable d : document.

Lemma loop_ends_from (f : nat -> nat) :
  Acc flt f ->
  forall c s, ready d s c -> (forall j, load d s c j = f j) ->
  exists fuel, forall n, snd (text_box_loop translator fuel d (Some c) n s) = true.
Proof.
  induction 1 as [f _ IH]. intros c s [W [R [y [Fy Ty]]]] Hf.
  destruct (next_txbx d (Some c) s) as [n1|] eqn:N.
  - set (s' := for_each (txbx_paragraphs c s) (process_paragraph translator) s).
    destruct (IH (load d s' n1)) with (c := n1) (s := s') as [fuel Hfuel].
    + apply (flt_ext _ (load d s c)); [|exact Hf].
      apply (turn_load translator d s c y W R Fy Ty n1 N).
    + apply (turn_ready translator d s c y W R Fy Ty n1 N).
    + reflexivity.
    + exists (S fuel). intros n. cbn [text_box_loop]. rewrite N. apply Hfuel.
  - exists 2. intros n. cbn [text_box_loop]. now rewrite N.
Qed.

Lemma first_ready (s : state) (c : nat) :
  Wf s -> rooted d s = true -> next_txbx d None s = Some c -> ready d s c.
Proof.
  intros W R N. split; [exact W|]. split; [exact R|].
  destruct (rooted_body d s W R) as [b [Hb [_ Fb]]].
  unfold next_txbx, walk in N. rewrite Fb in N.
  destruct (List.find _ (iter b)) as [z|] eqn:F; [|discriminate].
  injection N as <-. apply find_some in F as [Hz Tz]. exists z. split.
  - apply find_in_unique; [apply W|]. apply (nodes_iter _ b z (nodes_root _ _ Hb) Hz).
  - now apply has_tag_true.
Qed.

Lemma loop_ends (s : state) :
  Wf s -> rooted d s = true ->
  exists fuel,
    forall n, snd (text_box_loop translator fuel d (next_txbx d None s) n s) = true.
Proof.
  intros W R. destruct (next_txbx d None s) as [c|] eqn:N.
  - apply (loop_ends_from (load d s c) (load_Acc d s c) c s);
      [now apply first_ready | reflexivity].
  - exists 1. reflexivity.
Qed.

End Ends.

(** *** The roots of the state *)

Lemma same_roots_refl (s : state) : same_roots s s.
Proof. intros i H. exact H. Qed.

Lemma same_roots_trans (s1 s2 s3 : state) :
  same_roots s1 s2 -> same_roots s2 s3 -> same_roots s1 s3.
Proof. intros A B i H. apply B, A, H. Qed.

Lemma same_roots_trees (s s' : state) : trees s' = trees s -> same_roots s s'.
Proof. intros E i H. now rewrite E. Qed.

Lemma roots_set_text (p : nat) (txt : Py.str) (s : state) :
  same_roots s (Docx.set_text p txt s).
Proof.
  intros i H. unfold Docx.set_text. destruct (find_in p (trees s)); [|exact H].
  cbn [alloc set_trees trees]. rewrite existsb_app, existsb_map_nid, H; [reflexivity|].
  intros x. apply nid_update. intros y. reflexivity.
Qed.

Lemma roots_remove (p : nat) (s s' : state) :
  Docx.remove p s = Some s' -> same_roots s s'.
Proof.
  unfold Docx.remove. destruct (parent_in p (trees s)); [|discriminate].
  destruct (find_in p (trees s)); [|discriminate]. intros [= <-] i H.
  cbn [set_trees trees]. rewrite existsb_app, existsb_map_nid, H; [reflexivity|].
  intros x. apply nid_prune.
Qed.

Lemma roots_insert (p : nat) (new : elem) (s s' : state) :
  Docx.insert_next p new s = Some s' -> same_roots s s'.
Proof.
  unfold Docx.insert_next. destruct (parent_in p (trees s)); [|discriminate].
  intros [= <-] i H. cbn [set_trees trees]. rewrite existsb_map_nid; [exact H|].
  intros x. apply nid_graft.
Qed.

Lemma roots_merge_step (curr_p : nat) (m : merging) :
  same_roots (doc m) (doc (merge_step curr_p m)).
Proof.
  unfold merge_step. cbv zeta.
  destruct (Py.is_empty _); [apply same_roots_refl|].
  destruct (Py.is_empty _); [apply same_roots_refl|].
  destruct (_ && _); [|apply same_roots_refl].
  destruct (Docx.remove _ _) as [st2|] eqn:R; cbn [doc].
  - eapply same_roots_trans; [apply roots_set_text | apply (roots_remove _ _ _ R)].
  - eapply same_roots_trans; [apply roots_set_text | now apply same_roots_trees].
Qed.

Lemma roots_merge_loop (ps : list nat) (m : merging) :
  same_roots (doc m) (doc (merge_loop ps m)).
Proof.
  revert m. unfold merge_loop. induction ps as [|p ps IH]; intros m; cbn [fold_left].
  - apply same_roots_refl.
  - apply (same_roots_trans _ _ _ (roots_merge_step p m) (IH _)).
Qed.

Lemma roots_merged (d : document) (s : state) : same_roots s (merge_paragraphs d s).
Proof.
  unfold merge_paragraphs.
  destruct (Docx.children "w:p" (body d) (print MergingSplitParagraphs s)) as [|a l].
  - now apply same_roots_trees.
  - apply (same_roots_trans _ (print MergingSplitParagraphs s));
      [now apply same_roots_trees|].
    apply (same_roots_trans _ _ _
             (roots_merge_loop l (Merging a 0 (print MergingSplitParagraphs s)))).
    now apply same_roots_trees.
Qed.

Section Run.

Variable translator : nat -> Py.str -> option Py.str.

Lemma roots_translate (p : nat) (s : state) :
  same_roots s (translate_paragraph_element translator p s).
Proof.
  unfold translate_paragraph_element.
  destruct (find_in p (trees s)); [|apply same_roots_refl].
  destruct (Py.is_empty _); [apply same_roots_refl|].
  destruct (translator _ _); [|now apply same_roots_trees].
  destruct (is_header_colon _).
  - apply (same_roots_trans _ (called (text_to_translate
                                         (Py.strip (Docx.Paragraph_text e))) s));
      [now apply same_roots_trees | apply roots_set_text].
  - destruct (Docx.insert_next _ _ _) as [s''|] eqn:I; [|now apply same_roots_trees].
    apply (same_roots_trans _ s'').
    + apply (same_roots_trans _ (called (text_to_translate
                                           (Py.strip (Docx.Paragraph_text e))) s));
        [now apply same_roots_trees | apply (roots_insert _ _ _ _ I)].
    + now apply same_roots_trees.
Qed.

Lemma roots_process (p : nat) (s : state) :
  same_roots s (process_paragraph translator p s).
Proof.
  unfold process_paragraph. destruct (Py.is_empty _); [apply same_roots_refl|].
  apply (same_roots_trans _ _ _ (roots_translate p s)). now apply same_roots_trees.
Qed.

(** A loop whose turns keep the state well formed and keep its roots does
    so too. *)
Lemma for_each_sound {A : Type} (f : A -> state -> state) (l : list A) :
  (forall a s, Wf s -> Wf (f a s) /\ same_roots s (f a s)) ->
  forall s, Wf s -> Wf (for_each l f s) /\ same_roots s (for_each l f s).
Proof.
  intros H. unfold for_each. induction l as [|a l IH]; intros s W; cbn [fold_left].
  - split; [exact W | apply same_roots_refl].
  - destruct (H a s W) as [W1 R1]. destruct (IH _ W1) as [W2 R2].
    split; [exact W2 | now apply (same_roots_trans _ (f a s))].
Qed.

Lemma visit_sound (c : nat) (s : state) :
  Wf s -> Wf (visit translator c s) /\ same_roots s (visit translator c s).
Proof.
  intros W. split; [apply (visited translator c s W)|].
  unfold visit, process_paragraph_list, for_each.
  generalize (Docx.children "w:p" c s) as l. intros l. clear W. revert s.
  induction l as [|p l IH]; intros s; cbn [fold_left]; [apply same_roots_refl|].
  apply (same_roots_trans _ _ _ (roots_process p s)).
  apply IH.
Qed.

(** X17.  The run comes to an end on every well-formed document whose body
    is one of the trees of the state: there is a number of turns of the loop
    over the text boxes within which the iterator is exhausted, and the run
    is the same for every greater number. *)
Theorem run_comes_to_an_end (d : document) (st : state) :
  well_formed st = true ->
  rooted d st = true ->
  exists fuel,
    snd (translate_and_format translator fuel d st) = true
    /\ forall more,
         translate_and_format translator (fuel + more) d st
         = translate_and_format translator fuel d st.
Proof.
  intros Hwf R. apply well_formed_Wf in Hwf.
  set (st1 := print TranslatingBody (merge_paragraphs d st)).
  set (st2 := print TranslatingHeadersFooters (translate_body translator d st1)).
  set (st3 := print TranslatingTables (translate_headers_footers translator d st2)).
  set (st4 := print TranslatingTextBoxes (translate_tables translator d st3)).
  assert (S1 : Wf st1 /\ same_roots st st1).
  { split; [apply (merged_state d st Hwf)|].
    apply (same_roots_trans _ _ _ (roots_merged d st)). now apply same_roots_trees. }
  assert (S2 : Wf st2 /\ same_roots st st2).
  { destruct S1 as [W1 R1]. destruct (visit_sound (body d) st1 W1) as [W2 R2].
    split; [exact W2|]. apply (same_roots_trans _ _ _ R1).
    apply (same_roots_trans _ _ _ R2). now apply same_roots_trees. }
  assert (S3 : Wf st3 /\ same_roots st st3).
  { destruct S2 as [W2 R2].
    destruct (for_each_sound (translate_section translator) (sections d)) with (s := st2)
      as [W3 R3]; [|exact W2|].
    - intros section s W. unfold translate_section.
      destruct (visit_sound (fst section) s W) as [Wa Ra].
      destruct (visit_sound (snd section) _ Wa) as [Wb Rb].
      split; [exact Wb | exact (same_roots_trans _ _ _ Ra Rb)].
    - split; [exact W3|]. apply (same_roots_trans _ _ _ R2).
      apply (same_roots_trans _ _ _ R3). now apply same_roots_trees. }
  assert (S4 : Wf st4 /\ same_roots st st4).
  { destruct S3 as [W3 R3].
    destruct (for_each_sound (translate_table translator)
                (Docx.children "w:tbl" (body d) st3)) with (s := st3)
      as [W4 R4]; [|exact W3|].
    - intros table s W. apply for_each_sound; [|exact W].
      intros row s' W'. apply for_each_sound; [|exact W'].
      intros cell s'' W''. apply (visit_sound cell s'' W'').
    - split; [exact W4|]. apply (same_roots_trans _ _ _ R3).
      apply (same_roots_trans _ _ _ R4). now apply same_roots_trees. }
  destruct S4 as [W4 R4].
  destruct (loop_ends translator d st4 W4 (R4 _ R)) as [fuel Hfuel].
  assert (E : snd (translate_and_format translator fuel d st) = true).
  { unfold translate_and_format, translate_text_boxes. fold st1 st2 st3 st4.
    specialize (Hfuel 0).
    destruct (text_box_loop translator fuel d (next_txbx d None st4) 0 st4) as [[s n] f].
    exact Hfuel. }
  exists fuel. split; [exact E|].
  intros more. now apply translate_and_format_fuel.
Qed.

End Run.

Lemma run_comes_to_an_end_witness :
  exists fuel,
    snd (translate_and_format (Sample.answers u"Text") fuel Sample.the_doc
           Sample.nested) = true
    /\ forall more,
         translate_and_format (Sample.answers u"Text") (fuel + more) Sample.the_doc
           Sample.nested
         = translate_and_format (Sample.answers u"Text") fuel Sample.the_doc
             Sample.nested.
Proof.
  apply (run_comes_to_an_end (Sample.answers u"Text") Sample.the_doc Sample.nested);
    reflexivity.
Defined.
